(** * Snapshot store and TCP transport of the raft package

    A shallow embedding of [file_snapshot.go] and [tcp_transport.go], together
    with a model of the AppendEntries pipeline whose source is not part of the
    tree, and the properties of these that the package documentation states.

    Part I holds the definitions, one module per Go package or file:
    - [Crc64]    : hash/crc64 with the ECMA polynomial, as the store uses it;
    - [Os]       : the operating system as the store sees it: one directory,
                   file handles, the clock, and I/O calls that may fail;
    - [Snapshot] : file_snapshot.go, the store and its sink;
    - [TCP]      : tcp_transport.go, construction of the TCP stream layer;
    - [Pipeline] : the AppendEntries pipeline;
    - [Spec]     : the notions the statements are written with;
    - [Examples] : concrete stores, directories and pipelines;
    - [Props]    : the notions of the further statements;
    - [Cases]    : further stores, sinks and directories.
    Part II holds the theorems that the package documentation states, Part
    III further theorems on the same code; the file ends with the theorems
    at work on the examples. *)

From stdpp Require Import gmap strings list fin_maps sorting.
From Stdlib Require Import ZArith Lia DecimalString.
From Stdlib.Strings Require Import Byte.
From Stdlib Require OrdersEx.

Local Open Scope Z_scope.

(* ===================================================================== *)
(** * Part I: definitions                                                 *)
(* ===================================================================== *)

#[global] Instance byte_eq_dec : EqDecision byte := Byte.byte_eq_dec.

(** [bytes.Equal(a, b)]; a nil slice is the empty list. *)
Definition bytes_Equal (a b : list byte) : bool := bool_decide (a = b).

(** A Go [error] value. *)
Inductive error :=
| Errorf (msg : string)                    (* errors.New(msg), fmt.Errorf(msg) *)
| ErrorfV (msg : string) (cause : error)   (* fmt.Errorf(msg ++ ": %v", cause) *)
| PathError (op : string)                  (* what the OS reports when [op] fails *)
| DecodeError                              (* what json.Decoder.Decode reports *)
| RuntimePanic (msg : string).             (* a run-time panic, e.g. index out of range *)

(** ** hash/crc64 *)

Module Crc64.

(** crc64.ECMA *)
Definition ECMA : Z := 0xC96C5795D7870F42.

Definition mask64 : Z := 2 ^ 64 - 1.

(** [^crc] on a uint64. *)
Definition not64 (crc : Z) : Z := Z.lxor crc mask64.

(** One round of the inner loop of makeTable:
    [if crc&1 == 1 { crc = (crc >> 1) ^ poly } else { crc >>= 1 }]. *)
Definition tableRound (poly crc : Z) : Z :=
  if Z.land crc 1 =? 1 then Z.lxor (Z.shiftr crc 1) poly else Z.shiftr crc 1.

(** [makeTable(poly)[i]]: eight rounds starting from [uint64(i)]. *)
Definition makeTable (poly : Z) (i : Z) : Z :=
  Nat.iter 8 (tableRound poly) i.

Definition byteZ (b : byte) : Z := Z.of_N (Byte.to_N b).

(** The body of the byte loop of update:
    [crc = tab[byte(crc)^v] ^ (crc >> 8)]. *)
Definition updateByte (tab : Z → Z) (crc : Z) (v : byte) : Z :=
  Z.lxor (tab (Z.lxor (Z.land crc 255) (byteZ v))) (Z.shiftr crc 8).

(** [update(crc, tab, p)]: complement, fold the bytes, complement. *)
Definition update (crc : Z) (tab : Z → Z) (p : list byte) : Z :=
  not64 (fold_left (updateByte tab) p (not64 crc)).

(** The digest made by [crc64.New(crc64.MakeTable(crc64.ECMA))]: its state is
    the running crc, zero at first. *)
Definition New : Z := 0.

(** [d.Write(p)] *)
Definition Write (d : Z) (p : list byte) : Z := update d (makeTable ECMA) p.

Definition byteOfZ (z : Z) : byte :=
  match Byte.of_N (Z.to_N (Z.land z 255)) with
  | Some b => b
  | None => Byte.x00
  end.

(** [d.Sum(nil)]: the eight bytes of the crc, most significant first. *)
Definition Sum (d : Z) : list byte :=
  map (λ k, byteOfZ (Z.shiftr d (8 * k))) [7; 6; 5; 4; 3; 2; 1; 0].

(** The checksum of a whole byte string, as [Sum] of a fresh digest fed [p]. *)
Definition checksum (p : list byte) : list byte := Sum (Write New p).

End Crc64.

(** ** Package-level types of raft that the snapshot store uses *)

Definition ServerID := string.
Definition ServerAddress := string.

(** Modelled from the spec: [Configuration] is declared outside these files;
    the store only copies it into the metadata. It is taken as the list of the
    cluster's (id, address) pairs. *)
Definition Configuration := list (ServerID * ServerAddress).

(** Modelled from the spec: [SnapshotMeta] is declared outside these files.
    The fields are those the data model lists for the metadata on disk, less
    the CRC that [fileSnapshotMeta] adds. [Index] and [Term] are uint64,
    [Size] is int64, [Version] is the integer type SnapshotVersion. *)
Record SnapshotMeta := {
  Version : Z;
  ID : string;
  Index : N;
  Term : N;
  Peers : list byte;
  Configuration_ : Configuration;
  ConfigurationIndex : N;
  Size : Z }.

(** fileSnapshotMeta is stored on disk, with the CRC of the state file.
    A nil [CRC] is the empty list: bytes.Equal does not tell them apart. *)
Record fileSnapshotMeta := {
  SnapshotMeta_ : SnapshotMeta;
  CRC : list byte }.

(** ** The operating system *)

Module Os.

(** The two files of a snapshot directory: [metaFilePath], [stateFilePath]. *)
Inductive fname := MetaFile | StateFile.

(** What meta.json holds: the JSON encoding of a [fileSnapshotMeta], or bytes
    that json.Decoder.Decode rejects (an empty or truncated file among them). *)
Inductive metaContent :=
| Garbled
| Encoded (m : fileSnapshotMeta).

(** A directory below the store's path. *)
Record snapDir := {
  meta_json : option metaContent;
  state_bin : option (list byte) }.

(** An entry of the store's path: a plain file or a directory. *)
Inductive node :=
| NFile
| NDir (d : snapDir).

(** What an open *os.File refers to. Paths are kept relative to the store's
    path [f.path]: [InDir d n] is [filepath.Join(f.path, d, n)], [TopFile n]
    is [filepath.Join(f.path, n)] and [StoreDir] is [f.path] itself. *)
Inductive target :=
| InDir (d : string) (n : fname)
| TopFile (n : string)
| StoreDir.

Record handle := {
  h_target : target;
  h_off : nat }.

Record World := {
  fs : gmap string node;   (* the entries of the store's path *)
  fds : gmap nat handle;   (* the open file handles *)
  faults : list bool;      (* whether each of the I/O calls to come fails *)
  clock : Z;               (* time.Now().UnixNano() *)
  GOOS : string }.         (* runtime.GOOS *)

Definition set_fs (m : gmap string node) (w : World) : World :=
  {| fs := m; fds := fds w; faults := faults w; clock := clock w; GOOS := GOOS w |}.

Definition set_fds (m : gmap nat handle) (w : World) : World :=
  {| fs := fs w; fds := m; faults := faults w; clock := clock w; GOOS := GOOS w |}.

Definition set_faults (l : list bool) (w : World) : World :=
  {| fs := fs w; fds := fds w; faults := l; clock := clock w; GOOS := GOOS w |}.

(** A computation that reads and changes the world and returns an error or a
    value. *)
Definition IO (A : Type) : Type := World → (error + A) * World.

Definition ret {A} (a : A) : IO A := λ w, (inr a, w).

Definition throw {A} (e : error) : IO A := λ w, (inl e, w).

Definition bind {A B} (m : IO A) (k : A → IO B) : IO B :=
  λ w, match m w with
       | (inl e, w') => (inl e, w')
       | (inr a, w') => k a w'
       end.

#[global] Instance IO_ret : MRet IO := @ret.
#[global] Instance IO_bind : MBind IO := λ A B k m, bind m k.

(** [x, err := m; if err != nil { return h(err) }; k x]: the caller handles
    the error itself. *)
Definition catch {A} (m : IO A) : IO (error + A) :=
  λ w, let '(r, w') := m w in (inr r, w').

(** The next I/O call asks the environment whether it fails, which uses up
    that answer; when none is left the call goes well. *)
Definition io_fault (w : World) : bool * World :=
  (hd false (faults w), set_faults (tl (faults w)) w).

(** The answers to the next [n] I/O calls. *)
Definition upcoming (n : nat) (w : World) : list bool :=
  take n (faults w ++ replicate n false).

(** An I/O call [op]: it fails with no effect when the environment says so,
    and otherwise does [body]. *)
Definition syscall {A} (op : string) (body : IO A) : IO A :=
  λ w, let '(bad, w1) := io_fault w in
       if bad then (inl (PathError op), w1) else body w1.

Definition emptyDir : snapDir := {| meta_json := None; state_bin := None |}.

Definition is_emptyDir (d : snapDir) : bool :=
  match meta_json d, state_bin d with
  | None, None => true
  | _, _ => false
  end.

Definition set_meta (c : metaContent) (d : snapDir) : snapDir :=
  {| meta_json := Some c; state_bin := state_bin d |}.

Definition set_state (b : list byte) (d : snapDir) : snapDir :=
  {| meta_json := meta_json d; state_bin := Some b |}.

(** A file just created or truncated: it is empty. *)
Definition truncate (n : fname) (d : snapDir) : snapDir :=
  match n with
  | MetaFile => set_meta Garbled d
  | StateFile => set_state [] d
  end.

Definition has_file (n : fname) (d : snapDir) : bool :=
  match n with
  | MetaFile => match meta_json d with Some _ => true | None => false end
  | StateFile => match state_bin d with Some _ => true | None => false end
  end.

(** A handle not in use. *)
Definition new_fd (w : World) : nat := fresh (dom (fds w)).

Definition open_handle (t : target) : IO nat :=
  λ w, let fd := new_fd w in
       (inr fd, set_fds (<[fd := {| h_target := t; h_off := 0 |}]> (fds w)) w).

(** [os.MkdirAll(filepath.Join(f.path, name), 0o755)] *)
Definition MkdirAll (name : string) : IO unit :=
  syscall "mkdir" (λ w,
    match fs w !! name with
    | Some (NDir _) => (inr tt, w)
    | Some NFile => (inl (PathError "mkdir"), w)
    | None => (inr tt, set_fs (<[name := NDir emptyDir]> (fs w)) w)
    end).

(** [os.MkdirAll(f.path, 0o755)]: the store's path itself. It makes the
    directories that are missing and reports no error when the path is
    there. *)
Definition MkdirAll_path : IO unit := syscall "mkdir" (ret tt).

(** [os.Create(filepath.Join(f.path, d, n))]: the file is created or
    truncated, and opened at offset 0. *)
Definition Create (d : string) (n : fname) : IO nat :=
  syscall "open" (λ w,
    match fs w !! d with
    | Some (NDir sd) =>
        open_handle (InDir d n) (set_fs (<[d := NDir (truncate n sd)]> (fs w)) w)
    | _ => (inl (PathError "open"), w)
    end).

(** [os.Create(filepath.Join(f.path, name))] for a file of the store's path. *)
Definition Create_top (name : string) : IO nat :=
  syscall "open" (λ w,
    match fs w !! name with
    | Some (NDir _) => (inl (PathError "open"), w)
    | _ => open_handle (TopFile name) (set_fs (<[name := NFile]> (fs w)) w)
    end).

(** [os.Open(filepath.Join(f.path, d, n))] *)
Definition Open (d : string) (n : fname) : IO nat :=
  syscall "open" (λ w,
    match fs w !! d with
    | Some (NDir sd) =>
        if has_file n sd then open_handle (InDir d n) w
        else (inl (PathError "open"), w)
    | _ => (inl (PathError "open"), w)
    end).

(** [os.Open(f.path)] *)
Definition Open_path : IO nat := syscall "open" (open_handle StoreDir).

(** [fh.Close()]: the handle is released whatever the call returns. *)
Definition Close (fd : nat) : IO unit :=
  λ w, match fds w !! fd with
       | None => (inl (PathError "close"), w)
       | Some _ =>
           let '(bad, w1) := io_fault w in
           let w2 := set_fds (delete fd (fds w1)) w1 in
           if bad then (inl (PathError "close"), w2) else (inr tt, w2)
       end.

(** [fh.Sync()] *)
Definition Sync (fd : nat) : IO unit :=
  syscall "sync" (λ w,
    match fds w !! fd with
    | None => (inl (PathError "sync"), w)
    | Some _ => (inr tt, w)
    end).

(** The bytes of the state file a handle refers to, if it is still there. *)
Definition state_of (h : handle) (w : World) : option (list byte) :=
  match h_target h with
  | InDir d StateFile =>
      match fs w !! d with
      | Some (NDir sd) => state_bin sd
      | _ => None
      end
  | _ => None
  end.

(** [fh.Stat()], of which the caller reads [Size()]. *)
Definition Stat (fd : nat) : IO Z :=
  syscall "stat" (λ w,
    match fds w !! fd with
    | None => (inl (PathError "stat"), w)
    | Some h => (inr (Z.of_nat (length (default [] (state_of h w)))), w)
    end).

(** The content of a file after [p] is written at offset [off]. *)
Definition write_at (off : nat) (p content : list byte) : list byte :=
  take off content ++ replicate (off - length content) Byte.x00 ++ p
    ++ drop (off + length p) content.

(** [fh.Write(p)] on a state file. A write through a handle whose file has
    been unlinked succeeds and is seen by nobody. *)
Definition Write (fd : nat) (p : list byte) : IO unit :=
  syscall "write" (λ w,
    match fds w !! fd with
    | None => (inl (PathError "write"), w)
    | Some h =>
        let w1 := set_fds (<[fd := {| h_target := h_target h; h_off := (h_off h + length p)%nat |}]> (fds w)) w in
        match h_target h with
        | InDir d StateFile =>
            match fs w !! d with
            | Some (NDir sd) =>
                match state_bin sd with
                | Some content =>
                    (inr tt, set_fs (<[d := NDir (set_state (write_at (h_off h) p content) sd)]> (fs w1)) w1)
                | None => (inr tt, w1)
                end
            | _ => (inr tt, w1)
            end
        | _ => (inl (PathError "write"), w)
        end
    end).

(** Reading a state file from the handle's offset to its end, which moves the
    offset there: what io.Copy and a reader drained to EOF do. *)
Definition ReadToEnd (fd : nat) : IO (list byte) :=
  syscall "read" (λ w,
    match fds w !! fd with
    | None => (inl (PathError "read"), w)
    | Some h =>
        match state_of h w with
        | Some content =>
            (inr (drop (h_off h) content),
             set_fds (<[fd := {| h_target := h_target h; h_off := Nat.max (h_off h) (length content) |}]> (fds w)) w)
        | None => (inl (PathError "read"), w)
        end
    end).

(** [fh.Seek(off, 0)] *)
Definition Seek (fd : nat) (off : nat) : IO unit :=
  syscall "seek" (λ w,
    match fds w !! fd with
    | None => (inl (PathError "seek"), w)
    | Some h => (inr tt, set_fds (<[fd := {| h_target := h_target h; h_off := off |}]> (fds w)) w)
    end).

(** Writing the JSON encoding of [m] to a meta file through its handle. *)
Definition WriteJSON (fd : nat) (m : fileSnapshotMeta) : IO unit :=
  syscall "write" (λ w,
    match fds w !! fd with
    | Some {| h_target := InDir d MetaFile |} =>
        match fs w !! d with
        | Some (NDir sd) =>
            (inr tt, set_fs (<[d := NDir (set_meta (Encoded m) sd)]> (fs w)) w)
        | _ => (inr tt, w)
        end
    | _ => (inl (PathError "write"), w)
    end).

(** [json.NewDecoder(bufio.NewReader(fh)).Decode(meta)] *)
Definition ReadJSON (fd : nat) : IO fileSnapshotMeta :=
  syscall "read" (λ w,
    match fds w !! fd with
    | Some {| h_target := InDir d MetaFile |} =>
        match fs w !! d with
        | Some (NDir {| meta_json := Some (Encoded m) |}) => (inr m, w)
        | Some (NDir {| meta_json := Some Garbled |}) => (inl DecodeError, w)
        | _ => (inl (PathError "read"), w)
        end
    | _ => (inl (PathError "read"), w)
    end).

(** [os.Rename(old, new)] of entries of the store's path. A directory may
    replace an empty directory and nothing else. *)
Definition Rename (old new : string) : IO unit :=
  syscall "rename" (λ w,
    match fs w !! old with
    | None => (inl (PathError "rename"), w)
    | Some n =>
        let moved := set_fs (<[new := n]> (delete old (fs w))) w in
        if bool_decide (old = new) then (inr tt, w)
        else match fs w !! new, n with
             | None, _ => (inr tt, moved)
             | Some (NDir d), NDir _ =>
                 if is_emptyDir d then (inr tt, moved) else (inl (PathError "rename"), w)
             | Some NFile, NFile => (inr tt, moved)
             | _, _ => (inl (PathError "rename"), w)
             end
    end).

(** [os.RemoveAll(filepath.Join(f.path, name))]: no error when nothing is there. *)
Definition RemoveAll (name : string) : IO unit :=
  syscall "unlinkat" (λ w, (inr tt, set_fs (delete name (fs w)) w)).

(** [os.Remove(filepath.Join(f.path, name))] *)
Definition Remove (name : string) : IO unit :=
  syscall "remove" (λ w,
    match fs w !! name with
    | Some NFile => (inr tt, set_fs (delete name (fs w)) w)
    | Some (NDir d) =>
        if is_emptyDir d then (inr tt, set_fs (delete name (fs w)) w)
        else (inl (PathError "remove"), w)
    | None => (inl (PathError "remove"), w)
    end).

(** [os.ReadDir(f.path)]: the name of every entry and whether it is a
    directory. *)
Definition ReadDir : IO (list (string * bool)) :=
  syscall "readdir" (λ w,
    (inr (map (λ e, (e.1, match e.2 with NDir _ => true | NFile => false end))
              (map_to_list (fs w))), w)).

(** [time.Now().UnixNano()] *)
Definition Now : IO Z := λ w, (inr (clock w), w).

End Os.


(** ** strings, fmt, sort, bufio *)

(** [strings.HasSuffix(s, suffix)] *)
Definition HasSuffix (s suffix : string) : bool :=
  let n := String.length s in
  let k := String.length suffix in
  (k <=? n)%nat && String.eqb (String.substring (n - k) k s) suffix.

(** [strings.TrimSuffix(s, suffix)] *)
Definition TrimSuffix (s suffix : string) : string :=
  if HasSuffix s suffix then String.substring 0 (String.length s - String.length suffix) s else s.

(** The verb [%d] of fmt.Sprintf on an integer. *)
Definition fmt_d (z : Z) : string :=
  DecimalString.NilZero.string_of_int (Z.to_int z).

(** [filepath.Join(a, b)] for two plain components. *)
Definition filepath_Join (a b : string) : string := a +:+ "/" +:+ b.

(** [sort.Reverse(x).Less(i, j)] is [x.Less(j, i)]. *)
Definition sort_Reverse {A} (less : A → A → bool) : A → A → bool :=
  λ a b, less b a.

(** [sort.Sort(x)] puts the slice in an order in which no element is [less]
    than one before it, and does not promise more (it is not stable). The
    model inserts each element after those that are [less] than it. *)
Fixpoint sort_insert {A} (less : A → A → bool) (x : A) (l : list A) : list A :=
  match l with
  | [] => [x]
  | y :: l' => if less y x then y :: sort_insert less x l' else x :: l
  end.

Definition sort_Sort {A} (less : A → A → bool) (l : list A) : list A :=
  foldr (sort_insert less) [] l.

(** ** file_snapshot.go *)

Module Snapshot.

Definition testPath : string := "permTest".
Definition snapPath : string := "snapshots".
Definition tmpSuffix : string := ".tmp".

(** FileSnapshotStore, less its logger. *)
Record FileSnapshotStore := {
  path : string;
  retain : Z;
  noSync : bool }.

(** The state of the [bufio.Writer] of a sink: the bytes it holds back and
    the error it has met, which every later call returns again. *)
Record bufioWriter := {
  buf : list byte;
  err : option error }.

(** The size of the buffer bufio.NewWriter allocates. *)
Definition defaultBufSize : nat := 4096.

(** FileSnapshotSink, less its logger. [stateFile] is the handle of the open
    state file and [stateHash] the state of the CRC64 digest; [buffered]
    writes to both of them. *)
Record FileSnapshotSink := {
  store : FileSnapshotStore;
  dir : string;
  parentDir : string;
  meta : fileSnapshotMeta;
  sinkNoSync : bool;
  stateFile : nat;
  stateHash : Z;
  buffered : bufioWriter;
  closed : bool }.

Definition set_meta (m : fileSnapshotMeta) (s : FileSnapshotSink) : FileSnapshotSink :=
  {| store := store s; dir := dir s; parentDir := parentDir s; meta := m;
     sinkNoSync := sinkNoSync s; stateFile := stateFile s; stateHash := stateHash s;
     buffered := buffered s; closed := closed s |}.

Definition set_stateHash (h : Z) (s : FileSnapshotSink) : FileSnapshotSink :=
  {| store := store s; dir := dir s; parentDir := parentDir s; meta := meta s;
     sinkNoSync := sinkNoSync s; stateFile := stateFile s; stateHash := h;
     buffered := buffered s; closed := closed s |}.

Definition set_buffered (b : bufioWriter) (s : FileSnapshotSink) : FileSnapshotSink :=
  {| store := store s; dir := dir s; parentDir := parentDir s; meta := meta s;
     sinkNoSync := sinkNoSync s; stateFile := stateFile s; stateHash := stateHash s;
     buffered := b; closed := closed s |}.

Definition set_closed (c : bool) (s : FileSnapshotSink) : FileSnapshotSink :=
  {| store := store s; dir := dir s; parentDir := parentDir s; meta := meta s;
     sinkNoSync := sinkNoSync s; stateFile := stateFile s; stateHash := stateHash s;
     buffered := buffered s; closed := c |}.

(** bufferedFile is returned when we open a snapshot: reads go through a
    bufio.Reader over the handle [fh]. *)
Record bufferedFile := { fh : nat }.

(** Reading a [bufferedFile] until EOF. *)
Definition bufferedFile_ReadAll (b : bufferedFile) : Os.IO (list byte) :=
  Os.ReadToEnd (fh b).

Definition bufferedFile_Close (b : bufferedFile) : Os.IO unit :=
  Os.Close (fh b).

(** snapMetaSlice.Less on two elements of the slice. *)
Definition Less (a b : fileSnapshotMeta) : bool :=
  if negb (Term (SnapshotMeta_ a) =? Term (SnapshotMeta_ b))%N then
    (Term (SnapshotMeta_ a) <? Term (SnapshotMeta_ b))%N
  else if negb (Index (SnapshotMeta_ a) =? Index (SnapshotMeta_ b))%N then
    (Index (SnapshotMeta_ a) <? Index (SnapshotMeta_ b))%N
  else String.ltb (ID (SnapshotMeta_ a)) (ID (SnapshotMeta_ b)).

(** snapshotName generates a name for the snapshot. The division of two
    int64 truncates. *)
Definition snapshotName (term index : N) : Os.IO string :=
  now ← Os.Now;
  let msec := Z.quot now 1000000 in
  mret (fmt_d (Z.of_N term) +:+ "-" +:+ fmt_d (Z.of_N index) +:+ "-" +:+ fmt_d msec).

(** testPermissions tries to touch a file in our path to see if it works. *)
Definition testPermissions : Os.IO unit :=
  fh ← Os.Create_top testPath;
  _ ← Os.Close fh;
  Os.Remove testPath.

(** NewFileSnapshotStoreWithLogger. The world is the directory
    [filepath.Join(base, snapPath)]. *)
Definition NewFileSnapshotStoreWithLogger (base : string) (retain : Z) : Os.IO FileSnapshotStore :=
  if retain <? 1 then Os.throw (Errorf "must retain at least one snapshot")
  else
    let path := filepath_Join base snapPath in
    r ← Os.catch Os.MkdirAll_path;
    match r with
    | inl e => Os.throw (ErrorfV "snapshot path not accessible" e)
    | inr _ =>
        let store := {| path := path; retain := retain; noSync := false |} in
        r ← Os.catch testPermissions;
        match r with
        | inl e => Os.throw (ErrorfV "permissions test failed" e)
        | inr _ => mret store
        end
    end.

(** NewFileSnapshotStore only builds the logger that it passes on. *)
Definition NewFileSnapshotStore (base : string) (retain : Z) : Os.IO FileSnapshotStore :=
  NewFileSnapshotStoreWithLogger base retain.

(** readMeta is used to read the meta data for a given named backup. The
    deferred Close runs on every way out and its error is dropped. *)
Definition readMeta (name : string) : Os.IO fileSnapshotMeta :=
  fh ← Os.Open name Os.MetaFile;
  r ← Os.catch (Os.ReadJSON fh);
  _ ← Os.catch (Os.Close fh);
  match r with
  | inl e => Os.throw e
  | inr meta => mret meta
  end.

(** writeMeta is used to write out the metadata we have. [enc.Encode] fills
    the buffer and may already write, [buffered.Flush] writes the rest. *)
Definition writeMeta (s : FileSnapshotSink) : Os.IO unit :=
  fh ← Os.Create (dir s) Os.MetaFile;
  r ← Os.catch (
    _ ← Os.syscall "write" (mret tt);
    _ ← Os.WriteJSON fh (meta s);
    if negb (sinkNoSync s) then Os.Sync fh else mret tt);
  _ ← Os.catch (Os.Close fh);
  match r with
  | inl e => Os.throw e
  | inr _ => mret tt
  end.

Section Package.

(** The bounds of the snapshot versions the package understands, the type of
    a transport and the encoding of a configuration's peers are declared
    outside these files. *)
Context (SnapshotVersionMin SnapshotVersionMax : Z).
Context {Transport : Type} (encodePeers : Configuration → Transport → list byte).

(** The loop of getSnapshots over the directory entries. *)
Fixpoint getSnapshots_loop (snapshots : list (string * bool)) (snapMeta : list fileSnapshotMeta)
  : Os.IO (list fileSnapshotMeta) :=
  match snapshots with
  | [] => mret snapMeta
  | (dirName, isDir) :: rest =>
      (* Ignore any files *)
      if negb isDir then getSnapshots_loop rest snapMeta
      (* Ignore any temporary snapshots *)
      else if HasSuffix dirName tmpSuffix then getSnapshots_loop rest snapMeta
      else
        (* Try to read the meta data *)
        r ← Os.catch (readMeta dirName);
        match r with
        | inl _ => getSnapshots_loop rest snapMeta
        | inr meta =>
            (* Make sure we can understand this version. *)
            if (Version (SnapshotMeta_ meta) <? SnapshotVersionMin)
               || (SnapshotVersionMax <? Version (SnapshotMeta_ meta))
            then getSnapshots_loop rest snapMeta
            else getSnapshots_loop rest (snapMeta ++ [meta])
        end
  end.

(** getSnapshots returns all the known snapshots, new to old. *)
Definition getSnapshots (f : FileSnapshotStore) : Os.IO (list fileSnapshotMeta) :=
  snapshots ← Os.ReadDir;
  snapMeta ← getSnapshots_loop snapshots [];
  mret (sort_Sort (sort_Reverse Less) snapMeta).

(** The loop of List: append, then stop once [retain] are there. *)
Fixpoint List_loop (retain : Z) (snapshots : list fileSnapshotMeta) (snapMeta : list SnapshotMeta)
  : list SnapshotMeta :=
  match snapshots with
  | [] => snapMeta
  | meta :: rest =>
      let snapMeta := snapMeta ++ [SnapshotMeta_ meta] in
      if Z.of_nat (length snapMeta) =? retain then snapMeta
      else List_loop retain rest snapMeta
  end.

(** List returns available snapshots in the store. *)
Definition List (f : FileSnapshotStore) : Os.IO (list SnapshotMeta) :=
  snapshots ← getSnapshots f;
  mret (List_loop (retain f) snapshots []).

(** Open takes a snapshot ID and returns a ReadCloser for that snapshot. *)
Definition Open (f : FileSnapshotStore) (id : string) : Os.IO (SnapshotMeta * bufferedFile) :=
  (* Get the metadata *)
  meta ← readMeta id;
  (* Open the state file *)
  fh ← Os.Open id Os.StateFile;
  (* Compute the hash *)
  r ← Os.catch (Os.ReadToEnd fh);
  match r with
  | inl e => _ ← Os.catch (Os.Close fh); Os.throw e
  | inr content =>
      let stateHash := Crc64.Write Crc64.New content in
      (* Verify the hash *)
      let computed := Crc64.Sum stateHash in
      if negb (bytes_Equal (CRC meta) computed) then
        _ ← Os.catch (Os.Close fh); Os.throw (Errorf "CRC mismatch")
      else
        (* Seek to the start *)
        r ← Os.catch (Os.Seek fh 0);
        match r with
        | inl e => _ ← Os.catch (Os.Close fh); Os.throw e
        | inr _ => mret (SnapshotMeta_ meta, {| fh := fh |})
        end
  end.

(** The loop of ReapSnapshots over [snapshots[retain:]]. *)
Fixpoint ReapSnapshots_loop (snapshots : list fileSnapshotMeta) : Os.IO unit :=
  match snapshots with
  | [] => mret tt
  | snap :: rest =>
      _ ← Os.RemoveAll (ID (SnapshotMeta_ snap));
      ReapSnapshots_loop rest
  end.

(** ReapSnapshots reaps any snapshots beyond the retain count. A negative
    [retain] makes the first [snapshots[i]] panic. *)
Definition ReapSnapshots (f : FileSnapshotStore) : Os.IO unit :=
  snapshots ← getSnapshots f;
  if retain f <? 0 then Os.throw (RuntimePanic "index out of range")
  else ReapSnapshots_loop (drop (Z.to_nat (retain f)) snapshots).

(** ID returns the ID of the snapshot. *)
Definition ID_ (s : FileSnapshotSink) : string := ID (SnapshotMeta_ (meta s)).

(** What a sink method gives back: its result, the sink and the world. *)
Definition SinkIO (A : Type) : Type := Os.World → A * FileSnapshotSink * Os.World.

(** [io.MultiWriter(sink.stateFile, sink.stateHash).Write(p)]: the file
    first, the hash after it. *)
Definition multi_Write (s : FileSnapshotSink) (p : list byte) : SinkIO (option error) :=
  λ w, match Os.Write (stateFile s) p w with
       | (inl e, w1) => (Some e, s, w1)
       | (inr _, w1) => (None, set_stateHash (Crc64.Write (stateHash s) p) s, w1)
       end.

(** [s.buffered.Flush()] *)
Definition bufio_Flush (s : FileSnapshotSink) : SinkIO (option error) :=
  λ w, match err (buffered s) with
       | Some e => (Some e, s, w)
       | None =>
           match buf (buffered s) with
           | [] => (None, s, w)
           | b =>
               match multi_Write s b w with
               | (Some e, s1, w1) => (Some e, set_buffered {| buf := b; err := Some e |} s1, w1)
               | (None, s1, w1) => (None, set_buffered {| buf := []; err := None |} s1, w1)
               end
           end
       end.

(** A write too large for an empty buffer goes straight to the writer below. *)
Definition bufio_Write_direct (s : FileSnapshotSink) (p : list byte) (nn : nat) : SinkIO (nat * option error) :=
  λ w, match multi_Write s p w with
       | (Some e, s1, w1) => ((nn, Some e), set_buffered {| buf := []; err := Some e |} s1, w1)
       | (None, s1, w1) => (((nn + length p)%nat, None), s1, w1)
       end.

(** [s.buffered.Write(p)]. While [p] does not fit the room left, bufio writes
    [p] itself when the buffer is empty, and otherwise fills the buffer and
    flushes it; the rest is then copied into the buffer. The loop runs twice
    at most, as a flush leaves the buffer empty. *)
Definition bufio_Write (s : FileSnapshotSink) (p : list byte) : SinkIO (nat * option error) :=
  λ w,
  let b := buffered s in
  match err b with
  | Some e => ((0%nat, Some e), s, w)
  | None =>
      let avail := (defaultBufSize - length (buf b))%nat in
      if (length p <=? avail)%nat then
        ((length p, None), set_buffered {| buf := buf b ++ p; err := None |} s, w)
      else if (length (buf b) =? 0)%nat then
        bufio_Write_direct s p 0 w
      else
        let s1 := set_buffered {| buf := buf b ++ take avail p; err := None |} s in
        match bufio_Flush s1 w with
        | (Some e, s2, w2) => ((avail, Some e), s2, w2)
        | (None, s2, w2) =>
            let p := drop avail p in
            if (length p <=? defaultBufSize)%nat then
              (((avail + length p)%nat, None), set_buffered {| buf := p; err := None |} s2, w2)
            else bufio_Write_direct s2 p avail w2
        end
  end.

(** Write is used to append to the state file. *)
Definition Write (s : FileSnapshotSink) (b : list byte) : SinkIO (nat * option error) :=
  bufio_Write s b.

(** finalize is used to close all of our resources. *)
Definition finalize (s : FileSnapshotSink) : SinkIO (option error) :=
  λ w,
  (* Flush any remaining data *)
  match bufio_Flush s w with
  | (Some e, s1, w1) => (Some e, s1, w1)
  | (None, s1, w1) =>
      (* Sync to force fsync to disk *)
      match (if negb (sinkNoSync s1) then Os.Sync (stateFile s1) w1 else (inr tt, w1)) with
      | (inl e, w2) => (Some e, s1, w2)
      | (inr _, w2) =>
          (* Get the file size *)
          let '(stat, w3) := Os.Stat (stateFile s1) w2 in
          (* Close the file *)
          match Os.Close (stateFile s1) w3 with
          | (inl e, w4) => (Some e, s1, w4)
          | (inr _, w4) =>
              (* Set the file size, check after we close *)
              match stat with
              | inl statErr => (Some statErr, s1, w4)
              | inr size =>
                  let m := meta s1 in
                  let sm := SnapshotMeta_ m in
                  (None,
                   set_meta {| SnapshotMeta_ :=
                                 {| Version := Version sm; ID := ID sm; Index := Index sm;
                                    Term := Term sm; Peers := Peers sm;
                                    Configuration_ := Configuration_ sm;
                                    ConfigurationIndex := ConfigurationIndex sm;
                                    Size := size |};
                               (* Set the CRC *)
                               CRC := Crc64.Sum (stateHash s1) |} s1,
                   w4)
              end
          end
      end
  end.

(** The tail of Close once the directory is in place: the parent directory is
    synced unless noSync is set or we run on Windows, old snapshots are
    reaped, and the deferred Close of the parent's handle runs last. *)
Definition Close_sync_reap (s : FileSnapshotSink) : Os.IO unit :=
  λ w,
  if negb (sinkNoSync s) && negb (String.eqb (Os.GOOS w) "windows") then
    (parentFH ← Os.Open_path;
     r ← Os.catch (_ ← Os.Sync parentFH; ReapSnapshots (store s));
     _ ← Os.catch (Os.Close parentFH);
     match r with
     | inl e => Os.throw e
     | inr _ => mret tt
     end) w
  else ReapSnapshots (store s) w.

(** Close is used to indicate a successful end. *)
Definition Close (s : FileSnapshotSink) : SinkIO (option error) :=
  λ w,
  (* Make sure close is idempotent *)
  if closed s then (None, s, w)
  else
    let s := set_closed true s in
    (* Close the open handles *)
    match finalize s w with
    | (Some e, s1, w1) =>
        match Os.RemoveAll (dir s1) w1 with
        | (inl delErr, w2) => (Some delErr, s1, w2)
        | (inr _, w2) => (Some e, s1, w2)
        end
    | (None, s1, w1) =>
        (* Write out the meta data, move the directory into place *)
        let newPath := TrimSuffix (dir s1) tmpSuffix in
        match (_ ← writeMeta s1;
               _ ← Os.Rename (dir s1) newPath;
               Close_sync_reap s1) w1 with
        | (inl e, w2) => (Some e, s1, w2)
        | (inr _, w2) => (None, s1, w2)
        end
    end.

(** Cancel is used to indicate an unsuccessful end. *)
Definition Cancel (s : FileSnapshotSink) : SinkIO (option error) :=
  λ w,
  (* Make sure close is idempotent *)
  if closed s then (None, s, w)
  else
    let s := set_closed true s in
    (* Close the open handles *)
    match finalize s w with
    | (Some e, s1, w1) => (Some e, s1, w1)
    | (None, s1, w1) =>
        (* Attempt to remove all artifacts *)
        match Os.RemoveAll (dir s1) w1 with
        | (inl e, w2) => (Some e, s1, w2)
        | (inr _, w2) => (None, s1, w2)
        end
    end.

(** Create is used to start a new snapshot. *)
Definition Create (f : FileSnapshotStore) (version : Z) (index term : N)
    (configuration : Configuration) (configurationIndex : N) (trans : Transport)
  : Os.IO FileSnapshotSink :=
  (* We only support version 1 snapshots at this time. *)
  if negb (version =? 1) then
    Os.throw (Errorf ("unsupported snapshot version " +:+ fmt_d version))
  else
    (* Create a new path *)
    name ← snapshotName term index;
    let path := name +:+ tmpSuffix in
    (* Make the directory *)
    _ ← Os.MkdirAll path;
    (* Create the sink *)
    let sink := {|
      store := f;
      dir := path;
      parentDir := Snapshot.path f;
      sinkNoSync := noSync f;
      meta := {| SnapshotMeta_ :=
                   {| Version := version; ID := name; Index := index; Term := term;
                      Peers := encodePeers configuration trans;
                      Configuration_ := configuration;
                      ConfigurationIndex := configurationIndex;
                      Size := 0 |};
                 CRC := [] |};
      stateFile := 0%nat;
      stateHash := 0;
      buffered := {| buf := []; err := None |};
      closed := false |} in
    (* Write out the meta data *)
    _ ← writeMeta sink;
    (* Open the state file *)
    fh ← Os.Create path Os.StateFile;
    (* Create a CRC64 hash; wrap both the hash and file in a MultiWriter with buffering *)
    mret {|
      store := f;
      dir := path;
      parentDir := Snapshot.path f;
      sinkNoSync := noSync f;
      meta := meta sink;
      stateFile := fh;
      stateHash := Crc64.New;
      buffered := {| buf := []; err := None |};
      closed := false |}.

End Package.

End Snapshot.

(** ** tcp_transport.go *)

Module TCP.

(** [net.IP]: a slice of bytes, [None] when nil. *)
Definition IP := option (list byte).

(** [net.TCPAddr] *)
Record TCPAddr := {
  IP_ : IP;
  Port : Z;
  Zone : string }.

(** A [net.Addr]: a [*net.TCPAddr], or a value of another type that
    implements the interface, of which only its two strings are known. *)
Inductive Addr :=
| ATCP (a : TCPAddr)
| AOther (network str : string).

(** A [*net.TCPListener]: its descriptor and the address it is bound to. *)
Record TCPListener := {
  lfd : nat;
  laddr : TCPAddr }.

(** The network as the transport sees it: the listeners that are open, and
    the address that binding a TCP listener to a given string yields, if
    any. *)
Record Net := {
  listening : gset nat;
  bind : string → option TCPAddr }.

Definition errNotAdvertisable : error := Errorf "local bind address is not advertisable".
Definition errNotTCP : error := Errorf "local address is not a TCP address".

(** [net.Listen("tcp", bindAddr)] *)
Definition net_Listen (bindAddr : string) (n : Net) : (error + TCPListener) * Net :=
  match bind n bindAddr with
  | None => (inl (PathError "listen"), n)
  | Some a =>
      let fd := fresh (listening n) in
      (inr {| lfd := fd; laddr := a |},
       {| listening := {[fd]} ∪ listening n; bind := bind n |})
  end.

(** [list.Close()], whose error the transport drops. *)
Definition Listener_Close (l : TCPListener) (n : Net) : Net :=
  {| listening := listening n ∖ {[lfd l]}; bind := bind n |}.

Definition v4InV6Prefix : list byte :=
  [x00; x00; x00; x00; x00; x00; x00; x00; x00; x00; xff; xff]%byte.

(** [net.IPv4zero], which is [IPv4(0, 0, 0, 0)], in its 16-byte form. *)
Definition IPv4zero : list byte := v4InV6Prefix ++ [x00; x00; x00; x00]%byte.

(** [net.IPv6unspecified] *)
Definition IPv6unspecified : list byte := replicate 16 x00%byte.

(** [ip.Equal(x)] *)
Definition IP_Equal (ip x : list byte) : bool :=
  if (length ip =? length x)%nat then bytes_Equal ip x
  else if (length ip =? 4)%nat && (length x =? 16)%nat then
    bytes_Equal (take 12 x) v4InV6Prefix && bytes_Equal ip (drop 12 x)
  else if (length ip =? 16)%nat && (length x =? 4)%nat then
    bytes_Equal (take 12 ip) v4InV6Prefix && bytes_Equal (drop 12 ip) x
  else false.

(** [ip.IsUnspecified()] *)
Definition IsUnspecified (ip : IP) : bool :=
  let b := default [] ip in
  IP_Equal b IPv4zero || IP_Equal b IPv6unspecified.

(** TCPStreamLayer implements StreamLayer interface for plain TCP. *)
Record TCPStreamLayer := {
  advertise : option Addr;
  listener : TCPListener }.

(** Addr implements the net.Listener interface. *)
Definition TCPStreamLayer_Addr (t : TCPStreamLayer) : Addr :=
  (* Use an advertise addr if provided *)
  match advertise t with
  | Some a => a
  | None => ATCP (laddr (listener t))
  end.

(** Close implements the net.Listener interface. *)
Definition TCPStreamLayer_Close (t : TCPStreamLayer) (n : Net) : Net :=
  Listener_Close (listener t) n.

(** newTCPTransport. The network transport that [transportCreator] builds is
    declared outside this file. *)
Definition newTCPTransport {NetworkTransport : Type} (bindAddr : string)
    (advertise : option Addr) (transportCreator : TCPStreamLayer → NetworkTransport)
    (n : Net) : (error + NetworkTransport) * Net :=
  (* Try to bind *)
  match net_Listen bindAddr n with
  | (inl err, n1) => (inl err, n1)
  | (inr list, n1) =>
      (* Create stream *)
      let stream := {| advertise := advertise; listener := list |} in
      (* Verify that we have a usable advertise address *)
      match TCPStreamLayer_Addr stream with
      | ATCP addr =>
          if bool_decide (IP_ addr = None) || IsUnspecified (IP_ addr) then
            (inl errNotAdvertisable, Listener_Close list n1)
          else
            (* Create the network transport *)
            (inr (transportCreator stream), n1)
      | AOther _ _ => (inl errNotTCP, Listener_Close list n1)
      end
  end.

Section Constructors.

(** NetworkTransport, its configuration and its three constructors are
    declared outside this file. *)
Context {NetworkTransport NetworkTransportConfig Logger Writer : Type}.
Context (NewNetworkTransport : TCPStreamLayer → Z → Z → Writer → NetworkTransport).
Context (NewNetworkTransportWithLogger : TCPStreamLayer → Z → Z → Logger → NetworkTransport).
Context (NewNetworkTransportWithConfig : NetworkTransportConfig → NetworkTransport).
Context (setStream : TCPStreamLayer → NetworkTransportConfig → NetworkTransportConfig).

(** NewTCPTransport returns a NetworkTransport that is built on top of a TCP
    streaming transport layer. *)
Definition NewTCPTransport (bindAddr : string) (advertise : option Addr) (maxPool : Z)
    (timeout : Z) (logOutput : Writer) : Net → (error + NetworkTransport) * Net :=
  newTCPTransport bindAddr advertise
    (λ stream, NewNetworkTransport stream maxPool timeout logOutput).

(** NewTCPTransportWithLogger *)
Definition NewTCPTransportWithLogger (bindAddr : string) (advertise : option Addr)
    (maxPool : Z) (timeout : Z) (logger : Logger) : Net → (error + NetworkTransport) * Net :=
  newTCPTransport bindAddr advertise
    (λ stream, NewNetworkTransportWithLogger stream maxPool timeout logger).

(** NewTCPTransportWithConfig: [config.Stream = stream] is [setStream]. *)
Definition NewTCPTransportWithConfig (bindAddr : string) (advertise : option Addr)
    (config : NetworkTransportConfig) : Net → (error + NetworkTransport) * Net :=
  newTCPTransport bindAddr advertise
    (λ stream, NewNetworkTransportWithConfig (setStream stream config)).

End Constructors.

End TCP.

(** ** The AppendEntries pipeline *)

Module Pipeline.

(** Modelled from the spec: the source of the network transport is not part
    of the tree; what follows is the pipeline of section 4.6 of the package
    documentation. A pipeline has a connection of its own. The caller's
    [AppendEntries] writes the request to the connection and then pushes a
    future onto the in-flight channel, which blocks while the channel is
    full. The receiver takes the futures off the channel in turn, reads a
    framed response for each, completes the future with the response or with
    the error of the read, and emits it on the consumer channel. The peer
    answers the requests of a connection one after the other, each before it
    reads the next. Closing the connection, from either end, makes later
    reads fail once the responses already sent have been read. *)

Definition ErrPipelineReplicationNotSupported : error :=
  Errorf "pipeline replication not supported".

(** What a read of the closed connection reports. *)
Definition EOF : error := Errorf "EOF".

(** Modelled from the spec: "MaxRPCsInFlight (0 defaults to 2, 1 disables
    pipelining)". *)
Definition maxInFlight (MaxRPCsInFlight : Z) : Z :=
  if MaxRPCsInFlight =? 0 then 2 else MaxRPCsInFlight.

(** Modelled from the spec: "an in-flight channel of capacity
    max(MaxRPCsInFlight, 2)". *)
Definition inflightCapacity (MaxRPCsInFlight : Z) : nat :=
  Z.to_nat (Z.max MaxRPCsInFlight 2).

(** The capacity that the test of MaxRPCsInFlight in the tree observes: the
    channel "is unbuffered" when two requests may be in flight, and a send
    blocks once [maxInFlight] requests are unanswered, one of which the
    receiver holds and one of which the blocked sender holds. *)
Definition observedCapacity (MaxRPCsInFlight : Z) : nat :=
  Z.to_nat (maxInFlight MaxRPCsInFlight - 2).

(** Modelled from the spec: append_entries_pipeline gives a pipeline, which
    the model takes to be the capacity of its in-flight channel, unless
    MaxRPCsInFlight is 1. *)
Definition AppendEntriesPipeline (capacity : Z → nat) (MaxRPCsInFlight : Z) : error + nat :=
  if MaxRPCsInFlight =? 1 then inl ErrPipelineReplicationNotSupported
  else inr (capacity MaxRPCsInFlight).

Section Model.

Context {Req Resp : Type}.

(** The response of the peer to the request [r] when it is the [k]-th one,
    counting from 0, that it reads on the connection. *)
Context (respond : nat → Req → Resp).

(** What a future is completed with. *)
Inductive outcome :=
| Done (x : Resp)
| Failed (e : error).

(** The receiver waits for a future, or reads the response for the future it
    has taken, or has completed it and is about to emit it. *)
Inductive receiver :=
| Idle
| Decoding (f : Req)
| Emitting (f : Req) (o : outcome).

Record state := {
  up : list Req;        (* the requests written that the peer has not read *)
  handled : nat;        (* the number of requests the peer has answered *)
  down : list Resp;     (* the responses written that the receiver has not read *)
  closed : bool;        (* the connection is closed *)
  sender : option Req;  (* the request the caller has written and not yet queued *)
  inflight : list Req;  (* the futures in the in-flight channel, oldest first *)
  recv : receiver;
  emitted : list (Req * outcome);  (* the futures emitted so far, oldest first *)
  queued : list Req }.  (* the requests of the sends that have returned, oldest first *)

Definition init : state :=
  {| up := []; handled := 0; down := []; closed := false; sender := None;
     inflight := []; recv := Idle; emitted := []; queued := [] |}.

(** The steps of the caller and of the receiver. *)
Inductive local_step (cap : nat) : state → state → Prop :=
| send_write s r :
    sender s = None → closed s = false →
    local_step cap s
      {| up := up s ++ [r]; handled := handled s; down := down s; closed := closed s;
         sender := Some r; inflight := inflight s; recv := recv s;
         emitted := emitted s; queued := queued s |}
| send_push s r :
    sender s = Some r → (length (inflight s) < cap)%nat →
    local_step cap s
      {| up := up s; handled := handled s; down := down s; closed := closed s;
         sender := None; inflight := inflight s ++ [r]; recv := recv s;
         emitted := emitted s; queued := queued s ++ [r] |}
| send_handoff s r :
    sender s = Some r → inflight s = [] → recv s = Idle →
    local_step cap s
      {| up := up s; handled := handled s; down := down s; closed := closed s;
         sender := None; inflight := []; recv := Decoding r;
         emitted := emitted s; queued := queued s ++ [r] |}
| recv_take s r rest :
    recv s = Idle → inflight s = r :: rest →
    local_step cap s
      {| up := up s; handled := handled s; down := down s; closed := closed s;
         sender := sender s; inflight := rest; recv := Decoding r;
         emitted := emitted s; queued := queued s |}
| recv_decode s f x rest :
    recv s = Decoding f → down s = x :: rest →
    local_step cap s
      {| up := up s; handled := handled s; down := rest; closed := closed s;
         sender := sender s; inflight := inflight s; recv := Emitting f (Done x);
         emitted := emitted s; queued := queued s |}
| recv_fail s f :
    recv s = Decoding f → closed s = true → down s = [] →
    local_step cap s
      {| up := up s; handled := handled s; down := []; closed := closed s;
         sender := sender s; inflight := inflight s; recv := Emitting f (Failed EOF);
         emitted := emitted s; queued := queued s |}
| recv_emit s f o :
    recv s = Emitting f o →
    local_step cap s
      {| up := up s; handled := handled s; down := down s; closed := closed s;
         sender := sender s; inflight := inflight s; recv := Idle;
         emitted := emitted s ++ [(f, o)]; queued := queued s |}.

(** The steps of the peer and of whoever closes the connection. *)
Inductive remote_step : state → state → Prop :=
| peer_handle s r rest :
    up s = r :: rest → closed s = false →
    remote_step s
      {| up := rest; handled := S (handled s); down := down s ++ [respond (handled s) r];
         closed := closed s; sender := sender s; inflight := inflight s; recv := recv s;
         emitted := emitted s; queued := queued s |}
| conn_close s :
    remote_step s
      {| up := up s; handled := handled s; down := down s; closed := true;
         sender := sender s; inflight := inflight s; recv := recv s;
         emitted := emitted s; queued := queued s |}.

Definition step (cap : nat) (s s' : state) : Prop :=
  local_step cap s s' ∨ remote_step s s'.

(** The states a pipeline whose in-flight channel has capacity [cap] can be
    in. *)
Definition reachable (cap : nat) : state → Prop := rtc (step cap) init.

(** The states it can be in while the peer answers nothing and nobody closes
    the connection. *)
Definition unanswered (cap : nat) : state → Prop := rtc (local_step cap) init.

(** The responses of the peer to the requests [l] when they are its [k]-th
    and following ones. *)
Fixpoint responses (k : nat) (l : list Req) : list Resp :=
  match l with
  | [] => []
  | r :: l' => respond k r :: responses (S k) l'
  end.

(** The futures that the receiver holds. *)
Definition held (r : receiver) : list Req :=
  match r with
  | Idle => []
  | Decoding f => [f]
  | Emitting f _ => [f]
  end.

(** The outcome that the receiver holds. *)
Definition completed (r : receiver) : list outcome :=
  match r with
  | Emitting _ o => [o]
  | _ => []
  end.

(** The requests written to the connection, oldest first. *)
Definition written (s : state) : list Req := queued s ++ option_list (sender s).

(** What holds of every state of a pipeline. [nd] responses have been read:
    the outcomes so far are these, followed by failures; the peer has
    answered [handled s] of the requests written, and its answers not yet
    read are on their way. *)
Definition pipeline_inv (s : state) : Prop :=
  (emitted s).*1 ++ held (recv s) ++ inflight s = queued s
  ∧ up s = drop (handled s) (written s)
  ∧ (handled s ≤ length (written s))%nat
  ∧ ∃ nd k,
      (nd ≤ handled s)%nat
      ∧ (emitted s).*2 ++ completed (recv s)
        = (Done <$> responses 0 (take nd (written s))) ++ replicate k (Failed EOF)
      ∧ down s = responses nd (take (handled s - nd) (drop nd (written s)))
      ∧ (k ≠ 0%nat → closed s = true ∧ nd = handled s).

(** What holds while nothing is answered: the receiver can complete no
    future, so every request whose send has returned is in the channel or
    with the receiver. *)
Definition unanswered_inv (cap : nat) (s : state) : Prop :=
  down s = [] ∧ closed s = false ∧ emitted s = []
  ∧ (recv s = Idle ∨ ∃ f, recv s = Decoding f)
  ∧ queued s = held (recv s) ++ inflight s
  ∧ (length (inflight s) ≤ cap)%nat.

End Model.

End Pipeline.

(* ===================================================================== *)
(** * Notions the statements use                                          *)
(* ===================================================================== *)

Import Snapshot.

Module Spec.

(** What readMeta returns when no I/O call fails: it depends on the directory
    alone. *)
Definition readMeta_of (fs : gmap string Os.node) (name : string) : error + fileSnapshotMeta :=
  match fs !! name with
  | Some (Os.NDir {| Os.meta_json := Some (Os.Encoded m) |}) => inr m
  | Some (Os.NDir {| Os.meta_json := Some Os.Garbled |}) => inl DecodeError
  | _ => inl (PathError "open")
  end.

(** A call of one of the two methods that end a sink. *)
Inductive endCall := CallClose | CallCancel.

Definition endSink (SnapshotVersionMin SnapshotVersionMax : Z) (c : endCall)
    (s : FileSnapshotSink) : SinkIO (option error) :=
  match c with
  | CallClose => Close SnapshotVersionMin SnapshotVersionMax s
  | CallCancel => Cancel s
  end.

(** A sequence of such calls on one sink, with the list of what they return. *)
Fixpoint endSinkMany (SnapshotVersionMin SnapshotVersionMax : Z) (cs : list endCall)
    (s : FileSnapshotSink) (w : Os.World)
  : list (option error) * FileSnapshotSink * Os.World :=
  match cs with
  | [] => ([], s, w)
  | c :: cs' =>
      let '(r, s1, w1) := endSink SnapshotVersionMin SnapshotVersionMax c s w in
      let '(rs, s2, w2) := endSinkMany SnapshotVersionMin SnapshotVersionMax cs' s1 w1 in
      (r :: rs, s2, w2)
  end.

(** [a] may stand before [b] in a list sorted by Term descending, then Index
    descending, then ID descending. *)
Definition newest_first (a b : SnapshotMeta) : Prop :=
  (Term b < Term a)%N
  ∨ (Term a = Term b
     ∧ ((Index b < Index a)%N
        ∨ (Index a = Index b ∧ String.ltb (ID a) (ID b) = false))).

(** The snapshot a directory entry stands for, if it is a finalized one: a
    directory whose name does not end in [.tmp], whose meta.json decodes, and
    whose version lies within the supported bounds. *)
Definition finalized_entry (SnapshotVersionMin SnapshotVersionMax : Z)
    (e : string * Os.node) : option fileSnapshotMeta :=
  match e.2 with
  | Os.NDir {| Os.meta_json := Some (Os.Encoded m) |} =>
      if HasSuffix e.1 tmpSuffix then None
      else if (Version (SnapshotMeta_ m) <? SnapshotVersionMin)
              || (SnapshotVersionMax <? Version (SnapshotMeta_ m)) then None
      else Some m
  | _ => None
  end.

(** The finalized snapshots of a directory. *)
Definition finalized (SnapshotVersionMin SnapshotVersionMax : Z)
    (fs : gmap string Os.node) : list fileSnapshotMeta :=
  omap (finalized_entry SnapshotVersionMin SnapshotVersionMax) (map_to_list fs).

(** An entry less the bytes of its state file: what is left tells whether it
    is a finalized snapshot, and which. *)
Definition strip (n : Os.node) : Os.node :=
  match n with
  | Os.NFile => Os.NFile
  | Os.NDir d => Os.NDir {| Os.meta_json := Os.meta_json d; Os.state_bin := None |}
  end.

(** Every finalized snapshot lies in the directory that its ID names, as all
    that the store has put in place do. *)
Definition names_consistent (SnapshotVersionMin SnapshotVersionMax : Z)
    (fs : gmap string Os.node) : Prop :=
  map_Forall (λ name node,
      match finalized_entry SnapshotVersionMin SnapshotVersionMax (name, node) with
      | Some m => ID (SnapshotMeta_ m) = name
      | None => True
      end) fs.

#[global] Instance names_consistent_dec vmin vmax fs :
  Decision (names_consistent vmin vmax fs).
Proof.
  apply map_Forall_dec. intros name node.
  destruct (finalized_entry vmin vmax (name, node)); apply _.
Defined.

(** What ReapSnapshots leaves of a directory when [retain] is not negative
    and no I/O call fails: the entries named by the IDs of the snapshots
    beyond the first [retain], newest first, are gone. *)
Definition reaped (SnapshotVersionMin SnapshotVersionMax : Z) (retain : Z)
    (fs : gmap string Os.node) : gmap string Os.node :=
  foldl (λ m snap, delete (ID (SnapshotMeta_ snap)) m) fs
    (drop (Z.to_nat retain)
       (sort_Sort (sort_Reverse Less)
          (finalized SnapshotVersionMin SnapshotVersionMax fs))).

(** The Writes of a list of slices in turn. *)
Fixpoint WriteAll (s : FileSnapshotSink) (chunks : list (list byte)) (w : Os.World)
  : FileSnapshotSink * Os.World :=
  match chunks with
  | [] => (s, w)
  | b :: rest => let '(_, s1, w1) := Write s b w in WriteAll s1 rest w1
  end.


(** The metadata that finalize leaves in the sink. *)
Definition finalMeta (m : fileSnapshotMeta) (data : list byte) : fileSnapshotMeta :=
  {| SnapshotMeta_ :=
       {| Version := Version (SnapshotMeta_ m); ID := ID (SnapshotMeta_ m);
          Index := Index (SnapshotMeta_ m); Term := Term (SnapshotMeta_ m);
          Peers := Peers (SnapshotMeta_ m);
          Configuration_ := Configuration_ (SnapshotMeta_ m);
          ConfigurationIndex := ConfigurationIndex (SnapshotMeta_ m);
          Size := Z.of_nat (length data) |};
     CRC := Crc64.checksum data |}.


(** [a] may stand before [b] in a list sorted by [less]: [b] is not less
    than [a]. *)
Definition in_order {A : Type} (less : A → A → bool) (a b : A) : Prop := less b a = false.

(** An entry of the directory as ReadDir gives it: its name and whether it
    is a directory. *)
Definition dir_entry (e : string * Os.node) : string * bool :=
  (e.1, match e.2 with Os.NDir _ => true | Os.NFile => false end).

(** What no call on a sink changes, but for [closed]. *)
Definition sink_same (s s' : FileSnapshotSink) : Prop :=
  dir s' = dir s ∧ store s' = store s ∧ sinkNoSync s' = sinkNoSync s
  ∧ stateFile s' = stateFile s ∧ closed s' = closed s ∧ ID_ s' = ID_ s.

(** What a call on a sink may change of the world: the state files of the
    snapshots, and nothing else of the directory; it makes no I/O call fail
    that would not have. *)
Definition world_step (w w' : Os.World) : Prop :=
  strip <$> Os.fs w' = strip <$> Os.fs w ∧ (Os.faults w = [] → Os.faults w' = []).

(** The state file of a sink holds [written], the handle of the sink stands
    at its end, and the digest has been fed [written]. *)
Definition file_inv (s : FileSnapshotSink) (w : Os.World) (written : list byte) : Prop :=
  ∃ sd,
    Os.fs w !! dir s = Some (Os.NDir sd)
    ∧ Os.state_bin sd = Some written
    ∧ Os.fds w !! stateFile s
      = Some {| Os.h_target := Os.InDir (dir s) Os.StateFile; Os.h_off := length written |}
    ∧ stateHash s = Crc64.Write Crc64.New written.

(** Unless the buffered writer has met an error, the bytes in the file
    followed by those in the buffer are [data], the bytes written to the sink. *)
Definition sink_inv (s : FileSnapshotSink) (w : Os.World) (data : list byte) : Prop :=
  err (buffered s) = None →
  ∃ written, file_inv s w written ∧ written ++ buf (buffered s) = data.

(** A value of a uint64. *)
Definition word64 (z : Z) : Prop := 0 ≤ z < 2 ^ 64.

(** [content] is [good] with one byte changed. *)
Definition flipped (good content : list byte) : Prop :=
  ∃ pre b b' post, b ≠ b' ∧ good = pre ++ b :: post ∧ content = pre ++ b' :: post.

(** The state file [content] of a snapshot does not match the CRC that its
    metadata [m] records; so it is when the CRC is that of a [good] content of
    which [content] differs in one byte. *)
Definition corrupted (m : fileSnapshotMeta) (content : list byte) : Prop :=
  CRC m ≠ Crc64.checksum content
  ∨ ∃ good, CRC m = Crc64.checksum good ∧ flipped good content.

(** An address is unspecified when it has no IP or its IP is the unspecified
    one, 0.0.0.0 or ::. *)
Definition unspecified (a : TCP.TCPAddr) : Prop :=
  TCP.IP_ a = None ∨ TCP.IsUnspecified (TCP.IP_ a) = true.

(** The local address can be advertised: it is a TCP address that is not
    unspecified. *)
Definition advertisable (a : TCP.Addr) : Prop :=
  ∃ t, a = TCP.ATCP t ∧ ¬ unspecified t.


End Spec.

Import Spec.

(* ===================================================================== *)
(** * Concrete stores and directories                                     *)
(* ===================================================================== *)

Module Examples.

(** An empty directory on a machine whose I/O calls all go well. *)
Definition emptyWorld : Os.World :=
  {| Os.fs := ∅; Os.fds := ∅; Os.faults := [];
     Os.clock := 1700000000123456789; Os.GOOS := "linux" |}.

Definition store1 : FileSnapshotStore :=
  {| path := "base/snapshots"; retain := 1; noSync := false |}.

Definition store2 : FileSnapshotStore :=
  {| path := "base/snapshots"; retain := 2; noSync := false |}.

(** A transport that encodes no peers. *)
Definition noPeers (c : Configuration) (t : unit) : list byte := [].

Definition bytes (s : string) : list byte := String.list_byte_of_string s.

(** A sink that stands for none. *)
Definition noSink (f : FileSnapshotStore) : FileSnapshotSink :=
  {| store := f; dir := ""; parentDir := "";
     meta := {| SnapshotMeta_ :=
                  {| Version := 0; ID := ""; Index := 0; Term := 0; Peers := [];
                     Configuration_ := []; ConfigurationIndex := 0; Size := 0 |};
                CRC := [] |};
     sinkNoSync := false; stateFile := 0; stateHash := 0;
     buffered := {| buf := []; err := None |}; closed := true |}.

(** The sink and the world after Create at the given term and index. *)
Definition created (f : FileSnapshotStore) (term index : N) (w : Os.World)
  : FileSnapshotSink * Os.World :=
  match Create noPeers f 1 index term [] 0%N tt w with
  | (inl e, w1) => (noSink f, w1)
  | (inr s0, w1) => (s0, w1)
  end.

(** The sink and the world after Create and a Write of each of [chunks]. *)
Definition pending (f : FileSnapshotStore) (term index : N) (chunks : list (list byte))
    (w : Os.World) : FileSnapshotSink * Os.World :=
  WriteAll (created f term index w).1 chunks (created f term index w).2.

(** Create, Writes and Close; the bounds of the supported versions are 0 and 1. *)
Definition snapshot (f : FileSnapshotStore) (term index : N) (chunks : list (list byte))
    (w : Os.World) : option error * FileSnapshotSink * Os.World :=
  Close 0 1 (pending f term index chunks w).1 (pending f term index chunks w).2.

(** The directory after a snapshot of "old" at term 5 and index 20. *)
Definition afterOld (f : FileSnapshotStore) : Os.World :=
  (snapshot f 5 20 [bytes "old"] emptyWorld).2.

(** The directory after a further snapshot of "abcd" at term 7 and index 30. *)
Definition afterNew (f : FileSnapshotStore) : Os.World :=
  (snapshot f 7 30 [bytes "ab"; bytes "cd"] (afterOld f)).2.

(** The directory after the snapshot of term 5 and index 20, its directory
    renamed by hand to its ID followed by [.bak]. *)
Definition movedAside : Os.World :=
  (Os.Rename "5-20-1700000000123" "5-20-1700000000123.bak" (afterOld store1)).2.

(** The directory after the snapshot of term 5 and index 20, on a machine
    whose 21st I/O call fails: Create makes seven, Close makes thirteen up to
    the ReadDir of the reap, and the next one is the open of the meta.json of
    the first entry that the reap reads. *)
Definition readFailsInReap : Os.World :=
  Os.set_faults (replicate 20 false ++ [true]) (afterOld store1).

(** [w] with the bytes of the state file of [id] replaced. *)
Definition overwrite (id : string) (b : list byte) (w : Os.World) : Os.World :=
  match Os.fs w !! id with
  | Some (Os.NDir d) => Os.set_fs (<[id := Os.NDir (Os.set_state b d)]> (Os.fs w)) w
  | _ => w
  end.

(** A machine on which the first seven I/O calls go well and the next ones
    fail as [later] says. Create makes seven I/O calls. *)
Definition failingAfterCreate (later : list bool) : Os.World :=
  Os.set_faults (replicate 7 false ++ later) emptyWorld.

(** A sink that holds "abcd" in its buffer, on a machine whose next write
    fails, and on which the I/O calls after it fail as [later] says. *)
Definition doomed (later : list bool) : FileSnapshotSink * Os.World :=
  pending store1 3 10 [bytes "abcd"] (failingAfterCreate (true :: later)).

(** What finalize makes of it. *)
Definition doomedFinalized (later : list bool) : option error * FileSnapshotSink * Os.World :=
  finalize (set_closed true (doomed later).1) (doomed later).2.

(** A peer that answers its [k]-th request [r] with [r + k]. *)
Definition echo (k r : nat) : nat := (r + k)%nat.

(** A pipeline on which 7 has been sent, answered and emitted, and 9 has
    been sent. *)
Definition oneAnswered : @Pipeline.state nat nat :=
  {| Pipeline.up := [9%nat]; Pipeline.handled := 1; Pipeline.down := [];
     Pipeline.closed := false; Pipeline.sender := None; Pipeline.inflight := [9%nat];
     Pipeline.recv := Pipeline.Idle;
     Pipeline.emitted := [(7%nat, Pipeline.Done (echo 0 7))];
     Pipeline.queued := [7%nat; 9%nat] |}.

(** A pipeline on which the sends of 1 and of 2 have returned and nothing
    has been answered. *)
Definition twoReturned : @Pipeline.state nat nat :=
  {| Pipeline.up := [1%nat; 2%nat]; Pipeline.handled := 0; Pipeline.down := [];
     Pipeline.closed := false; Pipeline.sender := None;
     Pipeline.inflight := [1%nat; 2%nat]; Pipeline.recv := Pipeline.Idle;
     Pipeline.emitted := []; Pipeline.queued := [1%nat; 2%nat] |}.

End Examples.

(* ===================================================================== *)
(** * Notions of the further statements                                   *)
(* ===================================================================== *)

From Stdlib Require DecimalZ DecimalPos.

Module Props.

(** The directory [fs'] is [fs] but for its entry [d]. *)
Definition only_at (d : string) (fs fs' : gmap string Os.node) : Prop :=
  ∀ k, k ≠ d → fs' !! k = fs !! k.

(** The handle of the state file of a sink is open on that file. *)
Definition handle_inv (s : FileSnapshotSink) (w : Os.World) : Prop :=
  ∃ off, Os.fds w !! stateFile s
         = Some {| Os.h_target := Os.InDir (dir s) Os.StateFile; Os.h_off := off |}.

(** What a call on an open sink may do to the world: change the entry of
    the sink's directory, and move the offset of its handle. *)
Definition sink_step (s : FileSnapshotSink) (w w' : Os.World) : Prop :=
  only_at (dir s) (Os.fs w) (Os.fs w')
  ∧ ∃ off, Os.fds w'
           = <[stateFile s := {| Os.h_target := Os.InDir (dir s) Os.StateFile;
                                 Os.h_off := off |}]> (Os.fds w).

(** A decimal digit. *)
Definition is_digit (c : Ascii.ascii) : bool :=
  (48 <=? Ascii.nat_of_ascii c)%nat && (Ascii.nat_of_ascii c <=? 57)%nat.

(** A string of decimal digits. *)
Fixpoint all_digits (s : string) : bool :=
  match s with
  | EmptyString => true
  | String c s' => is_digit c && all_digits s'
  end.

(** The last character of a string. *)
Fixpoint last_char (s : string) : option Ascii.ascii :=
  match s with
  | EmptyString => None
  | String c EmptyString => Some c
  | String _ s' => last_char s'
  end.

(** What a constructor of the TCP transport does to the listeners, and what
    it returns: on an error the listeners are those open before, and the
    error is that of the bind, or [errNotTCP] for an advertise address that
    is no TCP address, or [errNotAdvertisable] for a local address that is
    unspecified; a transport is [made] of the stream layer of a new listener
    bound to [bindAddr], whose local address can be advertised, and closing
    the stream layer leaves the listeners that were open before. *)
Definition binds_and_checks {T : Type} (bindAddr : string) (adv : option TCP.Addr)
    (made : TCP.TCPStreamLayer → T) (n : TCP.Net) (res : (error + T) * TCP.Net) : Prop :=
  let '(r, n') := res in
  TCP.bind n' = TCP.bind n
  ∧ match r with
    | inl e =>
        TCP.listening n' = TCP.listening n
        ∧ ((TCP.bind n bindAddr = None ∧ e = PathError "listen")
           ∨ (is_Some (TCP.bind n bindAddr)
              ∧ ((e = TCP.errNotTCP ∧ ∃ network str, adv = Some (TCP.AOther network str))
                 ∨ (e = TCP.errNotAdvertisable
                    ∧ ∃ a, default (TCP.ATCP a) adv = TCP.ATCP a
                           ∧ (adv = None → TCP.bind n bindAddr = Some a)
                           ∧ unspecified a))))
    | inr trans =>
        ∃ a, TCP.bind n bindAddr = Some a
             ∧ let list := {| TCP.lfd := fresh (TCP.listening n); TCP.laddr := a |} in
               let stream := {| TCP.advertise := adv; TCP.listener := list |} in
               trans = made stream
               ∧ TCP.listening n' = {[TCP.lfd list]} ∪ TCP.listening n
               ∧ advertisable (TCP.TCPStreamLayer_Addr stream)
               ∧ TCP.listening (TCP.TCPStreamLayer_Close stream n') = TCP.listening n
    end.

End Props.

Import Props.

(** ** Further stores, sinks and directories *)

Module Cases.

Import Examples.

(** A sink just created at term 3 and index 10 in an empty directory, and
    the world it is in. *)
Definition newSink : FileSnapshotSink * Os.World := created store1 3 10 emptyWorld.

(** The same with "abcd" written to it. *)
Definition sinkABCD : FileSnapshotSink * Os.World :=
  pending store1 3 10 [bytes "abcd"] emptyWorld.

(** A sink created beside the two snapshots of [afterNew store2], with
    "xy" written to it. *)
Definition sinkBeside : FileSnapshotSink * Os.World :=
  pending store2 9 40 [bytes "xy"] (afterNew store2).

(** More bytes than the buffer of the sink holds. *)
Definition tooLong : list byte := replicate 4097 "x"%byte.

(** A sink just created on a machine whose next I/O call fails, and what a
    Write of [tooLong] makes of it. *)
Definition sinkFailing : FileSnapshotSink * Os.World :=
  created store1 3 10 (failingAfterCreate [true]).

Definition failedWrite : nat * option error * FileSnapshotSink * Os.World :=
  Write sinkFailing.1 tooLong sinkFailing.2.

(** A sink that holds "abcd" on a machine on which the ten I/O calls of
    Close up to the Rename go well and the next one, the opening of the
    parent directory, fails; and the worlds that the steps of Close lead
    to. *)
Definition sinkLate : FileSnapshotSink * Os.World :=
  pending store1 3 10 [bytes "abcd"] (failingAfterCreate (replicate 10 false ++ [true])).

Definition lateFinalized : option error * FileSnapshotSink * Os.World :=
  finalize (set_closed true sinkLate.1) sinkLate.2.

Definition lateMeta : (error + unit) * Os.World :=
  writeMeta lateFinalized.1.2 lateFinalized.2.

Definition lateRenamed : (error + unit) * Os.World :=
  Os.Rename (dir sinkLate.1) (ID_ sinkLate.1) lateMeta.2.

Definition lateTail : (error + unit) * Os.World :=
  Close_sync_reap 0 1 lateFinalized.1.2 lateRenamed.2.

(** The reader of the snapshot "abcd" of [afterNew store2], its metadata and
    the world after Open. *)
Definition openedNew : (error + SnapshotMeta * bufferedFile) * Os.World :=
  Open store2 "7-30-1700000000123" (afterNew store2).

Definition readerNew : bufferedFile :=
  match openedNew.1 with
  | inr (_, b) => b
  | inl _ => {| fh := 0 |}
  end.

Definition metaNew : SnapshotMeta :=
  match openedNew.1 with
  | inr (m, _) => m
  | inl _ => SnapshotMeta_ (meta (noSink store2))
  end.

(** In the store that retains one and holds the snapshot of term 5: a sink
    that holds "abcd" for a snapshot of term 3 and index 10, which that
    snapshot is newer than, and its Close; a sink that holds "abcd" for a
    snapshot of term 7 and index 30, and its Close. *)
Definition sinkOutranked : FileSnapshotSink * Os.World :=
  pending store1 3 10 [bytes "abcd"] (afterOld store1).

Definition closedOutranked : option error * FileSnapshotSink * Os.World :=
  Close 0 1 sinkOutranked.1 sinkOutranked.2.

Definition sinkNewest : FileSnapshotSink * Os.World :=
  pending store1 7 30 [bytes "abcd"] (afterOld store1).

Definition closedNewest : option error * FileSnapshotSink * Os.World :=
  Close 0 1 sinkNewest.1 sinkNewest.2.

End Cases.

(* ===================================================================== *)
(** * Part II: theorems                                                   *)
(* ===================================================================== *)

(** Unfolding of the monad of [Os.IO]. *)
Ltac io_unfold :=
  unfold mbind, Os.IO_bind, mret, Os.IO_ret, Os.bind, Os.ret, Os.throw, Os.catch,
    Os.syscall in *.

(** ** The constructor of the store *)

Lemma NewFileSnapshotStoreWithLogger_retain base r w f w' :
  NewFileSnapshotStoreWithLogger base r w = (inr f, w') → retain f = r ∧ 1 ≤ r.
Proof.
  unfold NewFileSnapshotStoreWithLogger.
  destruct (r <? 1) eqn:Hr; io_unfold; [discriminate|].
  apply Z.ltb_ge in Hr.
  destruct (Os.MkdirAll_path w) as [[e|[]] w1]; [discriminate|].
  destruct (testPermissions w1) as [[e|[]] w2]; [discriminate|].
  intros [= <- <-]. split; [reflexivity | lia].
Qed.

(** C10: for every [retain] below 1 the constructors of the store (with a
    logger or with a log output) fail with the error "must retain at least
    one snapshot", return no store and touch nothing; so a store that a
    constructor returned retains at least one snapshot. *)
Theorem retain_below_one_rejected (base : string) (r : Z) (w : Os.World) :
  r < 1 →
  NewFileSnapshotStoreWithLogger base r w
    = (inl (Errorf "must retain at least one snapshot"), w)
  ∧ NewFileSnapshotStore base r w
    = (inl (Errorf "must retain at least one snapshot"), w)
  ∧ (∀ base' r' w0 f w1,
       NewFileSnapshotStoreWithLogger base' r' w0 = (inr f, w1) → 1 ≤ retain f).
Proof.
  intros Hr.
  assert (Hlt : (r <? 1) = true) by (apply Z.ltb_lt; exact Hr).
  unfold NewFileSnapshotStore, NewFileSnapshotStoreWithLogger. rewrite Hlt.
  repeat split.
  intros base' r' w0 f w1 Hnew.
  apply NewFileSnapshotStoreWithLogger_retain in Hnew as [-> ?]. assumption.
Qed.

(** ** Close and Cancel after the first call *)

Section Idempotence.

Context (SnapshotVersionMin SnapshotVersionMax : Z).

Local Abbreviation endSink := (Spec.endSink SnapshotVersionMin SnapshotVersionMax).
Local Abbreviation endSinkMany := (Spec.endSinkMany SnapshotVersionMin SnapshotVersionMax).

Lemma multi_Write_closed s p w r s' w' :
  multi_Write s p w = (r, s', w') → closed s' = closed s.
Proof.
  unfold multi_Write. destruct (Os.Write _ _ _) as [[e|[]] w1]; intros [= <- <- <-]; reflexivity.
Qed.

Lemma bufio_Flush_closed s w r s' w' :
  bufio_Flush s w = (r, s', w') → closed s' = closed s.
Proof.
  unfold bufio_Flush. destruct (err (buffered s)); [intros [= <- <- <-]; reflexivity|].
  destruct (buf (buffered s)) as [|b l]; [intros [= <- <- <-]; reflexivity|].
  destruct (multi_Write s (b :: l) w) as [[[e|] s1] w1] eqn:Hm;
    apply multi_Write_closed in Hm; intros [= <- <- <-]; exact Hm.
Qed.

Lemma finalize_closed s w r s' w' :
  finalize s w = (r, s', w') → closed s' = closed s.
Proof.
  unfold finalize.
  destruct (bufio_Flush s w) as [[[e|] s1] w1] eqn:Hf; apply bufio_Flush_closed in Hf;
    [intros [= <- <- <-]; exact Hf|].
  destruct (if negb (sinkNoSync s1) then _ else _) as [[e|[]] w2];
    [intros [= <- <- <-]; exact Hf|].
  destruct (Os.Stat (stateFile s1) w2) as [stat w3].
  destruct (Os.Close (stateFile s1) w3) as [[e|[]] w4]; [intros [= <- <- <-]; exact Hf|].
  destruct stat as [e|size]; intros [= <- <- <-]; exact Hf.
Qed.

Lemma endSink_closed c s w r s' w' :
  endSink c s w = (r, s', w') → closed s' = true.
Proof.
  destruct c; simpl; [unfold Close | unfold Cancel];
    (destruct (closed s) eqn:Hc; [intros [= <- <- <-]; exact Hc|]);
    destruct (finalize (set_closed true s) w) as [[[e|] s1] w1] eqn:Hf;
    apply finalize_closed in Hf; simpl in Hf.
  - destruct (Os.RemoveAll (dir s1) w1) as [[e'|[]] w2]; intros [= <- <- <-]; exact Hf.
  - match goal with
    | |- match ?x with _ => _ end = _ → _ => destruct x as [[e'|[]] w2]
    end; intros [= <- <- <-]; exact Hf.
  - intros [= <- <- <-]; exact Hf.
  - destruct (Os.RemoveAll (dir s1) w1) as [[e'|[]] w2]; intros [= <- <- <-]; exact Hf.
Qed.

Lemma endSink_noop c s w :
  closed s = true → endSink c s w = (None, s, w).
Proof.
  intros Hc. destruct c; simpl; [unfold Close | unfold Cancel]; rewrite Hc; reflexivity.
Qed.

Lemma endSinkMany_closed cs s w :
  closed s = true → endSinkMany cs s w = (map (λ _, None) cs, s, w).
Proof.
  intros Hc. induction cs as [|c cs IH]; [reflexivity|].
  cbn [Spec.endSinkMany map]. rewrite (endSink_noop c s w Hc), IH. reflexivity.
Qed.

(** C9: once Close or Cancel has been called on a sink, whatever that call
    returned, every later call of Close or Cancel on it returns nil and leaves
    the sink and the world (the disk among it) as they are, whatever has been done to the world in between. *)
Theorem close_cancel_idempotent (c : endCall) (s : FileSnapshotSink) (w : Os.World) :
  let '(_, s1, _) := endSink c s w in
  ∀ (cs : list endCall) (w1 : Os.World),
    endSinkMany cs s1 w1 = (map (λ _, None) cs, s1, w1).
Proof.
  destruct (endSink c s w) as [[r s1] w0] eqn:Hfirst.
  intros cs w1. apply endSinkMany_closed.
  exact (endSink_closed _ _ _ _ _ _ Hfirst).
Qed.

End Idempotence.

(** ** CRC64: a changed byte changes the checksum *)

Section Crc64Facts.

Import Crc64.

Local Abbreviation tab := (makeTable ECMA).

Lemma lxor_cancel_l a b c : Z.lxor a b = Z.lxor a c → b = c.
Proof.
  intros H. apply (f_equal (Z.lxor a)) in H.
  rewrite <- !Z.lxor_assoc, Z.lxor_nilpotent, !Z.lxor_0_l in H. exact H.
Qed.

Lemma lxor_cancel_r a b c : Z.lxor b a = Z.lxor c a → b = c.
Proof. rewrite !(Z.lxor_comm _ a). apply lxor_cancel_l. Qed.

Lemma lxor_bound n a b : 0 < n → 0 ≤ a < 2 ^ n → 0 ≤ b < 2 ^ n → 0 ≤ Z.lxor a b < 2 ^ n.
Proof.
  intros Hn Ha Hb.
  assert (H0 : 0 ≤ Z.lxor a b) by (apply Z.lxor_nonneg; lia).
  split; [exact H0|].
  destruct (Z.eq_dec (Z.lxor a b) 0) as [->|Hne]; [apply Z.pow_pos_nonneg; lia|].
  apply Z.log2_lt_pow2; [lia|].
  pose proof (Z.log2_lxor a b ltac:(lia) ltac:(lia)) as Hl.
  assert (Ha' : Z.log2 a < n).
  { destruct (Z.eq_dec a 0) as [->|]; [simpl; lia|]. apply Z.log2_lt_pow2; lia. }
  assert (Hb' : Z.log2 b < n).
  { destruct (Z.eq_dec b 0) as [->|]; [simpl; lia|]. apply Z.log2_lt_pow2; lia. }
  lia.
Qed.

Lemma land_255 z : Z.land z 255 = z mod 256.
Proof. change 255 with (Z.ones 8). rewrite Z.land_ones by lia. reflexivity. Qed.

Lemma byteZ_bound b : 0 ≤ byteZ b < 256.
Proof. unfold byteZ. pose proof (Byte.to_N_bounded b). lia. Qed.

Lemma byteZ_inj b b' : byteZ b = byteZ b' → b = b'.
Proof.
  unfold byteZ. intros H. apply N2Z.inj in H.
  apply (f_equal Byte.of_N) in H. rewrite !Byte.of_to_N in H. congruence.
Qed.

Lemma byteZ_byteOfZ z : byteZ (byteOfZ z) = z mod 256.
Proof.
  unfold byteOfZ, byteZ. rewrite land_255.
  pose proof (Z.mod_pos_bound z 256 ltac:(lia)) as Hb.
  destruct (Byte.of_N (Z.to_N (z mod 256))) as [b|] eqn:Hof.
  - apply Byte.to_of_N in Hof. lia.
  - apply Byte.of_N_None_iff in Hof. lia.
Qed.

(** Checking a property of all the 256 indexes of the table. *)
Lemma below_256 (P : Z → bool) :
  forallb P (map Z.of_nat (seq 0 256)) = true → ∀ i, 0 ≤ i < 256 → P i = true.
Proof.
  intros H i Hi. rewrite forallb_forall in H. apply H.
  apply in_map_iff. exists (Z.to_nat i). split; [lia|].
  apply in_seq. lia.
Qed.

Lemma tab_bound i : 0 ≤ i < 256 → word64 (tab i).
Proof.
  intros Hi.
  pose proof (below_256 (λ i, (0 <=? tab i) && (tab i <? 2 ^ 64)) ltac:(vm_compute; reflexivity) i Hi)
    as H.
  cbn beta in H. apply andb_true_iff in H as [H1 H2].
  apply Z.leb_le in H1. apply Z.ltb_lt in H2. split; assumption.
Qed.

(** The entries of the table differ in their most significant byte. *)
Lemma tab_top_inj i j :
  0 ≤ i < 256 → 0 ≤ j < 256 → Z.shiftr (tab i) 56 = Z.shiftr (tab j) 56 → i = j.
Proof.
  intros Hi Hj Heq.
  pose proof (below_256
    (λ i, forallb (λ j, implb (Z.shiftr (tab i) 56 =? Z.shiftr (tab j) 56) (i =? j))
            (map Z.of_nat (seq 0 256)))
    ltac:(vm_compute; reflexivity) i Hi) as H.
  cbn beta in H.
  pose proof (below_256 _ H j Hj) as H'. cbn beta in H'.
  apply Z.eqb_eq in Heq. rewrite Heq in H'. apply Z.eqb_eq. exact H'.
Qed.

Lemma index_bound crc v : 0 ≤ Z.lxor (Z.land crc 255) (byteZ v) < 256.
Proof.
  apply (lxor_bound 8); [lia | | apply byteZ_bound].
  rewrite land_255. apply Z.mod_pos_bound. lia.
Qed.

Lemma updateByte_bound crc v : word64 crc → word64 (updateByte tab crc v).
Proof.
  intros Hc. unfold updateByte. apply (lxor_bound 64); [lia | |].
  - apply tab_bound, index_bound.
  - rewrite Z.shiftr_div_pow2 by lia. destruct Hc as [H0 H1].
    split; [apply Z.div_pos; lia|].
    apply Z.div_lt_upper_bound; lia.
Qed.

(** One step of the loop tells bytes apart. *)
Lemma updateByte_inj_byte crc v v' :
  updateByte tab crc v = updateByte tab crc v' → v = v'.
Proof.
  unfold updateByte. intros H. apply lxor_cancel_r in H.
  apply (f_equal (λ z, Z.shiftr z 56)) in H.
  apply tab_top_inj in H; try apply index_bound.
  apply lxor_cancel_l in H. apply byteZ_inj. exact H.
Qed.

(** One step of the loop tells states apart. *)
Lemma updateByte_inj_crc crc crc' v :
  word64 crc → word64 crc' → updateByte tab crc v = updateByte tab crc' v → crc = crc'.
Proof.
  unfold updateByte. intros Hc Hc' H.
  assert (Htop : ∀ c, word64 c → Z.shiftr (Z.shiftr c 8) 56 = 0).
  { intros c [? ?]. rewrite Z.shiftr_shiftr by lia. rewrite Z.shiftr_div_pow2 by lia.
    apply Z.div_small. simpl. lia. }
  pose proof (f_equal (λ z, Z.shiftr z 56) H) as Hs. cbn beta in Hs.
  rewrite !Z.shiftr_lxor, !Htop, !Z.lxor_0_r in Hs by assumption.
  apply tab_top_inj in Hs; try apply index_bound.
  rewrite Hs in H. apply lxor_cancel_l in H. apply lxor_cancel_r in Hs.
  rewrite !land_255 in Hs. rewrite !Z.shiftr_div_pow2 in H by lia.
  change (2 ^ 8) with 256 in H.
  rewrite (Z.div_mod crc 256), (Z.div_mod crc' 256) by lia. congruence.
Qed.

Lemma fold_updateByte_bound p crc :
  word64 crc → word64 (fold_left (updateByte tab) p crc).
Proof.
  revert crc. induction p as [|v p IH]; intros crc Hc; [exact Hc|].
  simpl. apply IH, updateByte_bound, Hc.
Qed.

Lemma fold_updateByte_inj p crc crc' :
  word64 crc → word64 crc' →
  fold_left (updateByte tab) p crc = fold_left (updateByte tab) p crc' → crc = crc'.
Proof.
  revert crc crc'. induction p as [|v p IH]; intros crc crc' Hc Hc' H; [exact H|].
  simpl in H. apply IH in H; try (apply updateByte_bound; assumption).
  apply (updateByte_inj_crc _ _ v); assumption.
Qed.

Lemma not64_bound z : word64 z → word64 (not64 z).
Proof. intros H. unfold not64. apply (lxor_bound 64); [lia | exact H | unfold mask64; lia]. Qed.

Lemma Write_bound d p : word64 d → word64 (Write d p).
Proof.
  intros H. unfold Write, update. apply not64_bound, fold_updateByte_bound, not64_bound, H.
Qed.

(** The eight bytes of [Sum] tell the states of the digest apart. *)
Lemma Sum_inj d d' : word64 d → word64 d' → Sum d = Sum d' → d = d'.
Proof.
  intros [H0 H1] [H0' H1'] H. unfold Sum in H. cbn [map] in H.
  injection H as E7 E6 E5 E4 E3 E2 E1 E0.
  apply (f_equal byteZ) in E0, E1, E2, E3, E4, E5, E6, E7.
  rewrite !byteZ_byteOfZ in *.
  rewrite !Z.shiftr_div_pow2 in * by lia.
  change (2 ^ (8 * 0)) with 1 in *. change (2 ^ (8 * 1)) with (2 ^ 8) in *.
  change (2 ^ (8 * 2)) with (2 ^ 16) in *. change (2 ^ (8 * 3)) with (2 ^ 24) in *.
  change (2 ^ (8 * 4)) with (2 ^ 32) in *. change (2 ^ (8 * 5)) with (2 ^ 40) in *.
  change (2 ^ (8 * 6)) with (2 ^ 48) in *. change (2 ^ (8 * 7)) with (2 ^ 56) in *.
  rewrite !Z.div_1_r in E0.
  assert (Hstep : ∀ a b k, 0 ≤ k → a / 2 ^ (k + 8) = b / 2 ^ (k + 8) →
            (a / 2 ^ k) mod 256 = (b / 2 ^ k) mod 256 → a / 2 ^ k = b / 2 ^ k).
  { intros a b k Hk Hd Hm.
    assert (Hdd : ∀ c, c / 2 ^ k / 256 = c / 2 ^ (k + 8)).
    { intros c. rewrite Z.pow_add_r by lia.
      rewrite Z.div_div by (try apply Z.pow_pos_nonneg; lia). reflexivity. }
    pose proof (Z.div_mod (a / 2 ^ k) 256 ltac:(lia)) as Ea.
    pose proof (Z.div_mod (b / 2 ^ k) 256 ltac:(lia)) as Eb.
    rewrite Hdd in Ea, Eb. rewrite Ea, Eb, Hd, Hm. reflexivity. }
  assert (E64 : d / 2 ^ (56 + 8) = d' / 2 ^ (56 + 8)).
  { rewrite !Z.div_small by (simpl; lia). reflexivity. }
  pose proof (Hstep d d' 56 ltac:(lia) E64 E7) as D7.
  pose proof (Hstep d d' 48 ltac:(lia) D7 E6) as D6.
  pose proof (Hstep d d' 40 ltac:(lia) D6 E5) as D5.
  pose proof (Hstep d d' 32 ltac:(lia) D5 E4) as D4.
  pose proof (Hstep d d' 24 ltac:(lia) D4 E3) as D3.
  pose proof (Hstep d d' 16 ltac:(lia) D3 E2) as D2.
  pose proof (Hstep d d' 8 ltac:(lia) D2 E1) as D1.
  change (2 ^ 8) with 256 in D1.
  pose proof (Z.div_mod d 256 ltac:(lia)). pose proof (Z.div_mod d' 256 ltac:(lia)).
  congruence.
Qed.

Lemma not64_inj a b : not64 a = not64 b → a = b.
Proof. unfold not64. apply lxor_cancel_r. Qed.

(** Changing one byte of a byte string, whichever and to whatever, changes
    its checksum. *)
Lemma checksum_flip (pre post : list byte) (b b' : byte) :
  b ≠ b' → checksum (pre ++ b :: post) ≠ checksum (pre ++ b' :: post).
Proof.
  intros Hne H. apply Hne. unfold checksum in H.
  assert (Hw : word64 New) by (unfold New, word64; lia).
  apply Sum_inj in H; try (apply Write_bound; exact Hw).
  unfold Write, update in H. apply not64_inj in H.
  rewrite !fold_left_app in H. cbn [fold_left] in H.
  apply fold_updateByte_inj in H;
    try (apply updateByte_bound, fold_updateByte_bound, not64_bound, Hw).
  apply updateByte_inj_byte in H. exact H.
Qed.

End Crc64Facts.

(** ** The operating system *)

Lemma set_faults_nil w : Os.faults w = [] → Os.set_faults [] w = w.
Proof. destruct w; simpl; intros ->; reflexivity. Qed.

Lemma io_fault_reliable w : Os.faults w = [] → Os.io_fault w = (false, w).
Proof.
  intros H. unfold Os.io_fault. rewrite H. simpl. rewrite <- H at 1.
  f_equal. destruct w; reflexivity.
Qed.

Lemma upcoming_S n w :
  Os.upcoming (S n) w = (Os.io_fault w).1 :: Os.upcoming n (Os.io_fault w).2.
Proof.
  unfold Os.upcoming, Os.io_fault. simpl.
  destruct (Os.faults w) as [|b l]; simpl.
  - reflexivity.
  - f_equal. change (false :: replicate n false) with (replicate (S n) false).
    rewrite replicate_S_end, app_assoc.
    apply take_app_le. rewrite length_app, length_replicate. lia.
Qed.

(** A handle that is opened and closed again leaves the table of handles as
    it was. *)
Lemma delete_new_fd (m : gmap nat Os.handle) h :
  delete (fresh (dom m)) (<[fresh (dom m) := h]> m) = m.
Proof.
  rewrite delete_insert_eq. apply delete_id.
  apply not_elem_of_dom. apply is_fresh.
Qed.

Ltac world_cbn :=
  unfold Os.set_faults, Os.set_fds, Os.set_fs, Os.new_fd, Os.open_handle in *;
  cbn [Os.fs Os.fds Os.faults Os.clock Os.GOOS Os.h_target Os.h_off Os.meta_json
       Os.state_bin Os.has_file fst snd hd tl] in *.

Lemma syscall_reliable {A} op (body : Os.IO A) w :
  Os.faults w = [] → Os.syscall op body w = body w.
Proof. intros H. unfold Os.syscall. rewrite (io_fault_reliable w H). reflexivity. Qed.

Lemma readMeta_reliable name w :
  Os.faults w = [] → readMeta name w = (readMeta_of (Os.fs w) name, w).
Proof.
  intros H. unfold readMeta, readMeta_of. io_unfold.
  unfold Os.Open, Os.ReadJSON, Os.Close.
  rewrite (syscall_reliable _ _ _ H).
  destruct w as [wfs wfds wfl wclock wgoos]. world_cbn. subst wfl.
  destruct (wfs !! name) as [[|[[[|m]|] st]]|] eqn:Hfs; world_cbn; try reflexivity.
  all: rewrite syscall_reliable by reflexivity; world_cbn.
  all: world_cbn; rewrite ?lookup_insert_eq, ?Hfs; world_cbn.
  all: rewrite ?lookup_insert_eq; unfold Os.io_fault; world_cbn.
  all: rewrite ?delete_new_fd; reflexivity.
Qed.

(** ** Open *)

(** Open when no I/O call fails: the result depends on the directory alone,
    and the world changes by the one handle that a successful Open returns,
    which stands at offset 0. *)
Lemma Open_reliable f id w m content :
  Os.faults w = [] →
  Os.fs w !! id = Some (Os.NDir {| Os.meta_json := Some (Os.Encoded m);
                                   Os.state_bin := Some content |}) →
  Open f id w =
    if bytes_Equal (CRC m) (Crc64.checksum content) then
      (inr (SnapshotMeta_ m, {| fh := Os.new_fd w |}),
       Os.set_fds (<[Os.new_fd w := {| Os.h_target := Os.InDir id Os.StateFile;
                                        Os.h_off := 0 |}]> (Os.fds w)) w)
    else (inl (Errorf "CRC mismatch"), w).
Proof.
  intros H Hfs. unfold Open. io_unfold.
  rewrite (readMeta_reliable _ _ H). unfold readMeta_of. rewrite Hfs.
  unfold Os.Open, Os.ReadToEnd, Os.Close, Os.Seek, Os.state_of.
  rewrite (syscall_reliable _ _ _ H).
  destruct w as [wfs wfds wfl wclock wgoos]. world_cbn. subst wfl.
  rewrite Hfs. world_cbn.
  rewrite syscall_reliable by reflexivity. world_cbn.
  rewrite lookup_insert_eq. world_cbn. rewrite Hfs. world_cbn.
  rewrite drop_0. fold (Crc64.checksum content).
  destruct (bytes_Equal (CRC m) (Crc64.checksum content)); cbn [negb]; cbn beta; world_cbn.
  - rewrite syscall_reliable by reflexivity. world_cbn.
    rewrite lookup_insert_eq. world_cbn. rewrite !insert_insert_eq. reflexivity.
  - rewrite lookup_insert_eq. unfold Os.io_fault. world_cbn.
    rewrite insert_insert_eq, delete_new_fd. reflexivity.
Qed.

(** ** sort.Sort *)

Section Sort.

Context {A : Type} (less : A → A → bool).

Lemma sort_insert_perm x l : sort_insert less x l ≡ₚ x :: l.
Proof.
  induction l as [|y l IH]; [reflexivity|].
  simpl. destruct (less y x); [|reflexivity].
  rewrite IH. apply Permutation_swap.
Qed.

(** The slice keeps its elements. *)
Lemma sort_Sort_perm l : sort_Sort less l ≡ₚ l.
Proof.
  induction l as [|x l IH]; [reflexivity|].
  unfold sort_Sort in *. simpl. rewrite sort_insert_perm, IH. reflexivity.
Qed.

(** [less] is a strict weak order: it is asymmetric, and an element that is
    less than another is less than a third or the third is less than the
    other. *)
Hypothesis less_asym : ∀ a b, less a b = true → less b a = false.
Hypothesis less_cotrans : ∀ a b c, less a c = true → less a b = true ∨ less b c = true.

Local Abbreviation in_order := (Spec.in_order less).

Lemma in_order_trans a b c : in_order a b → in_order b c → in_order a c.
Proof.
  unfold Spec.in_order. intros Hab Hbc.
  destruct (less c a) eqn:Hca; [|reflexivity].
  destruct (less_cotrans c b a Hca); congruence.
Qed.

Lemma sort_insert_sorted x l :
  StronglySorted in_order l → StronglySorted in_order (sort_insert less x l).
Proof.
  induction 1 as [|y l Hl IH Hy]; simpl.
  - repeat constructor.
  - destruct (less y x) eqn:Hyx.
    + constructor; [exact IH|].
      rewrite Forall_forall. intros z Hz.
      rewrite sort_insert_perm in Hz. apply elem_of_cons in Hz as [->|Hz].
      * apply less_asym. exact Hyx.
      * rewrite Forall_forall in Hy. apply Hy. exact Hz.
    + constructor; [constructor; assumption|].
      constructor; [exact Hyx|].
      eapply Forall_impl; [exact Hy|].
      intros z Hz. eapply in_order_trans; [exact Hyx | exact Hz].
Qed.

(** No element of the sorted slice is less than one before it. *)
Lemma sort_Sort_sorted l : StronglySorted in_order (sort_Sort less l).
Proof.
  induction l as [|x l IH]; [constructor|].
  unfold sort_Sort in *. simpl. apply sort_insert_sorted. exact IH.
Qed.

End Sort.

(** ** snapMetaSlice.Less *)

Lemma String_lt_OT a b :
  String.compare a b = Lt → OrdersEx.String_as_OT.lt a b.
Proof.
  intros H. exact H.
Qed.

Lemma String_ltb_lt a b : String.ltb a b = true ↔ OrdersEx.String_as_OT.lt a b.
Proof.
  unfold String.ltb. split.
  - destruct (String.compare a b) eqn:H; try discriminate. intros _. apply String_lt_OT, H.
  - intros H. unfold OrdersEx.String_as_OT.lt in H.
    change (String.compare a b = Lt) in H. rewrite H. reflexivity.
Qed.

Lemma String_ltb_irrefl a : String.ltb a a = false.
Proof.
  destruct (String.ltb a a) eqn:H; [|reflexivity].
  apply String_ltb_lt in H.
  exfalso. exact (StrictOrder_Irreflexive (R := OrdersEx.String_as_OT.lt) a H).
Qed.

Lemma String_ltb_trans a b c :
  String.ltb a b = true → String.ltb b c = true → String.ltb a c = true.
Proof.
  rewrite !String_ltb_lt. apply (StrictOrder_Transitive (R := OrdersEx.String_as_OT.lt)).
Qed.

Lemma String_ltb_asym a b : String.ltb a b = true → String.ltb b a = false.
Proof.
  intros Hab. destruct (String.ltb b a) eqn:Hba; [|reflexivity].
  rewrite <- (String_ltb_irrefl a). symmetry. eapply String_ltb_trans; eassumption.
Qed.

Lemma String_ltb_total a b : String.ltb a b = false → String.ltb b a = false → a = b.
Proof.
  unfold String.ltb. rewrite (String.compare_antisym b a).
  destruct (String.compare a b) eqn:H; simpl; intros H1 H2; try discriminate.
  apply String.compare_eq_iff. exact H.
Qed.

Lemma String_ltb_cotrans a b c :
  String.ltb a c = true → String.ltb a b = true ∨ String.ltb b c = true.
Proof.
  intros Hac.
  destruct (String.ltb a b) eqn:Hab; [left; reflexivity|].
  destruct (String.ltb b a) eqn:Hba.
  - right. eapply String_ltb_trans; eassumption.
  - right. rewrite <- (String_ltb_total a b Hab Hba). exact Hac.
Qed.

Lemma Less_asym a b : Less a b = true → Less b a = false.
Proof.
  unfold Less.
  destruct (N.eqb_spec (Term (SnapshotMeta_ a)) (Term (SnapshotMeta_ b))) as [Ht|Ht];
    destruct (N.eqb_spec (Term (SnapshotMeta_ b)) (Term (SnapshotMeta_ a))) as [Ht'|Ht'];
    try congruence; simpl.
  - destruct (N.eqb_spec (Index (SnapshotMeta_ a)) (Index (SnapshotMeta_ b))) as [Hi|Hi];
      destruct (N.eqb_spec (Index (SnapshotMeta_ b)) (Index (SnapshotMeta_ a))) as [Hi'|Hi'];
      try congruence; simpl.
    + apply String_ltb_asym.
    + rewrite !N.ltb_lt, N.ltb_ge. lia.
  - rewrite !N.ltb_lt, N.ltb_ge. lia.
Qed.

Lemma Less_cotrans a b c : Less a c = true → Less a b = true ∨ Less b c = true.
Proof.
  unfold Less.
  destruct (N.eqb_spec (Term (SnapshotMeta_ a)) (Term (SnapshotMeta_ c))) as [Hac|Hac];
    destruct (N.eqb_spec (Term (SnapshotMeta_ a)) (Term (SnapshotMeta_ b))) as [Hab|Hab];
    destruct (N.eqb_spec (Term (SnapshotMeta_ b)) (Term (SnapshotMeta_ c))) as [Hbc|Hbc];
    simpl; try congruence; rewrite ?N.ltb_lt; try lia.
  destruct (N.eqb_spec (Index (SnapshotMeta_ a)) (Index (SnapshotMeta_ c))) as [Iac|Iac];
    destruct (N.eqb_spec (Index (SnapshotMeta_ a)) (Index (SnapshotMeta_ b))) as [Iab|Iab];
    destruct (N.eqb_spec (Index (SnapshotMeta_ b)) (Index (SnapshotMeta_ c))) as [Ibc|Ibc];
    simpl; try congruence; rewrite ?N.ltb_lt; try lia.
  apply String_ltb_cotrans.
Qed.

(** ** getSnapshots and List *)

Lemma newest_first_Less a b :
  newest_first (SnapshotMeta_ a) (SnapshotMeta_ b) ↔ Less a b = false.
Proof.
  unfold newest_first, Less.
  destruct (N.eqb_spec (Term (SnapshotMeta_ a)) (Term (SnapshotMeta_ b))) as [Ht|Ht]; simpl.
  - destruct (N.eqb_spec (Index (SnapshotMeta_ a)) (Index (SnapshotMeta_ b))) as [Hi|Hi]; simpl.
    + split; [|tauto]. intros [?|[_ [?|[_ ?]]]]; [lia | lia | assumption].
    + rewrite N.ltb_ge. split; [intros [?|[_ [?|[? _]]]] | intros ?; right; split; [|left]]; lia.
  - rewrite N.ltb_ge. split; [intros [?|[? _]] | intros ?; left]; lia.
Qed.

Section Listing.

Context (SnapshotVersionMin SnapshotVersionMax : Z).

Local Abbreviation getSnapshots_loop := (getSnapshots_loop SnapshotVersionMin SnapshotVersionMax).
Local Abbreviation getSnapshots := (getSnapshots SnapshotVersionMin SnapshotVersionMax).
Local Abbreviation List := (List SnapshotVersionMin SnapshotVersionMax).
Local Abbreviation finalized_entry := (Spec.finalized_entry SnapshotVersionMin SnapshotVersionMax).
Local Abbreviation finalized := (Spec.finalized SnapshotVersionMin SnapshotVersionMax).

(** Whatever the I/O calls do, what getSnapshots returns has been sorted. *)
Lemma getSnapshots_sorted f w l w' :
  getSnapshots f w = (inr l, w') →
  StronglySorted (in_order (sort_Reverse Less)) l.
Proof.
  unfold Snapshot.getSnapshots. io_unfold.
  destruct (Os.ReadDir w) as [[e|entries] w1]; [discriminate|].
  destruct (getSnapshots_loop entries [] w1) as [[e|snapMeta] w2]; [discriminate|].
  intros [= <- <-]. apply sort_Sort_sorted.
  - intros a b. unfold sort_Reverse. apply Less_asym.
  - intros a b c. unfold sort_Reverse. intros H.
    destruct (Less_cotrans c b a H); [right | left]; assumption.
Qed.

Lemma getSnapshots_loop_reliable w entries acc :
  Os.faults w = [] →
  (∀ e, e ∈ entries → Os.fs w !! e.1 = Some e.2) →
  getSnapshots_loop (map dir_entry entries) acc w
    = (inr (acc ++ omap finalized_entry entries), w).
Proof.
  intros Hrel. revert acc.
  induction entries as [|[name node] entries IH]; intros acc Hin.
  - simpl. rewrite app_nil_r. reflexivity.
  - assert (Hname : Os.fs w !! name = Some node) by (apply (Hin (name, node)); left).
    assert (Hrest : ∀ e, e ∈ entries → Os.fs w !! e.1 = Some e.2)
      by (intros e He; apply Hin; right; exact He).
    cbn [map dir_entry fst snd Snapshot.getSnapshots_loop omap list_omap].
    unfold Spec.finalized_entry at 1. cbn [fst snd].
    destruct node as [|d]; cbn [negb].
    { rewrite IH by exact Hrest. reflexivity. }
    destruct (HasSuffix name tmpSuffix) eqn:Htmp.
    { rewrite IH by exact Hrest. destruct d as [[[|m]|] st]; reflexivity. }
    io_unfold. rewrite (readMeta_reliable _ _ Hrel). unfold readMeta_of. rewrite Hname.
    destruct d as [[[|m]|] st]; try (rewrite IH by exact Hrest; reflexivity).
    destruct ((Version (SnapshotMeta_ m) <? SnapshotVersionMin)
              || (SnapshotVersionMax <? Version (SnapshotMeta_ m))).
    + rewrite IH by exact Hrest. reflexivity.
    + rewrite IH by exact Hrest. rewrite <- app_assoc. reflexivity.
Qed.

(** When no I/O call fails, getSnapshots returns the finalized snapshots of
    the directory, sorted, and leaves the world alone. *)
Lemma getSnapshots_reliable f w :
  Os.faults w = [] →
  getSnapshots f w = (inr (sort_Sort (sort_Reverse Less) (finalized (Os.fs w))), w).
Proof.
  intros Hrel. unfold Snapshot.getSnapshots. io_unfold.
  unfold Os.ReadDir. rewrite (syscall_reliable _ _ _ Hrel).
  change (map _ (map_to_list (Os.fs w))) with (map dir_entry (map_to_list (Os.fs w))).
  rewrite (getSnapshots_loop_reliable w _ [] Hrel).
  - reflexivity.
  - intros [name node] He. apply elem_of_map_to_list. exact He.
Qed.

(** The loop of List stops after [retain] entries. *)
Lemma List_loop_take r l acc :
  (length acc < r)%nat →
  List_loop (Z.of_nat r) l acc = acc ++ map SnapshotMeta_ (take (r - length acc) l).
Proof.
  revert acc. induction l as [|m l IH]; intros acc Hacc.
  - simpl. rewrite take_nil, app_nil_r. reflexivity.
  - cbn [List_loop]. rewrite length_app. cbn [length].
    destruct (Z.eqb_spec (Z.of_nat (length acc + 1)) (Z.of_nat r)) as [Heq|Hne].
    + replace (r - length acc)%nat with 1%nat by lia.
      cbn [take map]. rewrite take_0. reflexivity.
    + rewrite IH by (rewrite length_app; cbn [length]; lia).
      rewrite length_app. cbn [length].
      replace (r - length acc)%nat with (S (r - (length acc + 1))) by lia.
      cbn [take map]. rewrite <- app_assoc. reflexivity.
Qed.

Lemma List_take f w l w' :
  1 ≤ retain f →
  getSnapshots f w = (inr l, w') →
  List f w = (inr (map SnapshotMeta_ (take (Z.to_nat (retain f)) l)), w').
Proof.
  intros Hr Hget. unfold Snapshot.List. io_unfold. rewrite Hget.
  rewrite <- (Z2Nat.id (retain f)) at 1 by lia.
  rewrite List_loop_take by (simpl; lia).
  simpl. rewrite Nat.sub_0_r. reflexivity.
Qed.

(** C3: the entries List returns are at most [retain], and sorted by Term
    descending, then Index descending, then ID descending; and when no I/O
    call fails they are maximal among the finalized snapshots of the
    directory, whatever it holds: the others are [rest], every returned entry
    may stand before every one of them, and some are left out only when
    [retain] are returned. *)
Theorem List_newest_first (f : FileSnapshotStore) (w : Os.World)
    (metas : list SnapshotMeta) (w' : Os.World) :
  1 ≤ retain f →
  List f w = (inr metas, w') →
  Z.of_nat (length metas) ≤ retain f
  ∧ StronglySorted newest_first metas
  ∧ (Os.faults w = [] →
     ∃ rest,
       map SnapshotMeta_ (finalized (Os.fs w)) ≡ₚ metas ++ rest
       ∧ (∀ x y, x ∈ metas → y ∈ rest → newest_first x y)
       ∧ (rest ≠ [] → Z.of_nat (length metas) = retain f)).
Proof.
  intros Hr HList.
  destruct (getSnapshots f w) as [[e|l] w1] eqn:Hget.
  { unfold Snapshot.List in HList. io_unfold. rewrite Hget in HList. discriminate. }
  rewrite (List_take f w l w1 Hr Hget) in HList. injection HList as <- <-.
  pose proof (getSnapshots_sorted f w l w1 Hget) as Hsorted.
  assert (Hord : ∀ a b, in_order (sort_Reverse Less) a b
                        → newest_first (SnapshotMeta_ a) (SnapshotMeta_ b)).
  { intros a b Hab. apply newest_first_Less. exact Hab. }
  rewrite <- (take_drop (Z.to_nat (retain f)) l) in Hsorted.
  apply StronglySorted_app in Hsorted as (Hcross & Htake & Hdrop).
  split; [|split].
  - rewrite length_map, length_take. lia.
  - apply (StronglySorted_fmap SnapshotMeta_ _ _ _ Hord). exact Htake.
  - intros Hrel. exists (map SnapshotMeta_ (drop (Z.to_nat (retain f)) l)).
    rewrite (getSnapshots_reliable f w Hrel) in Hget. injection Hget as Hl _.
    split; [|split].
    + rewrite <- map_app, take_drop, <- Hl. rewrite sort_Sort_perm. reflexivity.
    + intros x y Hx Hy.
      apply list_elem_of_fmap in Hx as (a & -> & Ha).
      apply list_elem_of_fmap in Hy as (b & -> & Hb).
      apply Hord, Hcross; assumption.
    + intros Hrest. rewrite length_map, length_take.
      destruct (decide (Z.to_nat (retain f) < length l)%nat) as [Hlt|Hge]; [lia|].
      exfalso. apply Hrest. rewrite drop_ge by lia. reflexivity.
Qed.

End Listing.

(** Case analysis on the answer of the environment to the next I/O call. *)
Ltac fault_case :=
  match goal with
  | |- context [hd false ?l] => is_var l; destruct l as [|[|] ?]; cbn [hd tl]
  | H : context [hd false ?l] |- _ => is_var l; destruct l as [|[|] ?]; cbn [hd tl] in *
  end.

Ltac os_unfold :=
  unfold Os.Open, Os.ReadJSON, Os.Close, Os.ReadToEnd, Os.Seek, Os.Write, Os.WriteJSON,
    Os.Create, Os.Create_top, Os.MkdirAll, Os.MkdirAll_path, Os.Open_path, Os.Sync, Os.Stat,
    Os.Rename, Os.RemoveAll, Os.Remove, Os.ReadDir, Os.Now, Os.state_of in *;
  io_unfold; unfold Os.io_fault in *.

Ltac crunch1 :=
  world_cbn;
  first
  [ progress rewrite ?lookup_insert_eq, ?delete_new_fd, ?insert_insert_eq
  | fault_case
  | match goal with
    | |- context [match ?m !! ?k with _ => _ end] => destruct (m !! k) eqn:?
    | |- context [match ?x with _ => _ end] => is_var x; destruct x
    | |- context [match ?f ?x with _ => _ end] => is_var x; destruct x
    end ].

(** ** What the calls of the store leave alone *)

(** readMeta changes neither the directory nor the handles. *)
Lemma readMeta_frame name w r w' :
  readMeta name w = (r, w') → Os.fs w' = Os.fs w ∧ Os.fds w' = Os.fds w.
Proof.
  unfold readMeta. os_unfold.
  destruct w as [wfs wfds wfl wclock wgoos].
  repeat crunch1; intros [= <- <-]; world_cbn; rewrite ?delete_new_fd; auto.
Qed.

Section Frames.

Context (SnapshotVersionMin SnapshotVersionMax : Z).

Local Abbreviation getSnapshots_loop := (getSnapshots_loop SnapshotVersionMin SnapshotVersionMax).
Local Abbreviation getSnapshots := (getSnapshots SnapshotVersionMin SnapshotVersionMax).
Local Abbreviation ReapSnapshots := (ReapSnapshots SnapshotVersionMin SnapshotVersionMax).
Local Abbreviation finalized := (Spec.finalized SnapshotVersionMin SnapshotVersionMax).

Lemma getSnapshots_loop_frame entries acc w r w' :
  getSnapshots_loop entries acc w = (r, w') → Os.fs w' = Os.fs w ∧ Os.fds w' = Os.fds w.
Proof.
  revert acc w. induction entries as [|[name isDir] entries IH]; intros acc w.
  - simpl. intros [= <- <-]. auto.
  - cbn [Snapshot.getSnapshots_loop].
    destruct (negb isDir); [apply IH|].
    destruct (HasSuffix name tmpSuffix); [apply IH|].
    io_unfold. destruct (readMeta name w) as [rm w1] eqn:Hrm.
    apply readMeta_frame in Hrm as [<- <-].
    destruct rm as [e|m]; [apply IH|].
    destruct (_ || _); apply IH.
Qed.

Lemma getSnapshots_frame f w r w' :
  getSnapshots f w = (r, w') → Os.fs w' = Os.fs w ∧ Os.fds w' = Os.fds w.
Proof.
  unfold Snapshot.getSnapshots, Os.ReadDir. io_unfold. unfold Os.io_fault.
  destruct (hd false (Os.faults w)); [intros [= <- <-]; auto|].
  match goal with
  | |- context [getSnapshots_loop ?l ?a ?x] =>
      destruct (getSnapshots_loop l a x) as [rl w1] eqn:Hloop
  end.
  apply getSnapshots_loop_frame in Hloop as [Hfs Hfds].
  destruct rl; intros [= <- <-]; auto.
Qed.

(** The loop of ReapSnapshots removes entries and does nothing else; when it
    ends well it has removed the entry named by the ID of each snapshot. *)
Lemma ReapSnapshots_loop_effect l w r w' :
  ReapSnapshots_loop l w = (r, w') →
  Os.fds w' = Os.fds w
  ∧ (∀ k, Os.fs w' !! k = Os.fs w !! k ∨ Os.fs w' !! k = None)
  ∧ (r = inr tt →
     Os.fs w' = foldl (λ m snap, delete (ID (SnapshotMeta_ snap)) m) (Os.fs w) l).
Proof.
  revert w. induction l as [|snap l IH]; intros w.
  - simpl. intros [= <- <-]. auto.
  - cbn [ReapSnapshots_loop foldl]. unfold Os.RemoveAll. io_unfold. unfold Os.io_fault.
    destruct (hd false (Os.faults w)).
    + intros [= <- <-]. repeat split; auto. discriminate.
    + intros Hloop. apply IH in Hloop as (Hfds & Hfs & Hok). world_cbn.
      split; [exact Hfds|]. split; [|exact Hok].
      intros k. destruct (Hfs k) as [Hk|Hk]; [|right; exact Hk].
      rewrite Hk. destruct (decide (ID (SnapshotMeta_ snap) = k)) as [->|Hne].
      * right. apply lookup_delete_eq.
      * left. apply lookup_delete_ne. exact Hne.
Qed.

Lemma ReapSnapshots_effect f w r w' :
  ReapSnapshots f w = (r, w') →
  Os.fds w' = Os.fds w
  ∧ (∀ k, Os.fs w' !! k = Os.fs w !! k ∨ Os.fs w' !! k = None).
Proof.
  unfold Snapshot.ReapSnapshots. io_unfold.
  destruct (getSnapshots f w) as [rl w1] eqn:Hget.
  apply getSnapshots_frame in Hget as [<- <-].
  destruct rl as [e|l]; [intros [= <- <-]; auto|].
  destruct (retain f <? 0); [intros [= <- <-]; auto|].
  intros Hloop. apply ReapSnapshots_loop_effect in Hloop as (? & ? & _). auto.
Qed.

End Frames.

(** ** Open on a snapshot whose state file does not match its CRC *)

Lemma readMeta_value name w m' w' sd :
  readMeta name w = (inr m', w') →
  Os.fs w !! name = Some (Os.NDir sd) →
  Os.meta_json sd = Some (Os.Encoded m').
Proof.
  unfold readMeta. os_unfold.
  destruct w as [wfs wfds wfl wclock wgoos]. world_cbn.
  intros H Hfs. rewrite Hfs in H. revert H.
  destruct sd as [[[|m]|] st]; world_cbn;
  repeat crunch1; intros [= <- <-] || intros [=]; try reflexivity; congruence.
Qed.

(** Whatever I/O call fails, Open returns no reader for a snapshot whose
    state file does not hash to the CRC recorded, and leaves no handle
    open. *)
Lemma Open_mismatch_no_reader f id w m content r w' :
  Os.fs w !! id = Some (Os.NDir {| Os.meta_json := Some (Os.Encoded m);
                                   Os.state_bin := Some content |}) →
  CRC m ≠ Crc64.checksum content →
  Open f id w = (r, w') →
  (∃ e, r = inl e) ∧ Os.fs w' = Os.fs w ∧ Os.fds w' = Os.fds w.
Proof.
  intros Hfs Hcrc. unfold Open. io_unfold.
  destruct (readMeta id w) as [[e|m'] w1] eqn:Hrm.
  { apply readMeta_frame in Hrm. intros [= <- <-]. eauto. }
  pose proof (readMeta_value _ _ _ _ _ Hrm Hfs) as Hm. cbn in Hm. injection Hm as <-.
  apply readMeta_frame in Hrm as [Hfs1 Hfds1].
  rewrite <- Hfs1 in Hfs. rewrite <- Hfs1, <- Hfds1. clear Hfs1 Hfds1 w.
  destruct w1 as [wfs wfds wfl wclock wgoos]. os_unfold. world_cbn.
  rewrite Hfs.
  assert (Hne : bytes_Equal (CRC m) (Crc64.Sum (Crc64.Write Crc64.New content)) = false).
  { unfold bytes_Equal. apply bool_decide_eq_false_2. exact Hcrc. }
  repeat first
    [ progress world_cbn
    | progress rewrite ?lookup_insert_eq, ?delete_new_fd, ?insert_insert_eq, ?Hfs, ?drop_0, ?Hne
    | progress cbn [negb]
    | fault_case ];
    intros [= <- <-]; world_cbn; rewrite ?delete_new_fd; eauto.
Qed.

(** C2: Open on a snapshot whose state file does not hash (CRC64-ECMA) to
    the CRC that its meta.json records, as when one byte of the state file of
    a good snapshot has been changed, returns an error and no reader, and
    leaves the directory and the open handles as it found them, so the
    handles it opened are closed again; this whatever I/O call fails. When
    none does, the error is "CRC mismatch" and the world is left as it was. *)
Theorem Open_crc_mismatch (f : FileSnapshotStore) (id : string) (w : Os.World)
    (m : fileSnapshotMeta) (content : list byte)
    (r : error + SnapshotMeta * bufferedFile) (w' : Os.World) :
  Os.fs w !! id = Some (Os.NDir {| Os.meta_json := Some (Os.Encoded m);
                                   Os.state_bin := Some content |}) →
  corrupted m content →
  Open f id w = (r, w') →
  (∃ e, r = inl e)
  ∧ Os.fs w' = Os.fs w
  ∧ Os.fds w' = Os.fds w
  ∧ (Os.faults w = [] → r = inl (Errorf "CRC mismatch") ∧ w' = w).
Proof.
  intros Hfs Hcor HOpen.
  assert (Hcrc : CRC m ≠ Crc64.checksum content).
  { destruct Hcor as [Hne|(good & Hgood & pre & b & b' & post & Hb & -> & ->)];
      [exact Hne|].
    rewrite Hgood. apply checksum_flip. exact Hb. }
  destruct (Open_mismatch_no_reader f id w m content r w' Hfs Hcrc HOpen) as (He & Hfs' & Hfds').
  split_and!; [exact He | exact Hfs' | exact Hfds' |].
  intros Hrel. rewrite (Open_reliable f id w m content Hrel Hfs) in HOpen.
  unfold bytes_Equal in HOpen. rewrite bool_decide_eq_false_2 in HOpen by exact Hcrc.
  injection HOpen as <- <-. split; reflexivity.
Qed.

(** ** What the calls of the sink do *)

Lemma strip_set_state b d : strip (Os.NDir (Os.set_state b d)) = strip (Os.NDir d).
Proof. reflexivity. Qed.

Lemma fmap_strip_insert_state (fs : gmap string Os.node) k d b :
  fs !! k = Some (Os.NDir d) →
  strip <$> <[k := Os.NDir (Os.set_state b d)]> fs = strip <$> fs.
Proof.
  intros H. rewrite fmap_insert, strip_set_state.
  apply insert_id. rewrite lookup_fmap, H. reflexivity.
Qed.

(** A write to a state file changes the bytes of a state file and nothing
    else of the directory. *)
Lemma Os_Write_effect fd p w r w' :
  Os.Write fd p w = (r, w') →
  strip <$> Os.fs w' = strip <$> Os.fs w
  ∧ (Os.faults w = [] → Os.faults w' = []).
Proof.
  unfold Os.Write. io_unfold. unfold Os.io_fault.
  destruct w as [wfs wfds wfl wclock wgoos]. world_cbn.
  destruct (hd false wfl) eqn:Hhd.
  { intros [= <- <-]. world_cbn. split; [reflexivity|]. intros ->. reflexivity. }
  destruct (wfds !! fd) as [[[d [|]| n |] off]|] eqn:Hfd; world_cbn;
    try (intros [= <- <-]; world_cbn; split; [reflexivity | intros ->; reflexivity]).
  destruct (wfs !! d) as [[|sd]|] eqn:Hd; world_cbn;
    try (intros [= <- <-]; world_cbn; split; [reflexivity | intros ->; reflexivity]).
  destruct sd as [mj [content|]]; world_cbn;
    intros [= <- <-]; world_cbn; (split; [|intros ->; reflexivity]); [|reflexivity].
  apply (fmap_strip_insert_state wfs d _ _ Hd).
Qed.

Lemma sink_same_refl s : sink_same s s.
Proof. repeat split. Qed.

Lemma sink_same_trans s1 s2 s3 : sink_same s1 s2 → sink_same s2 s3 → sink_same s1 s3.
Proof.
  intros (?&?&?&?&?&?) (?&?&?&?&?&?). repeat split; congruence.
Qed.

Lemma world_step_refl w : world_step w w.
Proof. split; auto. Qed.

Lemma world_step_trans w1 w2 w3 : world_step w1 w2 → world_step w2 w3 → world_step w1 w3.
Proof. intros [? ?] [? ?]. split; [congruence | auto]. Qed.

Lemma multi_Write_effect s p w r s' w' :
  multi_Write s p w = (r, s', w') → sink_same s s' ∧ world_step w w'.
Proof.
  unfold multi_Write. destruct (Os.Write (stateFile s) p w) as [[e|[]] w1] eqn:Hw;
    apply Os_Write_effect in Hw; intros [= <- <- <-]; split; auto; repeat split.
Qed.

Lemma bufio_Flush_effect s w r s' w' :
  bufio_Flush s w = (r, s', w') → sink_same s s' ∧ world_step w w'.
Proof.
  unfold bufio_Flush. destruct (err (buffered s)).
  { intros [= <- <- <-]. split; [apply sink_same_refl | apply world_step_refl]. }
  destruct (buf (buffered s)) as [|b l].
  { intros [= <- <- <-]. split; [apply sink_same_refl | apply world_step_refl]. }
  destruct (multi_Write s (b :: l) w) as [[[e|] s1] w1] eqn:Hm;
    apply multi_Write_effect in Hm as [Hs Hw]; intros [= <- <- <-];
    (split; [|exact Hw]); destruct Hs as (?&?&?&?&?&?); repeat split; assumption.
Qed.

Lemma Os_Sync_effect fd w r w' : Os.Sync fd w = (r, w') → world_step w w'.
Proof.
  unfold Os.Sync. io_unfold. unfold Os.io_fault.
  destruct w as [wfs wfds wfl wclock wgoos]. world_cbn.
  destruct (hd false wfl); [|destruct (wfds !! fd)]; intros [= <- <-];
    (split; [reflexivity | world_cbn; intros ->; reflexivity]).
Qed.

Lemma Os_Stat_effect fd w r w' : Os.Stat fd w = (r, w') → world_step w w'.
Proof.
  unfold Os.Stat. io_unfold. unfold Os.io_fault.
  destruct w as [wfs wfds wfl wclock wgoos]. world_cbn.
  destruct (hd false wfl); [|destruct (wfds !! fd)]; intros [= <- <-];
    (split; [reflexivity | world_cbn; intros ->; reflexivity]).
Qed.

Lemma Os_Close_effect fd w r w' : Os.Close fd w = (r, w') → world_step w w'.
Proof.
  unfold Os.Close. unfold Os.io_fault.
  destruct w as [wfs wfds wfl wclock wgoos]. world_cbn.
  destruct (wfds !! fd); [destruct (hd false wfl)|]; intros [= <- <-];
    (split; [reflexivity | world_cbn; intros ->; reflexivity]).
Qed.

Lemma finalize_effect s w r s' w' :
  finalize s w = (r, s', w') → sink_same s s' ∧ world_step w w'.
Proof.
  unfold finalize.
  destruct (bufio_Flush s w) as [[[e|] s1] w1] eqn:Hf;
    apply bufio_Flush_effect in Hf as [Hs H1]; [intros [= <- <- <-]; auto|].
  destruct (if negb (sinkNoSync s1) then _ else _) as [rs w2] eqn:Hsync.
  assert (H2 : world_step w1 w2).
  { destruct (negb (sinkNoSync s1)); [eapply Os_Sync_effect; exact Hsync|].
    injection Hsync as _ <-. apply world_step_refl. }
  destruct rs as [e|[]].
  { intros [= <- <- <-]. split; [exact Hs | eapply world_step_trans; eassumption]. }
  destruct (Os.Stat (stateFile s1) w2) as [stat w3] eqn:Hstat. apply Os_Stat_effect in Hstat.
  destruct (Os.Close (stateFile s1) w3) as [rc w4] eqn:Hclose. apply Os_Close_effect in Hclose.
  assert (H4 : world_step w w4) by (repeat (eapply world_step_trans; [eassumption|]); apply world_step_refl).
  destruct rc as [e|[]]; [intros [= <- <- <-]; auto|].
  destruct stat as [e|size]; intros [= <- <- <-]; [auto|].
  split; [|exact H4]. destruct Hs as (?&?&?&?&?&?). repeat split; assumption.
Qed.

Ltac fault_split :=
  match goal with |- context [hd false ?l] => destruct (hd false l) eqn:? end.

(** A writeMeta that ends well has put the encoding of the sink's metadata
    into meta.json of the sink's directory, and that is all it has done. *)
Lemma writeMeta_effect s w w' :
  writeMeta s w = (inr tt, w') →
  ∃ sd, Os.fs w !! dir s = Some (Os.NDir sd)
    ∧ Os.fs w' = <[dir s := Os.NDir (Os.set_meta (Os.Encoded (meta s)) sd)]> (Os.fs w)
    ∧ Os.fds w' = Os.fds w
    ∧ (Os.faults w = [] → Os.faults w' = []).
Proof.
  unfold writeMeta. os_unfold.
  destruct w as [wfs wfds wfl wclock wgoos]. world_cbn.
  destruct (hd false wfl) eqn:H1; [discriminate|].
  destruct (wfs !! dir s) as [[|sd]|] eqn:Hd; try discriminate.
  destruct (negb (sinkNoSync s));
    repeat (world_cbn; rewrite ?lookup_insert_eq; try fault_split);
    world_cbn; try discriminate.
  all: intros [= <-]; world_cbn; rewrite delete_new_fd.
  all: unfold Os.truncate, Os.set_meta; world_cbn; rewrite insert_insert_eq.
  all: exists sd; repeat split; try reflexivity; intros ->; reflexivity.
Qed.

Lemma Rename_effect old new w w' :
  Os.Rename old new w = (inr tt, w') →
  ∃ n, Os.fs w !! old = Some n
    ∧ Os.fs w' = <[new := n]> (delete old (Os.fs w))
    ∧ Os.fds w' = Os.fds w
    ∧ (Os.faults w = [] → Os.faults w' = []).
Proof.
  unfold Os.Rename. io_unfold. unfold Os.io_fault.
  destruct w as [wfs wfds wfl wclock wgoos]. world_cbn.
  destruct (hd false wfl); [discriminate|].
  destruct (wfs !! old) as [n|] eqn:Hold; [|discriminate].
  case_bool_decide as Heq.
  { intros [= <-]. world_cbn. exists n. subst new.
    rewrite insert_delete_id by exact Hold.
    repeat split; try assumption. intros ->. reflexivity. }
  destruct (wfs !! new) as [[|d]|] eqn:Hnew; destruct n as [|d']; try discriminate;
    try (destruct (Os.is_emptyDir d); try discriminate);
    intros [= <-]; world_cbn; eexists; repeat split; try reflexivity; intros ->; reflexivity.
Qed.

(** ** strings.HasSuffix and strings.TrimSuffix *)

Lemma String_length_app a b :
  String.length (a +:+ b) = (String.length a + String.length b)%nat.
Proof. induction a as [|c a IH]; simpl; [reflexivity | rewrite IH; reflexivity]. Qed.

Lemma substring_all s : String.substring 0 (String.length s) s = s.
Proof. induction s as [|c s IH]; simpl; [reflexivity | rewrite IH; reflexivity]. Qed.

Lemma substring_app_r a b :
  String.substring (String.length a) (String.length b) (a +:+ b) = b.
Proof. induction a as [|c a IH]; simpl; [apply substring_all | exact IH]. Qed.

Lemma substring_app_l a b :
  String.substring 0 (String.length a) (a +:+ b) = a.
Proof.
  induction a as [|c a IH]; simpl.
  - destruct b; reflexivity.
  - rewrite IH. reflexivity.
Qed.

Lemma HasSuffix_app a b : HasSuffix (a +:+ b) b = true.
Proof.
  unfold HasSuffix. rewrite String_length_app.
  replace (String.length a + String.length b - String.length b)%nat
    with (String.length a) by lia.
  rewrite substring_app_r, String.eqb_refl, andb_true_r.
  apply Nat.leb_le. lia.
Qed.

Lemma TrimSuffix_app a b : TrimSuffix (a +:+ b) b = a.
Proof.
  unfold TrimSuffix. rewrite HasSuffix_app, String_length_app.
  replace (String.length a + String.length b - String.length b)%nat
    with (String.length a) by lia.
  apply substring_app_l.
Qed.

Lemma app_tmpSuffix_neq a : a +:+ tmpSuffix ≠ a.
Proof.
  intros H. apply (f_equal String.length) in H.
  rewrite String_length_app in H. simpl in H. lia.
Qed.

Section Reap.

Context (SnapshotVersionMin SnapshotVersionMax : Z).

Local Abbreviation getSnapshots := (getSnapshots SnapshotVersionMin SnapshotVersionMax).
Local Abbreviation ReapSnapshots := (ReapSnapshots SnapshotVersionMin SnapshotVersionMax).
Local Abbreviation Close_sync_reap := (Close_sync_reap SnapshotVersionMin SnapshotVersionMax).
Local Abbreviation finalized_entry := (Spec.finalized_entry SnapshotVersionMin SnapshotVersionMax).
Local Abbreviation finalized := (Spec.finalized SnapshotVersionMin SnapshotVersionMax).
Local Abbreviation names_consistent := (Spec.names_consistent SnapshotVersionMin SnapshotVersionMax).
Local Abbreviation reaped := (Spec.reaped SnapshotVersionMin SnapshotVersionMax).

Lemma ReapSnapshots_loop_reliable l w :
  Os.faults w = [] →
  ReapSnapshots_loop l w
    = (inr tt, Os.set_fs (foldl (λ m snap, delete (ID (SnapshotMeta_ snap)) m) (Os.fs w) l) w).
Proof.
  revert w. induction l as [|snap l IH]; intros w Hrel.
  - simpl. destruct w; reflexivity.
  - cbn [ReapSnapshots_loop foldl]. unfold Os.RemoveAll. io_unfold.
    rewrite (io_fault_reliable w Hrel). rewrite IH by exact Hrel. reflexivity.
Qed.

(** ReapSnapshots when no I/O call fails. *)
Lemma ReapSnapshots_reliable f w :
  Os.faults w = [] → 0 ≤ retain f →
  ReapSnapshots f w = (inr tt, Os.set_fs (reaped (retain f) (Os.fs w)) w).
Proof.
  intros Hrel Hr. unfold Snapshot.ReapSnapshots. io_unfold.
  rewrite (getSnapshots_reliable _ _ f w Hrel).
  destruct (Z.ltb_spec (retain f) 0) as [?|_]; [lia|].
  apply ReapSnapshots_loop_reliable. exact Hrel.
Qed.

Lemma finalized_entry_strip e : finalized_entry (e.1, strip e.2) = finalized_entry e.
Proof. destruct e as [name [|[mj st]]]; reflexivity. Qed.

(** The finalized snapshots of a directory do not depend on the bytes of the
    state files. *)
Lemma finalized_strip fs : finalized (strip <$> fs) ≡ₚ finalized fs.
Proof.
  unfold Spec.finalized. rewrite map_to_list_fmap.
  induction (map_to_list fs) as [|e l IH]; [reflexivity|].
  cbn [fmap list_fmap omap list_omap].
  change (prod_map id strip e) with (e.1, strip e.2).
  rewrite (finalized_entry_strip e).
  destruct (finalized_entry e); [apply Permutation_skip|]; exact IH.
Qed.

Lemma finalized_same fs fs' :
  strip <$> fs' = strip <$> fs → finalized fs' ≡ₚ finalized fs.
Proof.
  intros H. rewrite <- (finalized_strip fs'), H. apply finalized_strip.
Qed.

Lemma names_consistent_same fs fs' :
  strip <$> fs' = strip <$> fs → names_consistent fs → names_consistent fs'.
Proof.
  intros H Hc name node Hnode.
  assert (Hs : (strip <$> fs) !! name = Some (strip node)).
  { rewrite <- H, lookup_fmap, Hnode. reflexivity. }
  rewrite lookup_fmap in Hs. destruct (fs !! name) as [node0|] eqn:H0; [|discriminate].
  injection Hs as Hs. specialize (Hc name node0 H0). cbn beta in Hc.
  pose proof (finalized_entry_strip (name, node0)) as E0.
  pose proof (finalized_entry_strip (name, node)) as E.
  cbn [fst snd] in E0, E. rewrite <- E0, Hs, E in Hc. exact Hc.
Qed.

Lemma names_consistent_delete fs k : names_consistent fs → names_consistent (delete k fs).
Proof.
  intros Hc name node Hnode. apply lookup_delete_Some in Hnode as [_ Hnode].
  apply (Hc name node Hnode).
Qed.

(** Removing the directories of some finalized snapshots leaves the other
    finalized snapshots. *)
Lemma finalized_delete_list fs gone kept :
  names_consistent fs →
  finalized fs ≡ₚ gone ++ kept →
  finalized (foldl (λ m snap, delete (ID (SnapshotMeta_ snap)) m) fs gone) ≡ₚ kept.
Proof.
  revert fs. induction gone as [|d gone IH]; intros fs Hc Hperm; [exact Hperm|].
  cbn [foldl]. apply IH; [apply names_consistent_delete, Hc|].
  assert (Hd : d ∈ finalized fs) by (rewrite Hperm; left).
  apply list_elem_of_omap in Hd as ([name node] & He & Hfe).
  apply elem_of_map_to_list in He.
  pose proof (Hc name node He) as Hname. cbn beta in Hname. rewrite Hfe in Hname.
  rewrite Hname.
  apply (Permutation_cons_inv (a := d)).
  rewrite <- Hperm. unfold Spec.finalized.
  rewrite <- (map_to_list_delete fs name node He).
  cbn [omap list_omap]. rewrite Hfe. reflexivity.
Qed.

(** The finalized snapshots that ReapSnapshots leaves are the first [retain]
    of the sorted ones. *)
Lemma finalized_reaped r fs :
  names_consistent fs →
  finalized (reaped r fs)
    ≡ₚ take (Z.to_nat r) (sort_Sort (sort_Reverse Less) (finalized fs)).
Proof.
  intros Hc. unfold Spec.reaped. apply finalized_delete_list; [exact Hc|].
  rewrite Permutation_app_comm, take_drop. symmetry. apply sort_Sort_perm.
Qed.


Lemma Close_sync_reap_reliable s w w' :
  Os.faults w = [] →
  Close_sync_reap s w = (inr tt, w') →
  0 ≤ retain (store s) ∧ w' = Os.set_fs (reaped (retain (store s)) (Os.fs w)) w.
Proof.
  intros Hrel.
  destruct (Z.ltb_spec (retain (store s)) 0) as [Hneg|Hr].
  - (* a negative retain makes the reap panic *)
    assert (Hpanic : ∀ x, Os.faults x = [] → ∃ e, ReapSnapshots (store s) x = (inl e, x)).
    { intros x Hx. unfold Snapshot.ReapSnapshots. io_unfold.
      rewrite (getSnapshots_reliable _ _ (store s) x Hx).
      destruct (Z.ltb_spec (retain (store s)) 0) as [_|?]; [|lia]. eexists; reflexivity. }
    unfold Snapshot.Close_sync_reap.
    destruct (negb (sinkNoSync s) && negb (Os.GOOS w =? "windows")%string).
    + unfold Os.Open_path, Os.Sync. io_unfold.
      rewrite (io_fault_reliable w Hrel). unfold Os.open_handle.
      rewrite io_fault_reliable by exact Hrel. world_cbn. rewrite lookup_insert_eq.
      match goal with
      | |- context [ReapSnapshots (store s) ?x] =>
          destruct (Hpanic x Hrel) as [e He]; rewrite He
      end.
      destruct (Os.Close _ _) as [rc wc]. discriminate.
    + destruct (Hpanic w Hrel) as [e He]. rewrite He. discriminate.
  - split; [exact Hr|]. revert H. unfold Snapshot.Close_sync_reap.
    destruct (negb (sinkNoSync s) && negb (Os.GOOS w =? "windows")%string).
    + unfold Os.Open_path, Os.Sync, Os.Close. io_unfold.
      rewrite (io_fault_reliable w Hrel). unfold Os.open_handle.
      rewrite io_fault_reliable by exact Hrel. world_cbn. rewrite lookup_insert_eq.
      rewrite ReapSnapshots_reliable by (exact Hrel || exact Hr).
      world_cbn. rewrite lookup_insert_eq. unfold Os.io_fault. world_cbn.
      rewrite Hrel. cbn [hd tl]. rewrite delete_new_fd.
      intros [= <-]. destruct w; world_cbn; subst; reflexivity.
    + rewrite ReapSnapshots_reliable by (exact Hrel || exact Hr).
      intros [= <-]. reflexivity.
Qed.

End Reap.


(** ** Retention *)

Section Retention.

Context (SnapshotVersionMin SnapshotVersionMax : Z).

Local Abbreviation Close := (Close SnapshotVersionMin SnapshotVersionMax).
Local Abbreviation finalized_entry := (Spec.finalized_entry SnapshotVersionMin SnapshotVersionMax).
Local Abbreviation finalized := (Spec.finalized SnapshotVersionMin SnapshotVersionMax).
Local Abbreviation names_consistent := (Spec.names_consistent SnapshotVersionMin SnapshotVersionMax).
Local Abbreviation reaped := (Spec.reaped SnapshotVersionMin SnapshotVersionMax).

(** A Close that ends well has finalized the sink, written its metadata,
    moved its directory into place and run the rest. *)
Lemma Close_ok_inv s w s' w' :
  closed s = false →
  Close s w = (None, s', w') →
  ∃ w1 w2 w3,
    finalize (set_closed true s) w = (None, s', w1)
    ∧ writeMeta s' w1 = (inr tt, w2)
    ∧ Os.Rename (dir s') (TrimSuffix (dir s') tmpSuffix) w2 = (inr tt, w3)
    ∧ Close_sync_reap SnapshotVersionMin SnapshotVersionMax s' w3 = (inr tt, w').
Proof.
  intros Hc. unfold Snapshot.Close. rewrite Hc.
  destruct (finalize (set_closed true s) w) as [[[e|] s1] w1] eqn:Hf.
  { destruct (Os.RemoveAll (dir s1) w1) as [[?|[]] ?]; discriminate. }
  io_unfold.
  destruct (writeMeta s1 w1) as [[e|[]] w2] eqn:Hm; [discriminate|].
  destruct (Os.Rename (dir s1) (TrimSuffix (dir s1) tmpSuffix) w2) as [[e|[]] w3] eqn:Hr;
    [discriminate|].
  destruct (Snapshot.Close_sync_reap _ _ s1 w3) as [[e|[]] w4] eqn:Hs; [discriminate|].
  intros [= <- <-]. exists w1, w2, w3. auto.
Qed.

(** C4 as amended: after the first Close of a sink made by Create, when that
    Close ends well, in a directory whose finalized snapshots lie under their
    IDs and with no I/O call failing during Close, the finalized
    snapshots on disk are at most [retain], and they are the newest: Close
    has moved the sink's directory into place under its ID, which gives the
    directory [installed], and ReapSnapshots has then removed the directory of
    every snapshot beyond the first [retain] of the finalized snapshots of
    [installed] sorted newest first, so that the finalized snapshots left are
    those first [retain], each of which may stand before each removed one. *)
Theorem Close_retention (s : FileSnapshotSink) (w : Os.World)
    (s' : FileSnapshotSink) (w' : Os.World) :
  Os.faults w = [] →
  names_consistent (Os.fs w) →
  dir s = ID_ s +:+ tmpSuffix →
  closed s = false →
  Close s w = (None, s', w') →
  let r := retain (store s) in
  ∃ installed : gmap string Os.node,
    let sorted := sort_Sort (sort_Reverse Less) (finalized installed) in
    (∃ d, installed !! ID_ s = Some (Os.NDir d)
          ∧ Os.meta_json d = Some (Os.Encoded (meta s')))
    ∧ installed !! dir s = None
    ∧ (∀ k, k ≠ ID_ s → k ≠ dir s → strip <$> (installed !! k) = strip <$> (Os.fs w !! k))
    ∧ Os.fs w' = reaped r installed
    ∧ finalized (Os.fs w') ≡ₚ take (Z.to_nat r) sorted
    ∧ Z.of_nat (length (finalized (Os.fs w'))) ≤ r
    ∧ (∀ x y, x ∈ finalized (Os.fs w') → y ∈ drop (Z.to_nat r) sorted →
              newest_first (SnapshotMeta_ x) (SnapshotMeta_ y)).
Proof.
  intros Hrel Hcons Hname Hclosed HClose r.
  apply Close_ok_inv in HClose as (w1 & w2 & w3 & Hfin & Hmeta & Hren & Hreap);
    [|exact Hclosed].
  apply finalize_effect in Hfin as [Hsame [Hstrip Hrel1]].
  destruct Hsame as (Hdir & Hstore & _ & _ & _ & HID). cbn in Hdir, Hstore, HID.
  specialize (Hrel1 Hrel).
  apply writeMeta_effect in Hmeta as (sd & Hsd & Hfs2 & _ & Hrel2).
  specialize (Hrel2 Hrel1).
  apply Rename_effect in Hren as (n & Hn & Hfs3 & _ & Hrel3).
  specialize (Hrel3 Hrel2).
  apply Close_sync_reap_reliable in Hreap as [Hr ->]; [|exact Hrel3].
  rewrite Hdir, Hname, TrimSuffix_app in Hfs3.
  rewrite Hdir, Hname in Hsd, Hfs2, Hn.
  rewrite Hfs2, lookup_insert_eq in Hn. injection Hn as <-.
  rewrite Hfs2, delete_insert_eq in Hfs3.
  rewrite Hstore in *. fold r in Hr |- *. rewrite <- Hname in *.
  pose (installed := Os.fs w3).
  assert (Hcons1 : names_consistent (Os.fs w1))
    by (eapply names_consistent_same; [exact Hstrip | exact Hcons]).
  assert (Hcons3 : names_consistent installed).
  { intros name node Hnode. unfold installed in Hnode. rewrite Hfs3 in Hnode.
    apply lookup_insert_Some in Hnode as [[<- <-]|[Hne Hnode]].
    - unfold Spec.finalized_entry. cbn.
      destruct (HasSuffix _ _); [exact I|]. destruct (_ || _); [exact I|]. exact HID.
    - apply lookup_delete_Some in Hnode as [_ Hnode]. exact (Hcons1 name node Hnode). }
  pose proof (sort_Sort_sorted (sort_Reverse Less)
                (λ a b, Less_asym b a)
                (λ a b c H, match Less_cotrans c b a H with
                            | or_introl H1 => or_intror H1
                            | or_intror H2 => or_introl H2
                            end)
                (finalized installed)) as Hsorted.
  exists installed. cbn zeta.
  set (sorted := sort_Sort (sort_Reverse Less) (finalized installed)) in *.
  assert (Hperm : finalized (Os.fs (Os.set_fs (reaped r installed) w3))
                    ≡ₚ take (Z.to_nat r) sorted)
    by (apply finalized_reaped; exact Hcons3).
  split_and!.
  - exists (Os.set_meta (Os.Encoded (meta s')) sd). split; [|reflexivity].
    unfold installed. rewrite Hfs3. apply lookup_insert_eq.
  - unfold installed. rewrite Hfs3, lookup_insert_ne by (symmetry; rewrite Hname; apply app_tmpSuffix_neq).
    apply lookup_delete_eq.
  - intros k Hk1 Hk2. unfold installed.
    rewrite Hfs3, lookup_insert_ne, lookup_delete_ne by congruence.
    rewrite <- !lookup_fmap, Hstrip. reflexivity.
  - reflexivity.
  - exact Hperm.
  - change (Os.fs (Os.set_fs (reaped r (Os.fs w3)) w3)) with (reaped r installed).
    change (Os.fs (Os.set_fs (reaped r installed) w3)) with (reaped r installed) in Hperm.
    rewrite Hperm, length_take. lia.
  - intros x y Hx Hy.
    change (Os.fs (Os.set_fs (reaped r (Os.fs w3)) w3)) with (reaped r installed) in Hx.
    change (Os.fs (Os.set_fs (reaped r installed) w3)) with (reaped r installed) in Hperm.
    rewrite Hperm in Hx.
    apply newest_first_Less.
    rewrite <- (take_drop (Z.to_nat r) sorted) in Hsorted.
    exact (StronglySorted_app_1_elem_of _ _ _ x y Hsorted Hx Hy).
Qed.

End Retention.

(** ** Writing a snapshot *)

Lemma not64_involutive x : Crc64.not64 (Crc64.not64 x) = x.
Proof.
  unfold Crc64.not64. rewrite Z.lxor_assoc, Z.lxor_nilpotent, Z.lxor_0_r. reflexivity.
Qed.

(** Feeding a digest two strings in turn is feeding it the two as one. *)
Lemma Crc64_Write_app d a b :
  Crc64.Write (Crc64.Write d a) b = Crc64.Write d (a ++ b).
Proof.
  unfold Crc64.Write, Crc64.update.
  rewrite not64_involutive, fold_left_app. reflexivity.
Qed.

Lemma Crc64_Write_nil d : Crc64.Write d [] = d.
Proof. unfold Crc64.Write, Crc64.update. simpl. apply not64_involutive. Qed.

Lemma write_at_end (p content : list byte) :
  Os.write_at (length content) p content = content ++ p.
Proof.
  unfold Os.write_at.
  rewrite take_ge, Nat.sub_diag, drop_ge by lia.
  simpl. rewrite app_nil_r. reflexivity.
Qed.

Lemma multi_Write_inv s p w s' w' written :
  file_inv s w written →
  multi_Write s p w = (None, s', w') →
  file_inv s' w' (written ++ p) ∧ buffered s' = buffered s ∧ meta s' = meta s.
Proof.
  intros (sd & Hdir & Hstate & Hfd & Hhash).
  unfold multi_Write, Os.Write. io_unfold. unfold Os.io_fault.
  destruct w as [wfs wfds wfl wclock wgoos]. world_cbn.
  destruct (hd false wfl); [discriminate|].
  rewrite Hfd. world_cbn. rewrite Hdir, Hstate.
  intros [= <- <-]. world_cbn. split; [|split; reflexivity].
  exists (Os.set_state (Os.write_at (length written) p written) sd).
  cbn [dir stateFile stateHash set_stateHash Os.fs Os.fds].
  rewrite !lookup_insert_eq, write_at_end, length_app, Hhash, Crc64_Write_app.
  repeat split.
Qed.

Lemma bufio_Flush_inv s w s' w' data :
  sink_inv s w data →
  bufio_Flush s w = (None, s', w') →
  file_inv s' w' data ∧ buffered s' = {| buf := []; err := None |} ∧ meta s' = meta s.
Proof.
  intros Hinv. unfold bufio_Flush.
  destruct (err (buffered s)) eqn:Herr; [discriminate|].
  destruct (Hinv Herr) as (written & Hfile & Hdata).
  destruct (buf (buffered s)) as [|b l] eqn:Hbuf.
  - intros [= <- <-]. rewrite app_nil_r in Hdata. subst written.
    split; [exact Hfile|]. split; [|reflexivity].
    destruct (buffered s); simpl in *; subst; reflexivity.
  - destruct (multi_Write s (b :: l) w) as [[[e|] s1] w1] eqn:Hm; [discriminate|].
    intros [= <- <-].
    destruct (multi_Write_inv _ _ _ _ _ _ Hfile Hm) as ((sd & ? & ? & ? & ?) & _ & Hmeta).
    subst data. split; [|split; [reflexivity | exact Hmeta]].
    exists sd. repeat split; assumption.
Qed.

Lemma multi_Write_meta s p w r s' w' :
  multi_Write s p w = (r, s', w') → meta s' = meta s ∧ buffered s' = buffered s.
Proof.
  unfold multi_Write. destruct (Os.Write _ _ _) as [[e|[]] w1]; intros [= <- <- <-]; auto.
Qed.

Lemma bufio_Flush_meta s w r s' w' :
  bufio_Flush s w = (r, s', w') →
  meta s' = meta s ∧ (r ≠ None → err (buffered s') ≠ None).
Proof.
  unfold bufio_Flush. destruct (err (buffered s)) eqn:Herr.
  { intros [= <- <- <-]. split; [reflexivity|]. intros _. rewrite Herr. discriminate. }
  destruct (buf (buffered s)) as [|b l].
  { intros [= <- <- <-]. split; [reflexivity|]. intros H. contradiction. }
  destruct (multi_Write s (b :: l) w) as [[[e|] s1] w1] eqn:Hm;
    apply multi_Write_meta in Hm as [Hmeta _]; intros [= <- <- <-];
    (split; [exact Hmeta|]); [discriminate | intros H; contradiction].
Qed.

Lemma sink_same_set_buffered b s : sink_same s (set_buffered b s).
Proof. repeat split. Qed.

Lemma file_inv_set_buffered b s w written :
  file_inv s w written → file_inv (set_buffered b s) w written.
Proof. intros H. exact H. Qed.

Lemma bufio_Write_direct_inv s p nn w r s' w' written :
  file_inv s w written → buf (buffered s) = [] →
  bufio_Write_direct s p nn w = (r, s', w') →
  sink_inv s' w' (written ++ p) ∧ sink_same s s' ∧ meta s' = meta s.
Proof.
  intros Hfile Hbuf. unfold bufio_Write_direct.
  destruct (multi_Write s p w) as [[[e|] s1] w1] eqn:Hm; intros [= <- <- <-].
  - pose proof (multi_Write_effect _ _ _ _ _ _ Hm) as [Hs _].
    apply multi_Write_meta in Hm as [Hmeta _].
    split; [intros Herr; discriminate|]. split; [|exact Hmeta].
    eapply sink_same_trans; [exact Hs | apply sink_same_set_buffered].
  - pose proof (multi_Write_effect _ _ _ _ _ _ Hm) as [Hs _].
    destruct (multi_Write_inv _ _ _ _ _ _ Hfile Hm) as (Hf & Hb & Hmeta).
    split; [|split; assumption].
    intros _. exists (written ++ p). split; [exact Hf|].
    rewrite Hb, Hbuf, app_nil_r. reflexivity.
Qed.

(** A Write keeps the invariant of the sink, with the bytes it was given
    added to those written. *)
Lemma Write_inv s p w r s' w' data :
  sink_inv s w data →
  Write s p w = (r, s', w') →
  sink_inv s' w' (data ++ p) ∧ sink_same s s' ∧ meta s' = meta s.
Proof.
  intros Hinv. unfold Write, bufio_Write.
  destruct (err (buffered s)) as [e|] eqn:Herr.
  { intros [= <- <- <-]. split; [|split; [apply sink_same_refl | reflexivity]].
    intros H. congruence. }
  destruct (Hinv Herr) as (written & Hfile & Hdata).
  destruct (length p <=? defaultBufSize - length (buf (buffered s)))%nat.
  { intros [= <- <- <-]. split; [|split; [apply sink_same_set_buffered | reflexivity]].
    intros _. exists written. split; [exact Hfile|]. cbn.
    rewrite app_assoc, Hdata. reflexivity. }
  destruct (Nat.eqb_spec (length (buf (buffered s))) 0) as [Hempty|Hfull].
  { apply nil_length_inv in Hempty. rewrite Hempty, app_nil_r in Hdata. subst written.
    apply bufio_Write_direct_inv; assumption. }
  set (avail := (defaultBufSize - length (buf (buffered s)))%nat).
  set (s1 := set_buffered {| buf := buf (buffered s) ++ take avail p; err := None |} s).
  assert (Hinv1 : sink_inv s1 w (data ++ take avail p)).
  { intros _. exists written. split; [exact Hfile|]. cbn.
    rewrite app_assoc, Hdata. reflexivity. }
  destruct (bufio_Flush s1 w) as [[[e|] s2] w2] eqn:Hflush.
  - intros [= <- <- <-].
    pose proof (bufio_Flush_effect _ _ _ _ _ Hflush) as [Hs _].
    apply bufio_Flush_meta in Hflush as [Hmeta Hbad].
    split; [|split; [exact Hs | exact Hmeta]].
    intros H. exfalso. apply Hbad; [discriminate | exact H].
  - pose proof (bufio_Flush_effect _ _ _ _ _ Hflush) as [Hs _].
    destruct (bufio_Flush_inv _ _ _ _ _ Hinv1 Hflush) as (Hfile2 & Hbuf2 & Hmeta2).
    destruct (length (drop avail p) <=? defaultBufSize)%nat.
    + intros [= <- <- <-].
      split; [|split; [eapply sink_same_trans; [exact Hs | apply sink_same_set_buffered]
                      | exact Hmeta2]].
      intros _. exists (data ++ take avail p). split; [exact Hfile2|]. cbn.
      rewrite <- app_assoc, take_drop. reflexivity.
    + intros Hdirect.
      apply (bufio_Write_direct_inv _ _ _ _ _ _ _ _ Hfile2) in Hdirect
        as (Hinv3 & Hs3 & Hmeta3); [|rewrite Hbuf2; reflexivity].
      rewrite <- app_assoc, take_drop in Hinv3.
      split; [exact Hinv3|]. split; [eapply sink_same_trans; [exact Hs | exact Hs3]|].
      rewrite Hmeta3, Hmeta2. reflexivity.
Qed.

Lemma MkdirAll_effect name w w' :
  Os.MkdirAll name w = (inr tt, w') → ∃ sd, Os.fs w' !! name = Some (Os.NDir sd).
Proof.
  unfold Os.MkdirAll. io_unfold. unfold Os.io_fault.
  destruct (hd false (Os.faults w)); [discriminate|]. world_cbn.
  destruct (Os.fs w !! name) as [[|sd]|] eqn:Hname; try discriminate; intros [= <-]; world_cbn.
  - exists sd. exact Hname.
  - exists Os.emptyDir. apply lookup_insert_eq.
Qed.

Lemma Os_Create_effect d n w fd w' :
  Os.Create d n w = (inr fd, w') →
  ∃ sd, Os.fs w !! d = Some (Os.NDir sd)
    ∧ Os.fs w' = <[d := Os.NDir (Os.truncate n sd)]> (Os.fs w)
    ∧ Os.fds w' = <[fd := {| Os.h_target := Os.InDir d n; Os.h_off := 0 |}]> (Os.fds w).
Proof.
  unfold Os.Create. io_unfold. unfold Os.io_fault.
  destruct (hd false (Os.faults w)); [discriminate|]. world_cbn.
  destruct (Os.fs w !! d) as [[|sd]|] eqn:Hd; try discriminate.
  intros [= <- <-]. world_cbn. exists sd. auto.
Qed.

Section Creating.

Context {Transport : Type} (encodePeers : Configuration → Transport → list byte).

(** A Create that ends well was asked for version 1 and returns an open sink
    whose directory is named by its ID and [tmpSuffix], and whose state file
    is empty. *)
Lemma Create_inv f version index term configuration configurationIndex trans w s w' :
  Create encodePeers f version index term configuration configurationIndex trans w
    = (inr s, w') →
  version = 1
  ∧ file_inv s w' []
  ∧ buffered s = {| buf := []; err := None |}
  ∧ closed s = false
  ∧ dir s = ID_ s +:+ tmpSuffix
  ∧ store s = f
  ∧ Version (SnapshotMeta_ (meta s)) = 1
  ∧ Index (SnapshotMeta_ (meta s)) = index
  ∧ Term (SnapshotMeta_ (meta s)) = term.
Proof.
  unfold Create. destruct (Z.eqb_spec version 1) as [->|Hv]; [|discriminate].
  cbn [negb]. unfold snapshotName, Os.Now. io_unfold.
  set (name := (fmt_d (Z.of_N term) +:+ "-" +:+ fmt_d (Z.of_N index) +:+ "-"
                +:+ fmt_d (Os.clock w `quot` 1000000))).
  destruct (Os.MkdirAll (name +:+ tmpSuffix) w) as [[e|[]] w1] eqn:Hmk; [discriminate|].
  match goal with
  | |- context [writeMeta ?x w1] => destruct (writeMeta x w1) as [[e|[]] w2] eqn:Hmeta
  end; [discriminate|].
  destruct (Os.Create (name +:+ tmpSuffix) Os.StateFile w2) as [[e|fh] w3] eqn:Hcreate;
    [discriminate|].
  intros [= <- <-].
  apply Os_Create_effect in Hcreate as (sd & Hsd & Hfs3 & Hfds3).
  split; [reflexivity|]. split; [|repeat split].
  exists (Os.truncate Os.StateFile sd). cbn [dir stateFile stateHash].
  rewrite Hfs3, Hfds3, !lookup_insert_eq. repeat split.
Qed.

End Creating.

Lemma WriteAll_inv chunks s w s' w' data :
  sink_inv s w data →
  WriteAll s chunks w = (s', w') →
  sink_inv s' w' (data ++ concat chunks) ∧ sink_same s s' ∧ meta s' = meta s.
Proof.
  revert s w data. induction chunks as [|b chunks IH]; intros s w data Hinv.
  - simpl. intros [= <- <-]. rewrite app_nil_r.
    split; [exact Hinv|]. split; [apply sink_same_refl | reflexivity].
  - cbn [WriteAll concat].
    destruct (Write s b w) as [[r s1] w1] eqn:Hw.
    apply (Write_inv _ _ _ _ _ _ _ Hinv) in Hw as (Hinv1 & Hs1 & Hm1).
    intros Hrest. apply (IH _ _ _ Hinv1) in Hrest as (Hinv2 & Hs2 & Hm2).
    rewrite <- app_assoc in Hinv2.
    split; [exact Hinv2|]. split; [eapply sink_same_trans; eassumption | congruence].
Qed.

(** A finalize that ends well has flushed all the bytes written to the sink
    into the state file, and has put their number and their CRC into the
    metadata of the sink. *)
Lemma finalize_inv s w s1 w1 data :
  sink_inv s w data →
  finalize s w = (None, s1, w1) →
  meta s1 = finalMeta (meta s) data
  ∧ ∃ sd, Os.fs w1 !! dir s = Some (Os.NDir sd) ∧ Os.state_bin sd = Some data.
Proof.
  intros Hinv. unfold finalize.
  destruct (bufio_Flush s w) as [[[e|] s0] w0] eqn:Hflush; [discriminate|].
  pose proof (bufio_Flush_effect _ _ _ _ _ Hflush) as [(Hdir & _ & _ & Hfile & _) _].
  apply (bufio_Flush_inv _ _ _ _ _ Hinv) in Hflush as ((sd & Hsd & Hstate & Hfd & Hhash) & _ & Hmeta).
  rewrite Hdir in *. clear Hdir.
  unfold Os.Sync, Os.Stat, Os.Close, Os.state_of. io_unfold. unfold Os.io_fault.
  destruct w0 as [wfs wfds wfl wclock wgoos]. world_cbn.
  destruct (negb (sinkNoSync s0)); world_cbn; rewrite ?Hfd; world_cbn.
  all: repeat (fault_split; world_cbn; rewrite ?Hfd, ?Hsd, ?Hstate; world_cbn); try discriminate.
  all: intros [= <- <-]; world_cbn.
  all: split; [unfold finalMeta, Crc64.checksum; cbn [meta set_meta]; rewrite Hmeta, Hhash; reflexivity|].
  all: exists sd; split; assumption.
Qed.

Lemma Os_Close_fs fd w r w' : Os.Close fd w = (r, w') → Os.fs w' = Os.fs w.
Proof.
  unfold Os.Close, Os.io_fault. destruct (Os.fds w !! fd); [destruct (hd false _)|];
    intros [= <- <-]; reflexivity.
Qed.

Section RoundTrip.

Context (SnapshotVersionMin SnapshotVersionMax : Z).
Context {Transport : Type} (encodePeers : Configuration → Transport → list byte).

Local Abbreviation Close := (Close SnapshotVersionMin SnapshotVersionMax).
Local Abbreviation Close_sync_reap := (Close_sync_reap SnapshotVersionMin SnapshotVersionMax).
Local Abbreviation ReapSnapshots := (ReapSnapshots SnapshotVersionMin SnapshotVersionMax).

(** The tail of Close removes entries of the directory and does nothing else
    to it. *)
Lemma Close_sync_reap_effect s w r w' :
  Close_sync_reap s w = (r, w') →
  ∀ k, Os.fs w' !! k = Os.fs w !! k ∨ Os.fs w' !! k = None.
Proof.
  unfold Snapshot.Close_sync_reap.
  destruct (negb (sinkNoSync s) && negb (Os.GOOS w =? "windows")%string).
  - unfold Os.Open_path, Os.Sync, Os.open_handle. io_unfold. unfold Os.io_fault.
    destruct (hd false (Os.faults w)); [intros [= <- <-]; auto|].
    world_cbn. destruct (hd false (tail (Os.faults w))).
    { destruct (Os.Close _ _) as [rc wc] eqn:Hc. apply Os_Close_fs in Hc.
      intros [= <- <-] k. left. rewrite Hc. reflexivity. }
    rewrite lookup_insert_eq.
    match goal with
    | |- context [ReapSnapshots (store s) ?x] =>
        destruct (ReapSnapshots (store s) x) as [rr wr] eqn:Hreap
    end.
    apply ReapSnapshots_effect in Hreap as [_ Hreap]. cbn in Hreap.
    destruct (Os.Close _ wr) as [rc wc] eqn:Hc. apply Os_Close_fs in Hc.
    destruct rr; intros [= <- <-] k; rewrite Hc; apply Hreap.
  - intros Hreap. apply ReapSnapshots_effect in Hreap as [_ Hreap]. exact Hreap.
Qed.

(** C1 as amended: a snapshot written through the store (Create with version
    1, any Writes, a Close that ends well) whose directory is still there
    after the reap that Close runs is opened by Open on its ID, unless an I/O
    call of Open fails: the metadata that Open returns records the number of
    the bytes written and their CRC64-ECMA, the handle of the reader stands
    at offset 0, and reading it to the end yields the bytes written, in
    order. *)
Theorem written_snapshot_opens (f : FileSnapshotStore) (index term : N)
    (configuration : Configuration) (configurationIndex : N) (trans : Transport)
    (chunks : list (list byte))
    (w0 : Os.World) (s0 : FileSnapshotSink) (w1 : Os.World)
    (s : FileSnapshotSink) (w : Os.World) (s' : FileSnapshotSink) (w' : Os.World) :
  Create encodePeers f 1 index term configuration configurationIndex trans w0 = (inr s0, w1) →
  WriteAll s0 chunks w1 = (s, w) →
  Close s w = (None, s', w') →
  is_Some (Os.fs w' !! ID_ s') →
  Os.faults w' = [] →
  ∃ (r : bufferedFile) (w2 w3 : Os.World),
    Open f (ID_ s') w' = (inr (SnapshotMeta_ (meta s'), r), w2)
    ∧ meta s' = finalMeta (meta s0) (concat chunks)
    ∧ Os.fds w2 !! fh r
      = Some {| Os.h_target := Os.InDir (ID_ s') Os.StateFile; Os.h_off := 0 |}
    ∧ bufferedFile_ReadAll r w2 = (inr (concat chunks), w3).
Proof.
  intros HCreate HWrite HClose Hsurvives Hrel.
  apply Create_inv in HCreate as (_ & Hfile0 & Hbuf0 & Hclosed0 & Hname0 & _).
  assert (Hinv0 : sink_inv s0 w1 []).
  { intros _. exists []. split; [exact Hfile0|]. rewrite Hbuf0. reflexivity. }
  apply (WriteAll_inv _ _ _ _ _ _ Hinv0) in HWrite as (Hinv & Hsame & Hmeta).
  destruct Hsame as (Hdir & _ & _ & _ & Hclosed & HID). cbn [app] in Hinv.
  apply Close_ok_inv in HClose as (x1 & x2 & x3 & Hfin & Hwm & Hren & Hreap);
    [|congruence].
  pose proof (finalize_effect _ _ _ _ _ Hfin) as [(Hdir' & _ & _ & _ & _ & HID') _].
  change (dir s' = dir s) in Hdir'. change (ID_ s' = ID_ s) in HID'.
  apply (finalize_inv _ _ _ _ (concat chunks)) in Hfin as (Hfinal & sd & Hsd & Hstate);
    [|exact Hinv].
  cbn [dir meta set_closed] in Hsd, Hfinal. rewrite Hmeta in Hfinal.
  apply writeMeta_effect in Hwm as (sd' & Hsd' & Hfs2 & _).
  apply Rename_effect in Hren as (n & Hn & Hfs3 & _).
  assert (Hdir_s' : dir s' = ID_ s' +:+ tmpSuffix) by congruence.
  rewrite Hdir' in Hsd'. rewrite Hsd in Hsd'. injection Hsd' as <-.
  rewrite Hfs2, lookup_insert_eq in Hn. injection Hn as <-.
  rewrite Hdir_s' in Hfs3 at 1. rewrite TrimSuffix_app in Hfs3.
  assert (Hinstalled : Os.fs x3 !! ID_ s'
            = Some (Os.NDir {| Os.meta_json := Some (Os.Encoded (meta s'));
                               Os.state_bin := Some (concat chunks) |})).
  { rewrite Hfs3, lookup_insert_eq. unfold Os.set_meta. rewrite Hstate. reflexivity. }
  destruct (Close_sync_reap_effect _ _ _ _ Hreap (ID_ s')) as [Hkept|Hgone];
    [|rewrite Hgone in Hsurvives; destruct Hsurvives; discriminate].
  rewrite Hinstalled in Hkept.
  pose proof (Open_reliable f (ID_ s') w' _ _ Hrel Hkept) as HOpen.
  rewrite Hfinal in HOpen at 1. cbn [CRC finalMeta] in HOpen.
  unfold bytes_Equal in HOpen. rewrite bool_decide_eq_true_2 in HOpen by reflexivity.
  eexists _, _, _. split; [exact HOpen|]. split; [exact Hfinal|].
  cbn [fh]. world_cbn. rewrite lookup_insert_eq. split; [reflexivity|].
  unfold bufferedFile_ReadAll, Os.ReadToEnd, Os.state_of. cbn [fh].
  rewrite syscall_reliable by exact Hrel.
  world_cbn. rewrite lookup_insert_eq. world_cbn. rewrite Hkept. world_cbn.
  rewrite drop_0. reflexivity.
Qed.

End RoundTrip.

(** ** A Close whose finalize fails *)

Section FinalizeFails.

Context (SnapshotVersionMin SnapshotVersionMax : Z).

Local Abbreviation Close := (Close SnapshotVersionMin SnapshotVersionMax).

(** C8 as amended: when a step of finalize fails during Close, Close returns
    an error and puts nothing in place: no entry of the directory appears
    that was not there. It deletes the temporary directory of the sink and
    returns the error of finalize, unless the deletion fails: it then returns
    the error of the deletion and leaves the directory as finalize left it. *)
Theorem Close_finalize_fails (s : FileSnapshotSink) (w : Os.World) (e : error)
    (s1 : FileSnapshotSink) (w1 : Os.World) :
  closed s = false →
  finalize (set_closed true s) w = (Some e, s1, w1) →
  (∀ k, Os.fs w !! k = None → Os.fs w1 !! k = None)
  ∧ match Os.RemoveAll (dir s) w1 with
    | (inr _, w2) =>
        Close s w = (Some e, s1, w2) ∧ Os.fs w2 = delete (dir s) (Os.fs w1)
    | (inl delErr, w2) =>
        Close s w = (Some delErr, s1, w2) ∧ Os.fs w2 = Os.fs w1
    end.
Proof.
  intros Hclosed Hfin.
  pose proof (finalize_effect _ _ _ _ _ Hfin) as [(Hdir & _) [Hstrip _]].
  change (dir s1 = dir s) in Hdir.
  split.
  - intros k Hk. apply (f_equal (λ m, m !! k)) in Hstrip.
    rewrite !lookup_fmap, Hk in Hstrip.
    destruct (Os.fs w1 !! k); [discriminate | reflexivity].
  - unfold Snapshot.Close. rewrite Hclosed, Hfin, Hdir.
    destruct (Os.RemoveAll (dir s) w1) as [[delErr|[]] w2] eqn:Hrm;
      (split; [reflexivity|]); revert Hrm;
      unfold Os.RemoveAll; io_unfold; unfold Os.io_fault;
      destruct (hd false (Os.faults w1)); intros Heq; simplify_eq; reflexivity.
Qed.

End FinalizeFails.

(** ** Construction of the TCP transport *)

Section TCPTransport.

Import TCP.

Context {NetworkTransport : Type}.

(** C7: once the listener is bound, the local address of the stream layer is
    the advertise address when one is configured and the bound address of the
    listener otherwise; construction succeeds if and only if that address is
    a TCP address that is not unspecified, and then returns the transport
    made on the stream layer with the listener left open; when no advertise
    address is configured and the bound address is unspecified, it fails with
    the "not advertisable" error, and whenever it fails after binding the
    listener is closed. When the listener cannot be bound, construction fails
    with the error of the bind. *)
Theorem newTCPTransport_advertisable (bindAddr : string) (adv : option Addr)
    (transportCreator : TCPStreamLayer → NetworkTransport) (n : Net) :
  match net_Listen bindAddr n with
  | (inl err, n1) => newTCPTransport bindAddr adv transportCreator n = (inl err, n1)
  | (inr list, n1) =>
      let stream := {| advertise := adv; listener := list |} in
      TCPStreamLayer_Addr stream = default (ATCP (laddr list)) adv
      ∧ ((∃ trans n2, newTCPTransport bindAddr adv transportCreator n = (inr trans, n2))
         ↔ advertisable (TCPStreamLayer_Addr stream))
      ∧ (advertisable (TCPStreamLayer_Addr stream) →
         newTCPTransport bindAddr adv transportCreator n = (inr (transportCreator stream), n1)
         ∧ lfd list ∈ listening n1)
      ∧ (adv = None → unspecified (laddr list) →
         newTCPTransport bindAddr adv transportCreator n
           = (inl errNotAdvertisable, Listener_Close list n1))
      ∧ (∀ e n2, newTCPTransport bindAddr adv transportCreator n = (inl e, n2) →
         lfd list ∉ listening n2)
  end.
Proof.
  unfold newTCPTransport.
  destruct (net_Listen bindAddr n) as [[err|list] n1] eqn:HListen; [reflexivity|].
  assert (Hopen : lfd list ∈ listening n1).
  { unfold net_Listen in HListen. destruct (bind n bindAddr); [|discriminate].
    injection HListen as <- <-. cbn. set_solver. }
  assert (Hclosed : lfd list ∉ listening (Listener_Close list n1)).
  { unfold Listener_Close. cbn. intros [_ Hne]%elem_of_difference.
    apply Hne, elem_of_singleton. reflexivity. }
  cbn zeta. unfold TCPStreamLayer_Addr, advertisable, unspecified. cbn [advertise listener].
  split; [destruct adv; reflexivity|].
  destruct adv as [[addr|network str]|]; cbn [default].
  - destruct (decide (IP_ addr = None)) as [Hnil|Hnil].
    + rewrite (bool_decide_eq_true_2 _ Hnil). cbn [orb].
      split_and!.
      * split; [intros (? & ? & [=]) | intros (t & [= <-] & Ht); tauto].
      * intros (t & [= <-] & Ht). tauto.
      * discriminate.
      * intros e n2 [= <- <-]. exact Hclosed.
    + rewrite (bool_decide_eq_false_2 _ Hnil). cbn [orb].
      destruct (IsUnspecified (IP_ addr)) eqn:Hun.
      * split_and!.
        -- split; [intros (? & ? & [=]) | intros (t & [= <-] & Ht); tauto].
        -- intros (t & [= <-] & Ht). tauto.
        -- discriminate.
        -- intros e n2 [= <- <-]. exact Hclosed.
      * split_and!.
        -- split; [intros _; exists addr; split; [reflexivity | intros [?|?]; congruence]
                  | intros _; eauto].
        -- intros _. split; [reflexivity | exact Hopen].
        -- discriminate.
        -- intros e n2 [=].
  - split_and!.
    + split; [intros (? & ? & [=]) | intros (t & [=] & _)].
    + intros (t & [=] & _).
    + discriminate.
    + intros e n2 [= <- <-]. exact Hclosed.
  - destruct (decide (IP_ (laddr list) = None)) as [Hnil|Hnil].
    + rewrite (bool_decide_eq_true_2 _ Hnil). cbn [orb].
      split_and!.
      * split; [intros (? & ? & [=]) | intros (t & [= <-] & Ht); tauto].
      * intros (t & [= <-] & Ht). tauto.
      * reflexivity.
      * intros e n2 [= <- <-]. exact Hclosed.
    + rewrite (bool_decide_eq_false_2 _ Hnil). cbn [orb].
      destruct (IsUnspecified (IP_ (laddr list))) eqn:Hun.
      * split_and!.
        -- split; [intros (? & ? & [=]) | intros (t & [= <-] & Ht); tauto].
        -- intros (t & [= <-] & Ht). tauto.
        -- reflexivity.
        -- intros e n2 [= <- <-]. exact Hclosed.
      * split_and!.
        -- split; [intros _; eexists; split; [reflexivity | intros [?|?]; congruence]
                  | intros _; eauto].
        -- intros _. split; [reflexivity | exact Hopen].
        -- intros _ [?|?]; congruence.
        -- intros e n2 [=].
Qed.

End TCPTransport.

(** ** The order of the responses of a pipeline *)

Section PipelineOrder.

Import Pipeline.

Context {Req Resp : Type} (respond : nat → Req → Resp).

Local Abbreviation state := (@Pipeline.state Req Resp).
Local Abbreviation outcome := (@Pipeline.outcome Resp).

Lemma responses_app k l1 l2 :
  responses respond k (l1 ++ l2) = responses respond k l1 ++ responses respond (k + length l1) l2.
Proof.
  revert k. induction l1 as [|r l1 IH]; intros k; simpl.
  - rewrite Nat.add_0_r. reflexivity.
  - rewrite IH. do 3 f_equal. lia.
Qed.

Lemma responses_length k l : length (responses respond k l) = length l.
Proof. revert k. induction l as [|r l IH]; intros k; simpl; [|rewrite IH]; reflexivity. Qed.

Lemma responses_lookup k l i :
  responses respond k l !! i = respond (k + i) <$> l !! i.
Proof.
  revert k i. induction l as [|r l IH]; intros k [|i]; simpl; try reflexivity.
  - rewrite Nat.add_0_r. reflexivity.
  - rewrite IH. do 2 f_equal. lia.
Qed.

Lemma pipeline_inv_init : pipeline_inv respond init.
Proof.
  unfold pipeline_inv, written. cbn. repeat split; try lia.
  exists 0%nat, 0%nat. repeat split; try lia; try reflexivity; intros H; contradiction.
Qed.

Lemma pipeline_inv_local cap s s' :
  local_step cap s s' → pipeline_inv respond s → pipeline_inv respond s'.
Proof.
  intros Hstep (H1 & H2 & H3 & nd & k & Hnd & HD & Hdown & Hk).
  destruct Hstep as [s r Hs Hc|s r Hs Hlen|s r Hs Hin Hr|s r rest Hr Hin
                    |s f x rest Hr Hd|s f Hr Hc Hd|s f o Hr];
    unfold pipeline_inv, written in *; cbn [up handled down Pipeline.closed sender inflight
                                           recv emitted queued option_list] in *.
  - (* send_write *)
    rewrite Hs in *. cbn [option_list] in *. rewrite app_nil_r in *.
    split_and!; [exact H1 | | rewrite length_app; cbn; lia |].
    + rewrite drop_app_le by lia. rewrite H2. reflexivity.
    + exists nd, k. split_and!; [exact Hnd | | | exact Hk].
      * rewrite take_app_le by lia. exact HD.
      * rewrite drop_app_le by lia. rewrite take_app_le by (rewrite length_drop; lia).
        exact Hdown.
  - (* send_push *)
    rewrite Hs in *. cbn [option_list] in *. rewrite app_nil_r.
    split_and!; [| exact H2 | exact H3 | exists nd, k; auto].
    rewrite !app_assoc. rewrite <- (app_assoc _ (held _)). rewrite H1. reflexivity.
  - (* send_handoff *)
    rewrite Hs, Hin, Hr in *.
    change (option_list (Some r)) with [r] in *.
    change (option_list None) with (@nil Req).
    cbn [held completed app] in *. rewrite !app_nil_r in *.
    split_and!; [| exact H2 | exact H3 | exists nd, k; auto].
    rewrite H1. reflexivity.
  - (* recv_take *)
    rewrite Hin, Hr in *. cbn [held completed] in *.
    split_and!; [exact H1 | exact H2 | exact H3 | exists nd, k; auto].
  - (* recv_decode *)
    rewrite Hr, Hd in *. cbn [held completed] in *.
    split_and!; [exact H1 | exact H2 | exact H3 |].
    set (W := queued s ++ option_list (sender s)) in *.
    assert (Hk0 : k = 0%nat).
    { destruct (decide (k = 0%nat)) as [?|Hne]; [assumption|].
      destruct (Hk Hne) as [_ ->]. rewrite Nat.sub_diag, take_0 in Hdown. discriminate. }
    subst k. cbn [replicate] in *. rewrite app_nil_r in *.
    assert (Hlt : (nd < handled s)%nat).
    { destruct (decide (nd < handled s)%nat); [assumption|].
      replace (handled s - nd)%nat with 0%nat in Hdown by lia. discriminate. }
    destruct (lookup_lt_is_Some_2 W nd ltac:(lia)) as [r0 Hr0].
    rewrite (drop_S _ _ _ Hr0) in Hdown.
    replace (handled s - nd)%nat with (S (handled s - S nd)) in Hdown by lia.
    cbn [take responses] in Hdown. injection Hdown as -> ->.
    exists (S nd), 0%nat. split_and!; [lia | | reflexivity | intros H; contradiction].
    cbn [replicate]. rewrite app_nil_r, HD.
    rewrite (take_S_r _ _ _ Hr0), responses_app, fmap_app, length_take.
    apply lookup_lt_Some in Hr0.
    rewrite Nat.min_l by lia. rewrite app_nil_r. reflexivity.
  - (* recv_fail *)
    rewrite Hr, Hc, Hd in *. cbn [held completed] in *.
    split_and!; [exact H1 | exact H2 | exact H3 |].
    exists nd, (S k). rewrite app_nil_r in HD.
    split_and!; [exact Hnd | | exact Hdown |].
    + rewrite replicate_S_end, app_assoc, <- HD. reflexivity.
    + intros _. split; [reflexivity|].
      apply (f_equal length) in Hdown.
      rewrite responses_length, length_take, length_drop in Hdown. cbn in Hdown. lia.
  - (* recv_emit *)
    rewrite Hr in *. cbn [held completed] in *. rewrite !fmap_app. cbn [fmap list_fmap fst snd].
    split_and!; [| exact H2 | exact H3 | exists nd, k; split_and!; auto].
    + rewrite <- app_assoc. exact H1.
    + rewrite app_nil_r. exact HD.
Qed.

Lemma pipeline_inv_remote s s' :
  remote_step respond s s' → pipeline_inv respond s → pipeline_inv respond s'.
Proof.
  intros Hstep (H1 & H2 & H3 & nd & k & Hnd & HD & Hdown & Hk).
  destruct Hstep as [s r rest Hu Hc|s];
    unfold pipeline_inv, written in *; cbn [up handled down Pipeline.closed sender inflight
                                           recv emitted queued] in *.
  - (* peer_handle *)
    set (W := queued s ++ option_list (sender s)) in *.
    assert (Hk0 : k = 0%nat).
    { destruct (decide (k = 0%nat)) as [?|Hne]; [assumption|].
      destruct (Hk Hne) as [? _]. congruence. }
    subst k.
    assert (Hr : W !! handled s = Some r).
    { rewrite <- (Nat.add_0_r (handled s)), <- lookup_drop, <- H2, Hu. reflexivity. }
    split_and!; [exact H1 | | apply lookup_lt_Some in Hr; lia |].
    + rewrite (drop_S _ _ _ Hr) in H2. rewrite Hu in H2. congruence.
    + exists nd, 0%nat. split_and!; [lia | exact HD | | intros H; contradiction].
      replace (S (handled s) - nd)%nat with (S (handled s - nd)) by lia.
      assert (Hr' : drop nd W !! (handled s - nd)%nat = Some r).
      { rewrite lookup_drop. replace (nd + (handled s - nd))%nat with (handled s) by lia.
        exact Hr. }
      rewrite (take_S_r _ _ _ Hr'), responses_app, length_take, length_drop, Hdown.
      cbn. do 3 f_equal. apply lookup_lt_Some in Hr. lia.
  - (* conn_close *)
    split_and!; [exact H1 | exact H2 | exact H3 |].
    exists nd, k. split_and!; [exact Hnd | exact HD | exact Hdown |].
    intros Hne. destruct (Hk Hne) as [_ ?]. auto.
Qed.

Lemma pipeline_inv_reachable cap s : reachable respond cap s → pipeline_inv respond s.
Proof.
  unfold reachable. intros Hreach.
  apply rtc_nsteps in Hreach as [n Hn].
  revert s Hn. induction n as [|n IH]; intros s Hn.
  - inversion Hn; subst. apply pipeline_inv_init.
  - apply nsteps_inv_r in Hn as (s0 & Hn & Hstep).
    specialize (IH s0 Hn). destruct Hstep as [Hl|Hr].
    + eapply pipeline_inv_local; eassumption.
    + eapply pipeline_inv_remote; eassumption.
Qed.

(** C5: in every state that a pipeline can reach, whatever the capacity of
    its in-flight channel and however the caller, the receiver, the peer and
    a close of the connection interleave, the futures emitted on the consumer
    channel are those of the first requests queued, in the order in which
    they were queued: the [i]-th future emitted is that of the [i]-th request
    queued, and the response it carries is the one the peer gave to that very
    request, its [i]-th on the connection; a future that carries no response
    carries the error of the closed connection, as do all after it. *)
Theorem pipeline_order (cap : nat) (s : state) :
  reachable respond cap s →
  (emitted s).*1 = take (length (emitted s)) (queued s)
  ∧ (∀ i req o,
       emitted s !! i = Some (req, o) →
       queued s !! i = Some req
       ∧ (o = Done (respond i req)
          ∨ (o = Failed EOF ∧ Pipeline.closed s = true
             ∧ ∀ j req' o', (i ≤ j)%nat → emitted s !! j = Some (req', o') → o' = Failed EOF))).
Proof.
  intros Hreach.
  destruct (pipeline_inv_reachable cap s Hreach) as (H1 & H2 & H3 & nd & k & Hnd & HD & Hdown & Hk).
  assert (Hpre : (emitted s).*1 = take (length (emitted s)) (queued s)).
  { rewrite <- H1. rewrite take_app_length'; [reflexivity|]. rewrite length_fmap. reflexivity. }
  split; [exact Hpre|].
  intros i req o Hi.
  assert (Hq : queued s !! i = Some req).
  { apply (f_equal (λ l, l !! i)) in Hpre. cbn beta in Hpre.
    rewrite list_lookup_fmap, Hi in Hpre. cbn in Hpre.
    rewrite lookup_take_lt in Hpre by (apply lookup_lt_Some in Hi; exact Hi).
    symmetry. exact Hpre. }
  split; [exact Hq|].
  assert (Hout : ∀ j req' o', emitted s !! j = Some (req', o') →
            ((Done <$> responses respond 0 (take nd (written s))) ++ replicate k (Failed EOF)) !! j
              = Some o').
  { intros j req' o' Hj. rewrite <- HD.
    rewrite lookup_app_l by (rewrite length_fmap; apply lookup_lt_Some in Hj; exact Hj).
    rewrite list_lookup_fmap, Hj. reflexivity. }
  pose proof (Hout i req o Hi) as Ho.
  destruct (decide (i < nd)%nat) as [Hlt|Hge].
  - left.
    assert (Hnd' : (nd ≤ length (written s))%nat) by lia.
    rewrite lookup_app_l in Ho
      by (rewrite length_fmap, responses_length, length_take; lia).
    rewrite list_lookup_fmap, responses_lookup, lookup_take_lt in Ho by exact Hlt.
    unfold written in Ho. rewrite lookup_app_l in Ho by (apply lookup_lt_Some in Hq; exact Hq).
    rewrite Hq in Ho. cbn in Ho. injection Ho as <-. reflexivity.
  - right.
    assert (Hlen : length (Done <$> responses respond 0 (take nd (written s))) = nd).
    { rewrite length_fmap, responses_length, length_take. lia. }
    assert (Hfail : ∀ j req' o', (i ≤ j)%nat → emitted s !! j = Some (req', o') → o' = Failed EOF).
    { intros j req' o' Hij Hj. pose proof (Hout j req' o' Hj) as Hoj.
      rewrite lookup_app_r in Hoj by lia.
      apply lookup_replicate in Hoj as [-> _]. reflexivity. }
    split; [exact (Hfail i req o (le_n i) Hi)|]. split; [|exact Hfail].
    rewrite lookup_app_r in Ho by lia.
    apply lookup_replicate in Ho as [_ Hik].
    apply Hk. lia.
Qed.

End PipelineOrder.

(** ** The limit on the requests in flight *)

Section PipelineLimit.

Import Pipeline.

Context {Req Resp : Type}.

Local Abbreviation state := (@Pipeline.state Req Resp).

Lemma unanswered_inv_init cap : unanswered_inv cap (init : state).
Proof.
  unfold unanswered_inv. cbn. split_and!; auto. lia.
Qed.

Lemma unanswered_inv_step cap (s s' : state) :
  local_step cap s s' → unanswered_inv cap s → unanswered_inv cap s'.
Proof.
  intros Hstep (Hd & Hc & He & Hr & Hq & Hlen).
  destruct Hstep as [s r Hs Hc'|s r Hs Hlt|s r Hs Hin Hr'|s r rest Hr' Hin
                    |s f x rest Hr' Hd'|s f Hr' Hc' Hd'|s f o Hr'];
    unfold unanswered_inv;
    cbn [up handled down Pipeline.closed sender inflight recv emitted queued].
  - split_and!; assumption.
  - split_and!; try assumption.
    + rewrite Hq, app_assoc. reflexivity.
    + rewrite length_app. cbn. lia.
  - split_and!; try assumption.
    + right. eexists. reflexivity.
    + rewrite Hq, Hr', Hin. reflexivity.
    + cbn. lia.
  - split_and!; try assumption.
    + right. eexists. reflexivity.
    + rewrite Hq, Hr', Hin. reflexivity.
    + rewrite Hin in Hlen. cbn in Hlen. lia.
  - congruence.
  - congruence.
  - destruct Hr as [Hr|[f' Hr]]; congruence.
Qed.

Lemma unanswered_inv_unanswered cap (s : state) :
  unanswered cap s → unanswered_inv cap s.
Proof.
  unfold unanswered. intros Hreach.
  apply rtc_nsteps in Hreach as [n Hn].
  revert s Hn. induction n as [|n IH]; intros s Hn.
  - inversion Hn; subst. apply unanswered_inv_init.
  - apply nsteps_inv_r in Hn as (s0 & Hn & Hstep).
    eapply unanswered_inv_step; [exact Hstep|]. apply IH. exact Hn.
Qed.

(** While nothing is answered, at most one more send than the channel holds
    has returned. *)
Lemma unanswered_bound cap (s : state) :
  unanswered cap s → (length (queued s) ≤ S cap)%nat.
Proof.
  intros Hs. destruct (unanswered_inv_unanswered cap s Hs) as (_ & _ & _ & Hr & Hq & Hlen).
  rewrite Hq, length_app.
  destruct Hr as [->|[f ->]]; cbn; lia.
Qed.

(** The caller's send of [r'] goes through once the request is written, if
    fewer sends than that have returned. *)
Lemma unanswered_push cap (s : state) r' :
  unanswered_inv cap s → sender s = Some r' →
  (length (queued s) < S cap)%nat →
  ∃ s', rtc (local_step cap) s s' ∧ queued s' = queued s ++ [r'].
Proof.
  intros (Hd & Hc & He & Hr & Hq & Hlen) Hs Hlt.
  destruct (decide (length (inflight s) < cap)%nat) as [Hroom|Hfull].
  - eexists. split; [apply rtc_once, (send_push cap s r' Hs Hroom)|]. reflexivity.
  - assert (Hidle : recv s = Idle).
    { destruct Hr as [Hr|[f Hr]]; [exact Hr|].
      rewrite Hq, Hr, length_app in Hlt. cbn in Hlt. lia. }
    destruct (inflight s) as [|r0 rest] eqn:Hin.
    + eexists. split; [apply rtc_once, (send_handoff cap s r' Hs Hin Hidle)|]. reflexivity.
    + eexists. split.
      * eapply rtc_l; [apply (recv_take cap s r0 rest Hidle Hin)|].
        apply rtc_once. apply (send_push cap _ r'); cbn; [exact Hs|].
        cbn in Hlen. lia.
      * reflexivity.
Qed.

(** C6, amended: with MaxRPCsInFlight 1 there is no pipeline, and 0 stands
    for 2. Otherwise the in-flight channel has room for two futures fewer
    than the limit, and while the peer answers nothing the sends go through
    until one fewer than the limit have returned: no state has the send that
    brings the requests in flight to the limit returned, and from every state
    in which fewer have returned the next send can return, which is the send
    under way if the caller has written a request and that of [r]
    otherwise. *)
Theorem pipeline_limit (M : Z) (HM : M = 0 ∨ 2 ≤ M) :
  AppendEntriesPipeline observedCapacity 1 = inl ErrPipelineReplicationNotSupported
  ∧ maxInFlight 0 = 2
  ∧ ∃ cap,
      AppendEntriesPipeline observedCapacity M = inr cap
      ∧ (∀ s : state, unanswered cap s →
           (length (queued s) < Z.to_nat (maxInFlight M))%nat)
      ∧ (∀ (s : state) (r : Req), unanswered cap s →
           (S (length (queued s)) < Z.to_nat (maxInFlight M))%nat →
           ∃ s', rtc (local_step cap) s s'
                 ∧ queued s' = queued s ++ [default r (sender s)]).
Proof.
  split; [reflexivity|]. split; [reflexivity|].
  exists (observedCapacity M).
  assert (Hmax : 2 ≤ maxInFlight M).
  { unfold maxInFlight. destruct (Z.eqb_spec M 0); lia. }
  assert (Hcap : S (observedCapacity M) = (Z.to_nat (maxInFlight M) - 1)%nat).
  { unfold observedCapacity. lia. }
  split_and!.
  - unfold AppendEntriesPipeline. destruct (Z.eqb_spec M 1); [lia|reflexivity].
  - intros s Hs. pose proof (unanswered_bound _ s Hs). lia.
  - intros s r Hs Hlt.
    pose proof (unanswered_inv_unanswered _ s Hs) as Hinv.
    destruct (sender s) as [r'|] eqn:Hsend; cbn [default].
    + apply unanswered_push; [exact Hinv | exact Hsend | lia].
    + destruct Hinv as (Hd & Hc & He & Hr & Hq & Hlen).
      pose (s1 := {| up := up s ++ [r]; handled := handled s; down := down s;
                     closed := Pipeline.closed s; sender := Some r; inflight := inflight s;
                     recv := recv s; emitted := emitted s; queued := queued s |}).
      destruct (unanswered_push (observedCapacity M) s1 r) as (s' & Hsteps & Hq').
      * unfold unanswered_inv. cbn. split_and!; assumption.
      * reflexivity.
      * cbn. lia.
      * exists s'. split; [|exact Hq'].
        eapply rtc_l; [apply (send_write _ s r Hsend Hc)|]. exact Hsteps.
Qed.

End PipelineLimit.

(* ===================================================================== *)
(** * Part III: further theorems                                          *)
(* ===================================================================== *)

(** ** What a sink leaves alone *)

Lemma only_at_refl d fs : only_at d fs fs.
Proof. intros k _. reflexivity. Qed.

Lemma only_at_trans d fs1 fs2 fs3 : only_at d fs1 fs2 → only_at d fs2 fs3 → only_at d fs1 fs3.
Proof. intros H1 H2 k Hk. rewrite (H2 k Hk). apply H1, Hk. Qed.

Lemma only_at_insert d n fs : only_at d fs (<[d := n]> fs).
Proof. intros k Hk. apply lookup_insert_ne. congruence. Qed.

Lemma only_at_delete d fs : only_at d fs (delete d fs).
Proof. intros k Hk. apply lookup_delete_ne. congruence. Qed.

Lemma sink_step_refl s w : handle_inv s w → sink_step s w w.
Proof.
  intros [off H]. split; [apply only_at_refl|]. exists off.
  symmetry. apply insert_id. exact H.
Qed.

Lemma sink_step_handle s w w' : sink_step s w w' → handle_inv s w'.
Proof. intros [_ [off H]]. exists off. rewrite H. apply lookup_insert_eq. Qed.

Lemma sink_step_trans s w1 w2 w3 : sink_step s w1 w2 → sink_step s w2 w3 → sink_step s w1 w3.
Proof.
  intros [Hf1 [o1 Hd1]] [Hf2 [o2 Hd2]]. split; [eapply only_at_trans; eassumption|].
  exists o2. rewrite Hd2, Hd1. apply insert_insert_eq.
Qed.

(** [sink_step] looks at the directory and the handle of the sink only. *)
Lemma sink_step_same s s' w w' :
  dir s' = dir s → stateFile s' = stateFile s → sink_step s w w' → sink_step s' w w'.
Proof. unfold sink_step. intros -> ->. auto. Qed.

Lemma handle_inv_same s s' w :
  dir s' = dir s → stateFile s' = stateFile s → handle_inv s w → handle_inv s' w.
Proof. unfold handle_inv. intros -> ->. auto. Qed.

Lemma multi_Write_step s p w r s' w' :
  handle_inv s w → multi_Write s p w = (r, s', w') → sink_step s w w'.
Proof.
  intros [off Hfd]. unfold multi_Write, Os.Write. io_unfold. unfold Os.io_fault.
  destruct w as [wfs wfds wfl wclock wgoos]. world_cbn.
  assert (Hsame : ∃ off0, wfds = <[stateFile s := {| Os.h_target := Os.InDir (dir s) Os.StateFile;
                                                      Os.h_off := off0 |}]> wfds).
  { exists off. symmetry. apply insert_id. exact Hfd. }
  destruct (hd false wfl).
  { intros [= <- <- <-]. split; [apply only_at_refl | exact Hsame]. }
  rewrite Hfd. world_cbn.
  destruct (wfs !! dir s) as [[|[mj [content|]]]|]; world_cbn; intros [= <- <- <-]; world_cbn.
  all: split; [try apply only_at_refl; try apply only_at_insert | eexists; reflexivity].
Qed.

Lemma bufio_Flush_step s w r s' w' :
  handle_inv s w → bufio_Flush s w = (r, s', w') → sink_step s w w'.
Proof.
  intros Hh. unfold bufio_Flush. destruct (err (buffered s)).
  { intros [= <- <- <-]. apply sink_step_refl, Hh. }
  destruct (buf (buffered s)) as [|b l].
  { intros [= <- <- <-]. apply sink_step_refl, Hh. }
  destruct (multi_Write s (b :: l) w) as [[[e|] s1] w1] eqn:Hm;
    apply (multi_Write_step _ _ _ _ _ _ Hh) in Hm; intros [= <- <- <-]; exact Hm.
Qed.

Lemma bufio_Write_direct_step s p nn w r s' w' :
  handle_inv s w → bufio_Write_direct s p nn w = (r, s', w') → sink_step s w w'.
Proof.
  intros Hh. unfold bufio_Write_direct.
  destruct (multi_Write s p w) as [[[e|] s1] w1] eqn:Hm;
    apply (multi_Write_step _ _ _ _ _ _ Hh) in Hm; intros [= <- <- <-]; exact Hm.
Qed.

(** A Write changes no entry of the store's directory but that of the sink,
    and no handle but that of the sink's state file, whatever fails. *)
Lemma Write_step s p w r s' w' :
  handle_inv s w → Write s p w = (r, s', w') → sink_step s w w'.
Proof.
  intros Hh. unfold Write, bufio_Write.
  destruct (err (buffered s)); [intros [= <- <- <-]; apply sink_step_refl, Hh|].
  destruct (_ <=? _)%nat; [intros [= <- <- <-]; apply sink_step_refl, Hh|].
  destruct (_ =? _)%nat; [apply bufio_Write_direct_step, Hh|].
  match goal with
  | |- context [bufio_Flush ?x w] => destruct (bufio_Flush x w) as [[[e|] s2] w2] eqn:Hf
  end.
  - apply bufio_Flush_step in Hf; [|exact Hh]. intros [= <- <- <-]. exact Hf.
  - pose proof (bufio_Flush_effect _ _ _ _ _ Hf) as [(Hd & _ & _ & Hsf & _) _].
    apply bufio_Flush_step in Hf; [|exact Hh]. cbn in Hd, Hsf.
    apply (sink_step_same _ s) in Hf; try reflexivity.
    destruct (_ <=? _)%nat; [intros [= <- <- <-]; exact Hf|].
    intros Hdirect. apply bufio_Write_direct_step in Hdirect.
    + eapply sink_step_trans; [exact Hf|].
      eapply sink_step_same; [| |exact Hdirect]; congruence.
    + eapply handle_inv_same; [| |eapply sink_step_handle; exact Hf]; congruence.
Qed.

Lemma bufio_Write_direct_same s p nn w r s' w' :
  bufio_Write_direct s p nn w = (r, s', w') → sink_same s s'.
Proof.
  unfold bufio_Write_direct.
  destruct (multi_Write s p w) as [[[e|] s1] w1] eqn:Hm;
    apply multi_Write_effect in Hm as [Hs _]; intros [= <- <- <-]; [|exact Hs].
  eapply sink_same_trans; [exact Hs | apply sink_same_set_buffered].
Qed.

(** A Write leaves the sink its directory, its store, its handle and its
    ID. *)
Lemma Write_same s p w r s' w' : Write s p w = (r, s', w') → sink_same s s'.
Proof.
  unfold Write, bufio_Write.
  destruct (err (buffered s)); [intros [= <- <- <-]; apply sink_same_refl|].
  destruct (_ <=? _)%nat; [intros [= <- <- <-]; apply sink_same_set_buffered|].
  destruct (_ =? _)%nat; [apply bufio_Write_direct_same|].
  match goal with
  | |- context [bufio_Flush ?x w] => destruct (bufio_Flush x w) as [[[e|] s2] w2] eqn:Hf
  end; apply bufio_Flush_effect in Hf as [Hs _].
  - intros [= <- <- <-]. exact Hs.
  - destruct (_ <=? _)%nat.
    + intros [= <- <- <-]. eapply sink_same_trans; [exact Hs | apply sink_same_set_buffered].
    + intros Hd. apply bufio_Write_direct_same in Hd.
      eapply sink_same_trans; [exact Hs | exact Hd].
Qed.

(** A Write changes the bytes of state files and nothing else of the
    directory. *)
Lemma Write_effect s p w r s' w' : Write s p w = (r, s', w') → world_step w w'.
Proof.
  unfold Write, bufio_Write, bufio_Write_direct.
  destruct (err (buffered s)); [intros [= <- <- <-]; apply world_step_refl|].
  destruct (_ <=? _)%nat; [intros [= <- <- <-]; apply world_step_refl|].
  destruct (_ =? _)%nat.
  { destruct (multi_Write s p w) as [[[e|] s1] w1] eqn:Hm;
      apply multi_Write_effect in Hm as [_ Hm]; intros [= <- <- <-]; exact Hm. }
  match goal with
  | |- context [bufio_Flush ?x w] => destruct (bufio_Flush x w) as [[[e|] s2] w2] eqn:Hf
  end; apply bufio_Flush_effect in Hf as [_ Hf]; [intros [= <- <- <-]; exact Hf|].
  destruct (_ <=? _)%nat; [intros [= <- <- <-]; exact Hf|].
  destruct (multi_Write s2 _ w2) as [[[e|] s3] w3] eqn:Hm;
    apply multi_Write_effect in Hm as [_ Hm]; intros [= <- <- <-];
    eapply world_step_trans; eassumption.
Qed.

Lemma WriteAll_same chunks s w s' w' : WriteAll s chunks w = (s', w') → sink_same s s'.
Proof.
  revert s w. induction chunks as [|b chunks IH]; intros s w.
  - simpl. intros [= <- <-]. apply sink_same_refl.
  - cbn [WriteAll]. destruct (Write s b w) as [[r s1] w1] eqn:Hw.
    apply Write_same in Hw. intros Hrest. apply IH in Hrest.
    eapply sink_same_trans; eassumption.
Qed.

Lemma WriteAll_effect chunks s w s' w' : WriteAll s chunks w = (s', w') → world_step w w'.
Proof.
  revert s w. induction chunks as [|b chunks IH]; intros s w.
  - simpl. intros [= <- <-]. apply world_step_refl.
  - cbn [WriteAll]. destruct (Write s b w) as [[r s1] w1] eqn:Hw.
    apply Write_effect in Hw. intros Hrest. apply IH in Hrest.
    eapply world_step_trans; eassumption.
Qed.

(** A step that keeps the directory but for the bytes of the state files
    keeps the entries that are there. *)
Lemma world_step_is_Some w w' k :
  world_step w w' → is_Some (Os.fs w !! k) → is_Some (Os.fs w' !! k).
Proof.
  intros [Hs _] [n Hn]. apply (f_equal (λ m, m !! k)) in Hs.
  rewrite !lookup_fmap, Hn in Hs. destruct (Os.fs w' !! k); [eauto | discriminate].
Qed.

Lemma sink_same_step s s' w w' : sink_same s s' → sink_step s' w w' → sink_step s w w'.
Proof. intros (Hd & _ & _ & Hf & _). apply sink_step_same; congruence. Qed.

Lemma sink_same_handle s s' w : sink_same s s' → handle_inv s w → handle_inv s' w.
Proof. intros (Hd & _ & _ & Hf & _). apply handle_inv_same; congruence. Qed.

Lemma WriteAll_step chunks s w s' w' :
  handle_inv s w → WriteAll s chunks w = (s', w') → sink_step s w w'.
Proof.
  revert s w. induction chunks as [|b chunks IH]; intros s w Hh.
  - simpl. intros [= <- <-]. apply sink_step_refl, Hh.
  - cbn [WriteAll]. destruct (Write s b w) as [[r s1] w1] eqn:Hw.
    pose proof (Write_same _ _ _ _ _ _ Hw) as Hsame.
    apply (Write_step _ _ _ _ _ _ Hh) in Hw.
    intros Hrest. apply IH in Hrest.
    + eapply sink_step_trans; [exact Hw|]. eapply sink_same_step; eassumption.
    + eapply sink_same_handle; [exact Hsame|]. eapply sink_step_handle; exact Hw.
Qed.

(** writeMeta changes the entry of the sink's directory and nothing else,
    and closes the handle it opens, whatever fails. *)
Lemma writeMeta_frame s w r w' :
  writeMeta s w = (r, w') → only_at (dir s) (Os.fs w) (Os.fs w') ∧ Os.fds w' = Os.fds w.
Proof.
  unfold writeMeta. os_unfold.
  destruct w as [wfs wfds wfl wclock wgoos]. world_cbn.
  destruct (negb (sinkNoSync s));
    repeat crunch1; intros [= <- <-]; world_cbn; rewrite ?delete_new_fd;
    (split; [|reflexivity]);
    repeat first [apply only_at_refl | apply only_at_insert
                 | eapply only_at_trans; [apply only_at_insert|]].
Qed.

Lemma new_fd_fresh w : Os.fds w !! Os.new_fd w = None.
Proof. unfold Os.new_fd. apply not_elem_of_dom, is_fresh. Qed.

Lemma MkdirAll_frame name w r w' :
  Os.MkdirAll name w = (r, w') → only_at name (Os.fs w) (Os.fs w') ∧ Os.fds w' = Os.fds w.
Proof.
  unfold Os.MkdirAll. io_unfold. unfold Os.io_fault.
  destruct (hd false (Os.faults w)); [intros [= <- <-]; split; [apply only_at_refl|reflexivity]|].
  world_cbn. destruct (Os.fs w !! name) as [[|sd]|]; intros [= <- <-]; world_cbn;
    (split; [|reflexivity]); try apply only_at_refl; apply only_at_insert.
Qed.

Lemma Os_Create_frame d n w r w' :
  Os.Create d n w = (r, w') →
  only_at d (Os.fs w) (Os.fs w')
  ∧ match r with
    | inl _ => Os.fds w' = Os.fds w
    | inr fd =>
        Os.fds w !! fd = None
        ∧ Os.fds w' = <[fd := {| Os.h_target := Os.InDir d n; Os.h_off := 0 |}]> (Os.fds w)
    end.
Proof.
  unfold Os.Create. io_unfold. unfold Os.io_fault.
  destruct (hd false (Os.faults w)); [intros [= <- <-]; split; [apply only_at_refl|reflexivity]|].
  world_cbn. destruct (Os.fs w !! d) as [[|sd]|]; intros [= <- <-]; world_cbn;
    try (split; [apply only_at_refl|reflexivity]).
  split; [apply only_at_insert|]. split; [|reflexivity].
  apply not_elem_of_dom, is_fresh.
Qed.

Section CreateFrame.

Context {Transport : Type} (encodePeers : Configuration → Transport → list byte).

(** Create changes one entry of the store's directory, the temporary
    directory of the snapshot, and no other; when it fails it leaves no handle
    open, and when it ends well the only handle it leaves open is that of
    the state file, which is a new one. *)
Lemma Create_frame f version index term configuration configurationIndex trans w r w' :
  Create encodePeers f version index term configuration configurationIndex trans w = (r, w') →
  ∃ name,
    only_at (name +:+ tmpSuffix) (Os.fs w) (Os.fs w')
    ∧ match r with
      | inl _ => Os.fds w' = Os.fds w
      | inr s =>
          ID_ s = name ∧ dir s = name +:+ tmpSuffix
          ∧ Os.fds w !! stateFile s = None
          ∧ Os.fds w' = <[stateFile s := {| Os.h_target := Os.InDir (dir s) Os.StateFile;
                                            Os.h_off := 0 |}]> (Os.fds w)
      end.
Proof.
  unfold Create. destruct (negb (version =? 1)).
  { intros [= <- <-]. exists "". split; [apply only_at_refl | reflexivity]. }
  unfold snapshotName, Os.Now. io_unfold.
  set (name := (fmt_d (Z.of_N term) +:+ "-" +:+ fmt_d (Z.of_N index) +:+ "-"
                +:+ fmt_d (Os.clock w `quot` 1000000))).
  intros H. exists name. revert H.
  destruct (Os.MkdirAll (name +:+ tmpSuffix) w) as [[e|[]] w1] eqn:Hmk;
    apply MkdirAll_frame in Hmk as [Hfs1 Hfds1]; [intros [= <- <-]; auto|].
  match goal with
  | |- context [writeMeta ?x w1] => destruct (writeMeta x w1) as [[e|[]] w2] eqn:Hmeta
  end; apply writeMeta_frame in Hmeta as [Hfs2 Hfds2]; cbn [dir] in Hfs2.
  { intros [= <- <-]. split; [eapply only_at_trans; eassumption | congruence]. }
  destruct (Os.Create (name +:+ tmpSuffix) Os.StateFile w2) as [[e|fh] w3] eqn:Hcreate;
    apply Os_Create_frame in Hcreate as [Hfs3 Hfds3]; intros [= <- <-].
  { split; [repeat (eapply only_at_trans; [eassumption|]); apply only_at_refl | congruence]. }
  destruct Hfds3 as [Hfresh Hfds3]. cbn [ID_ meta SnapshotMeta_ ID dir stateFile].
  split; [repeat (eapply only_at_trans; [eassumption|]); apply only_at_refl|].
  split; [reflexivity|]. split; [reflexivity|]. rewrite <- Hfds1, <- Hfds2. auto.
Qed.

End CreateFrame.

Lemma Os_Sync_frame fd w r w' :
  Os.Sync fd w = (r, w') → Os.fs w' = Os.fs w ∧ Os.fds w' = Os.fds w.
Proof.
  unfold Os.Sync. io_unfold. unfold Os.io_fault.
  destruct (hd false (Os.faults w)); [|world_cbn; destruct (Os.fds w !! fd)];
    intros [= <- <-]; auto.
Qed.

Lemma Os_Stat_frame fd w r w' :
  Os.Stat fd w = (r, w') → Os.fs w' = Os.fs w ∧ Os.fds w' = Os.fds w.
Proof.
  unfold Os.Stat. io_unfold. unfold Os.io_fault.
  destruct (hd false (Os.faults w)); [|world_cbn; destruct (Os.fds w !! fd)];
    intros [= <- <-]; auto.
Qed.

Lemma Os_Close_frame fd w r w' :
  is_Some (Os.fds w !! fd) →
  Os.Close fd w = (r, w') → Os.fs w' = Os.fs w ∧ Os.fds w' = delete fd (Os.fds w).
Proof.
  intros [h Hh]. unfold Os.Close, Os.io_fault. rewrite Hh.
  destruct (hd false (Os.faults w)); intros [= <- <-]; auto.
Qed.

(** finalize closes the state file unless the flush or the fsync fails: it
    then returns with the file open. *)
Lemma finalize_handle_cases s w r s' w' :
  handle_inv s w →
  finalize s w = (r, s', w') →
  only_at (dir s) (Os.fs w) (Os.fs w')
  ∧ match bufio_Flush s w with
    | (Some e, _, _) => r = Some e ∧ sink_step s w w'
    | (None, _, w1) =>
        match (if negb (sinkNoSync s) then Os.Sync (stateFile s) w1 else (inr tt, w1)) with
        | (inl e, _) => r = Some e ∧ sink_step s w w'
        | (inr _, _) => Os.fds w' = delete (stateFile s) (Os.fds w)
        end
    end.
Proof.
  intros Hh. unfold finalize.
  destruct (bufio_Flush s w) as [[[e|] s1] w1] eqn:Hf.
  { apply (bufio_Flush_step _ _ _ _ _ Hh) in Hf. intros [= <- <- <-].
    split; [apply Hf | split; [reflexivity | exact Hf]]. }
  pose proof (bufio_Flush_effect _ _ _ _ _ Hf) as [(Hd & _ & Hns & Hsf & _) _].
  apply (bufio_Flush_step _ _ _ _ _ Hh) in Hf. rewrite Hns, Hsf.
  destruct (if negb (sinkNoSync s) then Os.Sync (stateFile s) w1 else (inr tt, w1))
    as [rs w2] eqn:Hsync.
  assert (H2 : Os.fs w2 = Os.fs w1 ∧ Os.fds w2 = Os.fds w1).
  { destruct (negb (sinkNoSync s)); [eapply Os_Sync_frame; exact Hsync|].
    injection Hsync as _ <-. auto. }
  destruct H2 as [Hfs2 Hfds2].
  assert (Hstep2 : sink_step s w w2).
  { destruct Hf as [Ho [off Hfds]]. split; [intros k Hk; rewrite Hfs2; apply Ho, Hk|].
    exists off. congruence. }
  destruct rs as [e|[]].
  { intros [= <- <- <-]. split; [apply Hstep2 | split; [reflexivity | exact Hstep2]]. }
  destruct (Os.Stat (stateFile s) w2) as [stat w3] eqn:Hstat.
  apply Os_Stat_frame in Hstat as [Hfs3 Hfds3].
  destruct (Os.Close (stateFile s) w3) as [rc w4] eqn:Hclose.
  apply Os_Close_frame in Hclose as [Hfs4 Hfds4].
  2:{ rewrite Hfds3. destruct (sink_step_handle _ _ _ Hstep2) as [off Ho]. rewrite Ho. eauto. }
  assert (Hfs : only_at (dir s) (Os.fs w) (Os.fs w4)).
  { intros k Hk. rewrite Hfs4, Hfs3. apply Hstep2, Hk. }
  assert (Hfds : Os.fds w4 = delete (stateFile s) (Os.fds w)).
  { rewrite Hfds4, Hfds3. destruct Hstep2 as [_ [off ->]]. apply delete_insert_eq. }
  destruct rc as [e|[]]; [intros [= <- <- <-]; auto|].
  destruct stat as [e|size]; intros [= <- <- <-]; auto.
Qed.

Lemma finalize_ok_frame s w s' w' :
  handle_inv s w →
  finalize s w = (None, s', w') →
  only_at (dir s) (Os.fs w) (Os.fs w') ∧ Os.fds w' = delete (stateFile s) (Os.fds w).
Proof.
  intros Hh Hfin. destruct (finalize_handle_cases _ _ _ _ _ Hh Hfin) as [Hfs Hcases].
  split; [exact Hfs|].
  destruct (bufio_Flush s w) as [[[e|] s1] w1]; [destruct Hcases; discriminate|].
  destruct (if negb (sinkNoSync s) then _ else _) as [[e|[]] w2];
    [destruct Hcases; discriminate | exact Hcases].
Qed.

Lemma RemoveAll_frame name w r w' :
  Os.RemoveAll name w = (r, w') →
  Os.fds w' = Os.fds w
  ∧ match r with
    | inl _ => Os.fs w' = Os.fs w
    | inr _ => Os.fs w' = delete name (Os.fs w)
    end.
Proof.
  unfold Os.RemoveAll. io_unfold. unfold Os.io_fault.
  destruct (hd false (Os.faults w)); intros [= <- <-]; auto.
Qed.

(** Two directories that differ in one entry at most are the same without
    it. *)
Lemma only_at_delete_eq d (fs fs' : gmap string Os.node) :
  only_at d fs fs' → delete d fs' = delete d fs.
Proof.
  intros H. apply map_eq. intros k. destruct (decide (k = d)) as [->|Hk].
  - rewrite !lookup_delete_eq. reflexivity.
  - rewrite !lookup_delete_ne by congruence. apply H, Hk.
Qed.

Section SinkCycle.

Context (SnapshotVersionMin SnapshotVersionMax : Z).
Context {Transport : Type} (encodePeers : Configuration → Transport → list byte).

Local Abbreviation Close := (Close SnapshotVersionMin SnapshotVersionMax).
Local Abbreviation Close_sync_reap := (Close_sync_reap SnapshotVersionMin SnapshotVersionMax).
Local Abbreviation ReapSnapshots := (ReapSnapshots SnapshotVersionMin SnapshotVersionMax).

(** The tail of Close leaves no handle open, whatever fails. *)
Lemma Close_sync_reap_fds s w r w' :
  Close_sync_reap s w = (r, w') → Os.fds w' = Os.fds w.
Proof.
  unfold Snapshot.Close_sync_reap.
  destruct (negb (sinkNoSync s) && negb (Os.GOOS w =? "windows")%string).
  - unfold Os.Open_path, Os.Sync, Os.open_handle. io_unfold. unfold Os.io_fault.
    destruct (hd false (Os.faults w)); [intros [= <- <-]; auto|].
    world_cbn. destruct (hd false (tail (Os.faults w))).
    { unfold Os.Close, Os.io_fault. world_cbn. rewrite lookup_insert_eq.
      destruct (hd false _); intros [= <- <-]; world_cbn; apply delete_new_fd. }
    rewrite lookup_insert_eq.
    match goal with
    | |- context [ReapSnapshots (store s) ?x] =>
        destruct (ReapSnapshots (store s) x) as [rr wr] eqn:Hreap
    end.
    apply ReapSnapshots_effect in Hreap as [Hfds _]. cbn in Hfds.
    destruct (Os.Close _ wr) as [rc wc] eqn:Hc.
    apply Os_Close_frame in Hc as [_ Hc]; [|rewrite Hfds, lookup_insert_eq; eauto].
    destruct rr; intros [= <- <-]; rewrite Hc, Hfds; apply delete_new_fd.
  - intros Hreap. apply ReapSnapshots_effect in Hreap as [Hfds _]. exact Hfds.
Qed.

End SinkCycle.

(** ** Create, Write, Close and Cancel as seen from the rest of the store *)

Section SinkFrame.

Context (SnapshotVersionMin SnapshotVersionMax : Z).
Context {Transport : Type} (encodePeers : Configuration → Transport → list byte).

Local Abbreviation Close := (Close SnapshotVersionMin SnapshotVersionMax).
Local Abbreviation Close_sync_reap := (Close_sync_reap SnapshotVersionMin SnapshotVersionMax).
Local Abbreviation List := (List SnapshotVersionMin SnapshotVersionMax).
Local Abbreviation finalized_entry := (Spec.finalized_entry SnapshotVersionMin SnapshotVersionMax).
Local Abbreviation finalized := (Spec.finalized SnapshotVersionMin SnapshotVersionMax).

(** X4: whatever I/O call fails, Create changes at most one entry of the
    store's directory, whose name ends in [.tmp]; when it fails it leaves no
    handle open, and when it ends well that entry is the directory of the
    sink, named by the sink's ID and [.tmp], and the one handle it has opened
    is the sink's state file, at offset 0. A version other than 1 is refused
    before anything is touched. *)
Theorem Create_touches_tmp_only (f : FileSnapshotStore) (version : Z) (index term : N)
    (configuration : Configuration) (configurationIndex : N) (trans : Transport)
    (w : Os.World) :
  let '(r, w') :=
    Create encodePeers f version index term configuration configurationIndex trans w in
  (∃ d, HasSuffix d tmpSuffix = true
        ∧ (∀ k, k ≠ d → Os.fs w' !! k = Os.fs w !! k)
        ∧ match r with
          | inl _ => Os.fds w' = Os.fds w
          | inr s =>
              dir s = d ∧ d = ID_ s +:+ tmpSuffix
              ∧ Os.fds w !! stateFile s = None
              ∧ Os.fds w'
                = <[stateFile s := {| Os.h_target := Os.InDir d Os.StateFile;
                                      Os.h_off := 0 |}]> (Os.fds w)
          end)
  ∧ (version ≠ 1 →
     r = inl (Errorf ("unsupported snapshot version " +:+ fmt_d version)) ∧ w' = w).
Proof.
  destruct (Create encodePeers f version index term configuration configurationIndex trans w)
    as [r w'] eqn:HCreate.
  split.
  - apply Create_frame in HCreate as (name & Hfs & Hr).
    exists (name +:+ tmpSuffix). split; [apply HasSuffix_app|]. split; [exact Hfs|].
    destruct r as [e|s]; [exact Hr|].
    destruct Hr as (HID & Hdir & Hfresh & Hfds). rewrite HID, <- Hdir. auto.
  - intros Hv. unfold Create in HCreate.
    destruct (Z.eqb_spec version 1) as [?|_]; [contradiction|].
    cbn [negb] in HCreate. injection HCreate as <- <-. auto.
Qed.

(** X5: a Write on a sink whose state file is open changes no entry of the
    store's directory but the sink's own, of which it changes the bytes of the
    state file only; it changes no handle but that of the state file, and
    leaves the sink its directory and its ID. This whatever I/O call
    fails. *)
Theorem Write_touches_sink_only (s : FileSnapshotSink) (p : list byte) (w : Os.World) :
  handle_inv s w →
  let '(_, s', w') := Write s p w in
  (∀ k, k ≠ dir s → Os.fs w' !! k = Os.fs w !! k)
  ∧ strip <$> Os.fs w' = strip <$> Os.fs w
  ∧ (∀ fd, fd ≠ stateFile s → Os.fds w' !! fd = Os.fds w !! fd)
  ∧ handle_inv s' w'
  ∧ dir s' = dir s ∧ ID_ s' = ID_ s ∧ stateFile s' = stateFile s ∧ closed s' = closed s.
Proof.
  intros Hh. destruct (Write s p w) as [[r s'] w'] eqn:HW.
  pose proof (Write_same _ _ _ _ _ _ HW) as Hsame.
  pose proof (Write_step _ _ _ _ _ _ Hh HW) as Hstep.
  pose proof (Write_effect _ _ _ _ _ _ HW) as [Hstrip _].
  destruct Hsame as (Hd & _ & _ & Hsf & Hc & HID).
  split_and!; try assumption.
  - apply Hstep.
  - intros fd Hfd. destruct Hstep as [_ [off ->]]. apply lookup_insert_ne. congruence.
  - eapply handle_inv_same; [exact Hd | exact Hsf | eapply sink_step_handle; exact Hstep].
Qed.

(** X6: Write keeps the contract of io.Writer. Whatever fails, the number
    it returns is at most the length of the slice, and it is less only
    together with an error: a Write that returns no error has taken the whole
    slice. *)
Theorem Write_count (s : FileSnapshotSink) (p : list byte) (w : Os.World) :
  let '((n, e), _, _) := Write s p w in
  (n ≤ length p)%nat ∧ (e = None → n = length p) ∧ (n < length p → e ≠ None)%nat.
Proof.
  unfold Write, bufio_Write, bufio_Write_direct.
  destruct (err (buffered s)) as [e0|]; [split_and!; [lia | discriminate | discriminate]|].
  destruct (Nat.leb_spec (length p) (defaultBufSize - length (buf (buffered s)))) as [Hfit|Hbig].
  { split_and!; [lia | reflexivity | lia]. }
  destruct (_ =? _)%nat.
  { destruct (multi_Write s p w) as [[[e0|] s1] w1];
      split_and!; try lia; try discriminate; reflexivity. }
  set (avail := (defaultBufSize - length (buf (buffered s)))%nat) in *.
  match goal with
  | |- context [bufio_Flush ?x w] => destruct (bufio_Flush x w) as [[[e0|] s2] w2]
  end; [split_and!; [lia | discriminate | discriminate]|].
  assert (Hlen : (avail + length (drop avail p) = length p)%nat)
    by (rewrite length_drop; lia).
  destruct (_ <=? _)%nat; [split_and!; [lia | intros _; lia | lia]|].
  destruct (multi_Write s2 _ w2) as [[[e0|] s3] w3];
    split_and!; try lia; try discriminate; intros _; lia.
Qed.

(** A directory whose name ends in [.tmp] holds no finalized snapshot. *)
Lemma finalized_entry_tmp d n : HasSuffix d tmpSuffix = true → finalized_entry (d, n) = None.
Proof.
  intros H. unfold Spec.finalized_entry. cbn [fst snd]. rewrite H.
  destruct n as [|[[[|m]|] st]]; reflexivity.
Qed.

Lemma finalized_delete_tmp d fs :
  HasSuffix d tmpSuffix = true → finalized (delete d fs) ≡ₚ finalized fs.
Proof.
  intros H. destruct (fs !! d) as [n|] eqn:Hd.
  - unfold Spec.finalized. rewrite <- (map_to_list_delete fs d n Hd).
    cbn [omap list_omap]. rewrite (finalized_entry_tmp d n H). reflexivity.
  - rewrite delete_id by exact Hd. reflexivity.
Qed.

(** The finalized snapshots do not depend on the temporary directories. *)
Lemma finalized_only_at_tmp d fs fs' :
  HasSuffix d tmpSuffix = true → only_at d fs fs' → finalized fs' ≡ₚ finalized fs.
Proof.
  intros H Hfs. rewrite <- (finalized_delete_tmp d fs' H), <- (finalized_delete_tmp d fs H).
  rewrite (only_at_delete_eq d fs fs' Hfs). reflexivity.
Qed.

(** What Create and the Writes that follow it have done, whatever failed. *)
Lemma pending_frame f index term configuration configurationIndex trans chunks w0 s0 w1 s w :
  Create encodePeers f 1 index term configuration configurationIndex trans w0 = (inr s0, w1) →
  WriteAll s0 chunks w1 = (s, w) →
  sink_same s0 s
  ∧ dir s0 = ID_ s0 +:+ tmpSuffix
  ∧ closed s0 = false
  ∧ only_at (dir s0) (Os.fs w0) (Os.fs w)
  ∧ Os.fds w0 !! stateFile s0 = None
  ∧ ∃ off, Os.fds w = <[stateFile s0 := {| Os.h_target := Os.InDir (dir s0) Os.StateFile;
                                           Os.h_off := off |}]> (Os.fds w0).
Proof.
  intros HCreate HWrite.
  pose proof (Create_inv _ _ _ _ _ _ _ _ _ _ _ HCreate) as (_ & _ & _ & Hclosed & _).
  apply Create_frame in HCreate as (name & Hfs1 & HID & Hdir & Hfresh & Hfds1).
  assert (Hh : handle_inv s0 w1) by (exists 0%nat; rewrite Hfds1; apply lookup_insert_eq).
  pose proof (WriteAll_same _ _ _ _ _ HWrite) as Hsame.
  apply (WriteAll_step _ _ _ _ _ Hh) in HWrite as [Hfs [off Hfds]].
  rewrite <- Hdir in Hfs1.
  split_and!; try assumption; [congruence | eapply only_at_trans; eassumption|].
  exists off. rewrite Hfds, Hfds1. apply insert_insert_eq.
Qed.

(** X7: a snapshot that is being written is not listed. After Create and any
    Writes, whatever failed during them, a List during which no I/O call
    fails returns the first [retain], newest first, of the snapshots that
    were finalized before Create. *)
Theorem pending_snapshot_not_listed (f : FileSnapshotStore) (index term : N)
    (configuration : Configuration) (configurationIndex : N) (trans : Transport)
    (chunks : list (list byte))
    (w0 : Os.World) (s0 : FileSnapshotSink) (w1 : Os.World)
    (s : FileSnapshotSink) (w : Os.World) :
  Create encodePeers f 1 index term configuration configurationIndex trans w0 = (inr s0, w1) →
  WriteAll s0 chunks w1 = (s, w) →
  Os.faults w = [] →
  1 ≤ retain f →
  ∃ l, l ≡ₚ finalized (Os.fs w0)
       ∧ List f w
         = (inr (map SnapshotMeta_
                   (take (Z.to_nat (retain f)) (sort_Sort (sort_Reverse Less) l))), w).
Proof.
  intros HCreate HWrite Hrel Hr.
  destruct (pending_frame _ _ _ _ _ _ _ _ _ _ _ _ HCreate HWrite)
    as (_ & Hdir & _ & Hfs & _).
  exists (finalized (Os.fs w)). split.
  - apply (finalized_only_at_tmp (dir s0)); [rewrite Hdir; apply HasSuffix_app | exact Hfs].
  - apply List_take; [exact Hr|]. apply getSnapshots_reliable. exact Hrel.
Qed.

(** X8: Cancel undoes Create, or leaves the temporary directory behind.
    After Create and any Writes, whatever fails, Cancel marks the sink closed
    and changes no entry of the store's directory but the temporary
    directory. When it ends well it has removed that directory and closed the
    state file: the handles are those open before Create, and the store's
    directory is as it was before Create, less the entry under the temporary
    name if there was one. When it returns an error (that of finalize, or
    that of the removal) the temporary directory is still there. *)
Theorem Cancel_undoes_Create (f : FileSnapshotStore) (index term : N)
    (configuration : Configuration) (configurationIndex : N) (trans : Transport)
    (chunks : list (list byte))
    (w0 : Os.World) (s0 : FileSnapshotSink) (w1 : Os.World)
    (s : FileSnapshotSink) (w : Os.World) :
  Create encodePeers f 1 index term configuration configurationIndex trans w0 = (inr s0, w1) →
  WriteAll s0 chunks w1 = (s, w) →
  let '(r, s', w') := Cancel s w in
  closed s' = true
  ∧ (∀ k, k ≠ dir s0 → Os.fs w' !! k = Os.fs w0 !! k)
  ∧ match r with
    | None =>
        Os.fs w' = delete (dir s0) (Os.fs w0)
        ∧ (Os.fs w0 !! dir s0 = None → Os.fs w' = Os.fs w0)
        ∧ Os.fds w' = Os.fds w0
    | Some _ => is_Some (Os.fs w' !! dir s0)
    end.
Proof.
  intros HCreate HWrite.
  pose proof (Create_inv _ _ _ _ _ _ _ _ _ _ _ HCreate) as (_ & (sd0 & Hsd0 & _) & _).
  pose proof (WriteAll_effect _ _ _ _ _ HWrite) as Hws.
  destruct (pending_frame _ _ _ _ _ _ _ _ _ _ _ _ HCreate HWrite)
    as (Hsame & _ & Hclosed0 & Hfs & Hfresh & off & Hfds).
  destruct Hsame as (Hdir & _ & _ & Hsf & Hclosed & _).
  assert (Hthere : is_Some (Os.fs w !! dir s0)).
  { apply (world_step_is_Some w1 w); [exact Hws | rewrite Hsd0; eauto]. }
  assert (Hh : handle_inv (set_closed true s) w).
  { exists off. cbn [stateFile dir set_closed]. rewrite Hsf, Hdir, Hfds. apply lookup_insert_eq. }
  unfold Cancel. rewrite Hclosed, Hclosed0.
  destruct (finalize (set_closed true s) w) as [[r1 s1] w2] eqn:Hfin.
  pose proof (finalize_effect _ _ _ _ _ Hfin) as [(Hd1 & _ & _ & _ & Hc1 & _) Hws2].
  cbn in Hd1, Hc1.
  pose proof (finalize_handle_cases _ _ _ _ _ Hh Hfin) as [Hfs2 _].
  cbn [dir set_closed] in Hfs2. rewrite Hdir in Hfs2.
  assert (Hfs02 : only_at (dir s0) (Os.fs w0) (Os.fs w2))
    by (eapply only_at_trans; eassumption).
  destruct r1 as [e|].
  { split_and!; [exact Hc1 | exact Hfs02|]. apply (world_step_is_Some w w2); assumption. }
  apply finalize_ok_frame in Hfin as [_ Hfds2]; [|exact Hh].
  cbn [stateFile set_closed] in Hfds2.
  destruct (Os.RemoveAll (dir s1) w2) as [[e|[]] w3] eqn:Hrm;
    apply RemoveAll_frame in Hrm as [Hfds3 Hfs3].
  { split_and!; [exact Hc1 | rewrite Hfs3; exact Hfs02|].
    rewrite Hfs3. apply (world_step_is_Some w w2); assumption. }
  assert (Hfs' : Os.fs w3 = delete (dir s0) (Os.fs w0)).
  { rewrite Hfs3, Hd1, Hdir. apply only_at_delete_eq. exact Hfs02. }
  split_and!; [exact Hc1 | | exact Hfs' | |].
  - intros k Hk. rewrite Hfs'. apply lookup_delete_ne. congruence.
  - intros Hnone. rewrite Hfs'. apply delete_id. exact Hnone.
  - rewrite Hfds3, Hfds2, Hsf, Hfds, delete_insert_eq. apply delete_id. exact Hfresh.
Qed.

(** X11: a snapshot written to its end leaves no handle open and no
    temporary directory. After Create, any Writes and a Close that ends well,
    whatever failed on the way, the handles are those open before Create, the
    temporary directory is gone, and every other entry of the store's
    directory, but the one under the ID of the snapshot, is as it was before
    Create or has been removed. *)
Theorem Close_leaves_no_handle (f : FileSnapshotStore) (index term : N)
    (configuration : Configuration) (configurationIndex : N) (trans : Transport)
    (chunks : list (list byte))
    (w0 : Os.World) (s0 : FileSnapshotSink) (w1 : Os.World)
    (s : FileSnapshotSink) (w : Os.World) (s' : FileSnapshotSink) (w' : Os.World) :
  Create encodePeers f 1 index term configuration configurationIndex trans w0 = (inr s0, w1) →
  WriteAll s0 chunks w1 = (s, w) →
  Close s w = (None, s', w') →
  Os.fds w' = Os.fds w0
  ∧ Os.fs w' !! dir s0 = None
  ∧ (∀ k, k ≠ dir s0 → k ≠ ID_ s0 →
          Os.fs w' !! k = Os.fs w0 !! k ∨ Os.fs w' !! k = None).
Proof.
  intros HCreate HWrite HClose.
  destruct (pending_frame _ _ _ _ _ _ _ _ _ _ _ _ HCreate HWrite)
    as (Hsame & Hname & Hclosed0 & Hfs & Hfresh & off & Hfds).
  destruct Hsame as (Hdir & _ & _ & Hsf & Hclosed & HID).
  apply Close_ok_inv in HClose as (x1 & x2 & x3 & Hfin & Hwm & Hren & Hreap);
    [|congruence].
  pose proof (finalize_effect _ _ _ _ _ Hfin) as [(Hd1 & _ & _ & _ & _ & HID1) _].
  cbn in Hd1. change (ID_ s' = ID_ s) in HID1.
  apply finalize_ok_frame in Hfin as [Hfs1 Hfds1].
  2:{ exists off. cbn [stateFile dir set_closed]. rewrite Hsf, Hdir, Hfds. apply lookup_insert_eq. }
  cbn [stateFile dir set_closed] in Hfs1, Hfds1.
  apply writeMeta_frame in Hwm as [Hfs2 Hfds2].
  apply Rename_effect in Hren as (n & Hn & Hfs3 & Hfds3 & _).
  pose proof (Close_sync_reap_fds _ _ _ _ _ _ Hreap) as Hfds4.
  pose proof (Close_sync_reap_effect _ _ _ _ _ _ Hreap) as Hfs4.
  assert (Hd' : dir s' = dir s0) by congruence.
  assert (Hnew : TrimSuffix (dir s') tmpSuffix = ID_ s0).
  { rewrite Hd', Hname. apply TrimSuffix_app. }
  rewrite Hnew, Hd' in Hfs3. rewrite Hd' in Hfs2. rewrite Hdir in Hfs1.
  split_and!.
  - rewrite Hfds4, Hfds3, Hfds2, Hfds1, Hsf, Hfds, delete_insert_eq. apply delete_id, Hfresh.
  - destruct (Hfs4 (dir s0)) as [Hk|Hk]; [|exact Hk].
    rewrite Hk, Hfs3, lookup_insert_ne, lookup_delete_eq; [reflexivity|].
    rewrite Hname. intros Heq. symmetry in Heq. exact (app_tmpSuffix_neq _ Heq).
  - intros k Hk1 Hk2. destruct (Hfs4 k) as [Hk|Hk]; [left | right; exact Hk].
    rewrite Hk, Hfs3, lookup_insert_ne, lookup_delete_ne by congruence.
    rewrite (Hfs2 k Hk1), (Hfs1 k Hk1). apply Hfs, Hk1.
Qed.


(** X9: finalize closes the state file, unless the flush or the fsync of
    the state file fails: it then returns that error with the file still
    open. In no case does it touch an entry of the store's directory other
    than the sink's. *)
Theorem finalize_leaves_file_open (s : FileSnapshotSink) (w : Os.World) :
  handle_inv s w →
  let '(r, _, w') := finalize s w in
  (∀ k, k ≠ dir s → Os.fs w' !! k = Os.fs w !! k)
  ∧ match bufio_Flush s w with
    | (Some e, _, _) => r = Some e ∧ is_Some (Os.fds w' !! stateFile s)
    | (None, _, w1) =>
        match (if negb (sinkNoSync s) then Os.Sync (stateFile s) w1 else (inr tt, w1)) with
        | (inl e, _) => r = Some e ∧ is_Some (Os.fds w' !! stateFile s)
        | (inr _, _) => Os.fds w' = delete (stateFile s) (Os.fds w)
        end
    end.
Proof.
  intros Hh. destruct (finalize s w) as [[r s'] w'] eqn:Hfin.
  destruct (finalize_handle_cases _ _ _ _ _ Hh Hfin) as [Hfs Hcases].
  split; [exact Hfs|].
  assert (Hopen : sink_step s w w' → is_Some (Os.fds w' !! stateFile s)).
  { intros Hstep. destruct (sink_step_handle _ _ _ Hstep) as [off Ho]. rewrite Ho. eauto. }
  destruct (bufio_Flush s w) as [[[e|] s1] w1]; [destruct Hcases; auto|].
  destruct (if negb (sinkNoSync s) then _ else _) as [[e|[]] w2];
    [destruct Hcases; auto | exact Hcases].
Qed.

(** A Write that returns an error leaves the error in the buffered writer. *)
Lemma Write_error_sticks s p w n e s' w' :
  Write s p w = ((n, Some e), s', w') → err (buffered s') ≠ None.
Proof.
  unfold Write, bufio_Write, bufio_Write_direct.
  destruct (err (buffered s)) eqn:Herr; [intros [= <- <- <- <-]; congruence|].
  destruct (_ <=? _)%nat; [discriminate|].
  destruct (_ =? _)%nat.
  { destruct (multi_Write s p w) as [[[e0|] s1] w1]; intros [= <- <- <- <-]; discriminate. }
  match goal with
  | |- context [bufio_Flush ?x w] => destruct (bufio_Flush x w) as [[[e0|] s2] w2] eqn:Hf
  end.
  - apply bufio_Flush_meta in Hf as [_ Hf]. intros [= <- <- <- <-]. apply Hf. discriminate.
  - destruct (_ <=? _)%nat; [discriminate|].
    destruct (multi_Write s2 _ w2) as [[[e0|] s3] w3]; intros [= <- <- <- <-]; discriminate.
Qed.

(** Once the buffered writer has met an error, the Writes write nothing. *)
Lemma WriteAll_after_error chunks s w :
  err (buffered s) ≠ None → WriteAll s chunks w = (s, w).
Proof.
  intros Herr. induction chunks as [|b chunks IH]; [reflexivity|].
  cbn [WriteAll]. unfold Write, bufio_Write.
  destruct (err (buffered s)); [exact IH | contradiction].
Qed.

(** X10: a snapshot one of whose Writes has failed is never put in place.
    Once a Write on an open sink has returned an error, the later Writes
    write nothing, and Close returns an error, installs nothing (no entry of
    the store's directory appears that was not there) and leaves the state
    file open. *)
Theorem failed_Write_never_installed (s : FileSnapshotSink) (p : list byte) (w : Os.World)
    (n : nat) (e : error) (s1 : FileSnapshotSink) (w1 : Os.World)
    (chunks : list (list byte)) :
  handle_inv s w →
  closed s = false →
  Write s p w = ((n, Some e), s1, w1) →
  WriteAll s1 chunks w1 = (s1, w1)
  ∧ let '(r, _, w') := Close s1 w1 in
    r ≠ None
    ∧ (∀ k, Os.fs w1 !! k = None → Os.fs w' !! k = None)
    ∧ is_Some (Os.fds w' !! stateFile s).
Proof.
  intros Hh Hclosed HW.
  pose proof (Write_error_sticks _ _ _ _ _ _ _ HW) as Herr.
  pose proof (Write_same _ _ _ _ _ _ HW) as (Hd & _ & _ & Hsf & Hc & _).
  pose proof (Write_step _ _ _ _ _ _ Hh HW) as Hstep.
  split; [apply WriteAll_after_error, Herr|].
  unfold Snapshot.Close. rewrite Hc, Hclosed. unfold finalize, bufio_Flush.
  cbn [buffered set_closed]. destruct (err (buffered s1)) as [e1|]; [|contradiction].
  cbn [dir set_closed].
  destruct (Os.RemoveAll (dir s1) w1) as [[delErr|[]] w2] eqn:Hrm;
    apply RemoveAll_frame in Hrm as [Hfds Hfs].
  all: split; [discriminate|]; split.
  all: try (rewrite Hfds; destruct (sink_step_handle _ _ _ Hstep) as [off ->]; eauto).
  - intros k Hk. rewrite Hfs. exact Hk.
  - intros k Hk. rewrite Hfs. apply lookup_delete_None. auto.
Qed.

(** X12: an error of Close need not mean that the snapshot is not there.
    When finalize, writeMeta and the Rename have gone well and what follows
    fails (the fsync of the parent directory, or the reap), Close returns that
    error although the snapshot stands under its final name, with the
    metadata of the sink; the temporary directory is gone, and what follows
    the Rename has only removed entries. *)
Theorem Close_fails_after_install (s : FileSnapshotSink) (w : Os.World)
    (s1 : FileSnapshotSink) (w1 w2 w3 : Os.World) (e : error) (w' : Os.World) :
  closed s = false →
  dir s = ID_ s +:+ tmpSuffix →
  finalize (set_closed true s) w = (None, s1, w1) →
  writeMeta s1 w1 = (inr tt, w2) →
  Os.Rename (dir s) (ID_ s) w2 = (inr tt, w3) →
  Close_sync_reap s1 w3 = (inl e, w') →
  Close s w = (Some e, s1, w')
  ∧ (∃ sd, Os.fs w3 !! ID_ s = Some (Os.NDir sd)
           ∧ Os.meta_json sd = Some (Os.Encoded (meta s1)))
  ∧ Os.fs w3 !! dir s = None
  ∧ (∀ k, Os.fs w' !! k = Os.fs w3 !! k ∨ Os.fs w' !! k = None).
Proof.
  intros Hclosed Hname Hfin Hwm Hren Hreap.
  pose proof (finalize_effect _ _ _ _ _ Hfin) as [(Hd1 & _) _]. cbn in Hd1.
  assert (Hnew : TrimSuffix (dir s1) tmpSuffix = ID_ s).
  { rewrite Hd1, Hname. apply TrimSuffix_app. }
  split_and!.
  - unfold Snapshot.Close. rewrite Hclosed, Hfin. io_unfold.
    rewrite Hwm, Hnew, Hd1, Hren, Hreap. reflexivity.
  - apply writeMeta_effect in Hwm as (sd & Hsd & Hfs2 & _).
    apply Rename_effect in Hren as (n & Hn & Hfs3 & _).
    rewrite Hfs2, <- Hd1, lookup_insert_eq in Hn. injection Hn as <-.
    eexists. rewrite Hfs3, lookup_insert_eq. split; reflexivity.
  - apply Rename_effect in Hren as (n & Hn & Hfs3 & _).
    rewrite Hfs3, lookup_insert_ne, lookup_delete_eq; [reflexivity|].
    rewrite Hname. intros Heq. symmetry in Heq. exact (app_tmpSuffix_neq _ Heq).
  - apply (Close_sync_reap_effect _ _ _ _ _ _ Hreap).
Qed.


End SinkFrame.

(** ** Open, List and ReapSnapshots as seen from the rest of the store *)

(** A readMeta that ends well has read the meta.json of a directory. *)
Lemma readMeta_ok_inv name w fm w' :
  readMeta name w = (inr fm, w') →
  ∃ sd, Os.fs w !! name = Some (Os.NDir sd) ∧ Os.meta_json sd = Some (Os.Encoded fm).
Proof.
  intros Hrm. destruct (Os.fs w !! name) as [[|sd]|] eqn:Hid.
  - exfalso. revert Hrm. unfold readMeta. os_unfold.
    destruct w as [wfs wfds wfl wclock wgoos]. world_cbn. rewrite Hid.
    repeat crunch1; discriminate.
  - exists sd. split; [reflexivity|]. eapply readMeta_value; eassumption.
  - exfalso. revert Hrm. unfold readMeta. os_unfold.
    destruct w as [wfs wfds wfl wclock wgoos]. world_cbn. rewrite Hid.
    repeat crunch1; discriminate.
Qed.

(** What Open does, whatever fails. *)
Lemma Open_frame f id w r w' :
  Open f id w = (r, w') →
  Os.fs w' = Os.fs w
  ∧ match r with
    | inl _ => Os.fds w' = Os.fds w
    | inr (m, b) =>
        Os.fds w !! fh b = None
        ∧ Os.fds w' = <[fh b := {| Os.h_target := Os.InDir id Os.StateFile;
                                   Os.h_off := 0 |}]> (Os.fds w)
        ∧ ∃ fm content,
            Os.fs w !! id = Some (Os.NDir {| Os.meta_json := Some (Os.Encoded fm);
                                             Os.state_bin := Some content |})
            ∧ m = SnapshotMeta_ fm
            ∧ CRC fm = Crc64.checksum content
    end.
Proof.
  unfold Open. io_unfold.
  destruct (readMeta id w) as [[e|fm] w1] eqn:Hrm.
  { apply readMeta_frame in Hrm. intros [= <- <-]. exact Hrm. }
  pose proof (readMeta_frame _ _ _ _ Hrm) as [Hfs1 Hfds1].
  pose proof (readMeta_ok_inv _ _ _ _ Hrm) as Hdir.
  destruct Hdir as ([mj st] & Hid & Hmj). cbn in Hmj. subst mj.
  rewrite <- Hfs1 in Hid. rewrite <- Hfs1, <- Hfds1. clear Hrm Hfs1 Hfds1 w.
  destruct w1 as [wfs wfds wfl wclock wgoos]. os_unfold. world_cbn.
  rewrite Hid. destruct st as [content|]; world_cbn.
  2:{ repeat crunch1; intros [= <- <-]; auto. }
  destruct (bytes_Equal (CRC fm) (Crc64.Sum (Crc64.Write Crc64.New content))) eqn:Hb.
  all: repeat first
    [ progress world_cbn
    | progress rewrite ?lookup_insert_eq, ?delete_new_fd, ?insert_insert_eq, ?Hid, ?drop_0
    | progress rewrite ?Hb
    | progress cbn [negb]
    | fault_case ];
    intros [= <- <-]; world_cbn; rewrite ?delete_new_fd; (split; [reflexivity|]);
    try reflexivity.
  all: split; [apply not_elem_of_dom, is_fresh|]; split; [reflexivity|].
  all: exists fm, content; split_and!; try reflexivity.
  all: unfold bytes_Equal in Hb; apply bool_decide_eq_true_1 in Hb; exact Hb.
Qed.

(** X13: whatever I/O call fails, Open changes nothing in the store's
    directory. When it fails it leaves no handle open. When it returns a
    reader, the snapshot is in the directory with its state file, the
    CRC64-ECMA of the state file is the CRC that meta.json records, the
    metadata returned is that of meta.json, and the reader is the one handle
    that Open has left open, a new one, on the state file at offset 0. *)
Theorem Open_returns_verified_reader (f : FileSnapshotStore) (id : string) (w : Os.World) :
  let '(r, w') := Open f id w in
  Os.fs w' = Os.fs w
  ∧ match r with
    | inl _ => Os.fds w' = Os.fds w
    | inr (m, b) =>
        Os.fds w !! fh b = None
        ∧ Os.fds w' = <[fh b := {| Os.h_target := Os.InDir id Os.StateFile;
                                   Os.h_off := 0 |}]> (Os.fds w)
        ∧ ∃ fm content,
            Os.fs w !! id = Some (Os.NDir {| Os.meta_json := Some (Os.Encoded fm);
                                             Os.state_bin := Some content |})
            ∧ m = SnapshotMeta_ fm
            ∧ CRC fm = Crc64.checksum content
    end.
Proof.
  destruct (Open f id w) as [r w'] eqn:HOpen. apply (Open_frame f id w r w' HOpen).
Qed.

(** X14: the reader that Open returns reads the bytes of the state file,
    whose CRC64-ECMA is the one recorded, when its read does not fail; and
    closing the reader, before or after reading, leaves the handles as they
    were before Open, whether the close reports an error or not. *)
Theorem reader_reads_and_closes (f : FileSnapshotStore) (id : string) (w : Os.World)
    (m : SnapshotMeta) (b : bufferedFile) (w1 : Os.World) :
  Open f id w = (inr (m, b), w1) →
  (let '(_, w2) := bufferedFile_Close b w1 in
   Os.fds w2 = Os.fds w ∧ Os.fs w2 = Os.fs w)
  ∧ let '(r, w2) := bufferedFile_ReadAll b w1 in
    (∀ content, r = inr content →
       ∃ fm, Os.fs w !! id = Some (Os.NDir {| Os.meta_json := Some (Os.Encoded fm);
                                              Os.state_bin := Some content |})
             ∧ m = SnapshotMeta_ fm ∧ CRC fm = Crc64.checksum content)
    ∧ (Os.faults w1 = [] → ∃ content, r = inr content)
    ∧ let '(_, w3) := bufferedFile_Close b w2 in
      Os.fds w3 = Os.fds w ∧ Os.fs w3 = Os.fs w.
Proof.
  intros HOpen.
  apply Open_frame in HOpen as (Hfs & Hfresh & Hfds & fm & content & Hid & Hm & Hcrc).
  assert (Hclose : ∀ x, Os.fs x = Os.fs w →
            (∃ h, Os.fds x = <[fh b := h]> (Os.fds w)) →
            let '(_, x') := bufferedFile_Close b x in
            Os.fds x' = Os.fds w ∧ Os.fs x' = Os.fs w).
  { intros x Hx [h Hh]. unfold bufferedFile_Close.
    destruct (Os.Close (fh b) x) as [rc x'] eqn:Hc.
    apply Os_Close_frame in Hc as [Hc1 Hc2]; [|rewrite Hh, lookup_insert_eq; eauto].
    split; [|congruence]. rewrite Hc2, Hh, delete_insert_eq. apply delete_id, Hfresh. }
  split; [apply Hclose; eauto|].
  unfold bufferedFile_ReadAll, Os.ReadToEnd, Os.state_of. io_unfold. unfold Os.io_fault.
  destruct (hd false (Os.faults w1)) eqn:Hhd.
  { split_and!; [discriminate | intros Hrel; rewrite Hrel in Hhd; discriminate|].
    apply Hclose; world_cbn; eauto. }
  world_cbn. rewrite Hfds, lookup_insert_eq. world_cbn. rewrite Hfs, Hid. world_cbn.
  rewrite drop_0.
  split_and!; [intros ? [= <-]; eauto | eauto|].
  apply Hclose; world_cbn; [reflexivity|]. rewrite ?Hfds, insert_insert_eq. eauto.
Qed.

Section ReadOnly.

Context (SnapshotVersionMin SnapshotVersionMax : Z).

Local Abbreviation getSnapshots_loop := (getSnapshots_loop SnapshotVersionMin SnapshotVersionMax).
Local Abbreviation getSnapshots := (getSnapshots SnapshotVersionMin SnapshotVersionMax).
Local Abbreviation ReapSnapshots := (ReapSnapshots SnapshotVersionMin SnapshotVersionMax).
Local Abbreviation List := (List SnapshotVersionMin SnapshotVersionMax).
Local Abbreviation finalized_entry := (Spec.finalized_entry SnapshotVersionMin SnapshotVersionMax).
Local Abbreviation finalized := (Spec.finalized SnapshotVersionMin SnapshotVersionMax).
Local Abbreviation names_consistent := (Spec.names_consistent SnapshotVersionMin SnapshotVersionMax).
Local Abbreviation reaped := (Spec.reaped SnapshotVersionMin SnapshotVersionMax).

Lemma getSnapshots_loop_sound entries acc w l w' :
  getSnapshots_loop entries acc w = (inr l, w') →
  ∀ fm, fm ∈ l →
    fm ∈ acc
    ∨ ∃ name sd,
        Os.fs w !! name = Some (Os.NDir sd)
        ∧ Os.meta_json sd = Some (Os.Encoded fm)
        ∧ HasSuffix name tmpSuffix = false
        ∧ SnapshotVersionMin ≤ Version (SnapshotMeta_ fm) ≤ SnapshotVersionMax.
Proof.
  revert acc w. induction entries as [|[name isDir] entries IH]; intros acc w.
  - simpl. intros [= <- <-]. auto.
  - cbn [Snapshot.getSnapshots_loop].
    destruct (negb isDir); [apply IH|].
    destruct (HasSuffix name tmpSuffix) eqn:Htmp; [apply IH|].
    io_unfold. destruct (readMeta name w) as [rm w1] eqn:Hrm.
    pose proof (readMeta_frame _ _ _ _ Hrm) as [Hfs _].
    destruct rm as [e|m].
    { intros Hl fm Hfm. destruct (IH _ _ Hl fm Hfm) as [?|(n & sd & Hn & ?)]; [auto|].
      right. exists n, sd. rewrite <- Hfs. auto. }
    destruct (Z.ltb_spec (Version (SnapshotMeta_ m)) SnapshotVersionMin) as [?|Hmin];
      cbn [orb].
    { intros Hl fm Hfm. destruct (IH _ _ Hl fm Hfm) as [?|(n & sd & Hn & ?)]; [auto|].
      right. exists n, sd. rewrite <- Hfs. auto. }
    destruct (Z.ltb_spec SnapshotVersionMax (Version (SnapshotMeta_ m))) as [?|Hmax].
    { intros Hl fm Hfm. destruct (IH _ _ Hl fm Hfm) as [?|(n & sd & Hn & ?)]; [auto|].
      right. exists n, sd. rewrite <- Hfs. auto. }
    intros Hl fm Hfm. destruct (IH _ _ Hl fm Hfm) as [Hin|(n & sd & Hn & ?)].
    + apply elem_of_app in Hin as [?|Hin]; [auto|]. apply list_elem_of_singleton in Hin as ->.
      right. apply readMeta_ok_inv in Hrm as (sd & Hsd & Hmj).
      exists name, sd. split_and!; auto.
    + right. exists n, sd. rewrite <- Hfs. auto.
Qed.

(** Whatever fails, what getSnapshots returns has been read from the
    meta.json of directories of the store. *)
Lemma getSnapshots_sound f w l w' :
  getSnapshots f w = (inr l, w') →
  ∀ fm, fm ∈ l →
    ∃ name sd,
      Os.fs w !! name = Some (Os.NDir sd)
      ∧ Os.meta_json sd = Some (Os.Encoded fm)
      ∧ HasSuffix name tmpSuffix = false
      ∧ SnapshotVersionMin ≤ Version (SnapshotMeta_ fm) ≤ SnapshotVersionMax.
Proof.
  unfold Snapshot.getSnapshots, Os.ReadDir. io_unfold. unfold Os.io_fault.
  destruct (hd false (Os.faults w)); [discriminate|].
  match goal with
  | |- context [getSnapshots_loop ?l ?a ?x] =>
      destruct (getSnapshots_loop l a x) as [[e|sm] w1] eqn:Hloop
  end; [discriminate|].
  intros [= <- <-] fm Hfm. rewrite sort_Sort_perm in Hfm.
  destruct (getSnapshots_loop_sound _ _ _ _ _ Hloop fm Hfm) as [Hin|H]; [inversion Hin|].
  exact H.
Qed.

Lemma List_loop_elem r l acc m :
  m ∈ List_loop r l acc → m ∈ acc ∨ m ∈ (SnapshotMeta_ <$> l).
Proof.
  revert acc. induction l as [|fm l IH]; intros acc; cbn [List_loop]; [auto|].
  destruct (_ =? _).
  - intros Hin. apply elem_of_app in Hin as [?|Hin]; [auto|].
    apply list_elem_of_singleton in Hin as ->. right. left.
  - intros Hin. apply IH in Hin as [Hin|Hin]; [|right; right; exact Hin].
    apply elem_of_app in Hin as [?|Hin]; [auto|].
    apply list_elem_of_singleton in Hin as ->. right. left.
Qed.

(** X15: List only reads. Whatever I/O call fails, and whatever the
    directory holds, it leaves the store's directory as it found it and no
    handle open; and every entry it returns is the metadata that some
    directory of the store holds in its meta.json, with a version within the
    supported bounds, the directory being none whose name ends in [.tmp]. *)
Theorem List_only_reads (f : FileSnapshotStore) (w : Os.World) :
  let '(r, w') := List f w in
  Os.fs w' = Os.fs w
  ∧ Os.fds w' = Os.fds w
  ∧ ∀ metas m, r = inr metas → m ∈ metas →
      ∃ name sd fm,
        Os.fs w !! name = Some (Os.NDir sd)
        ∧ Os.meta_json sd = Some (Os.Encoded fm)
        ∧ m = SnapshotMeta_ fm
        ∧ HasSuffix name tmpSuffix = false
        ∧ SnapshotVersionMin ≤ Version m ≤ SnapshotVersionMax.
Proof.
  destruct (List f w) as [r w'] eqn:HList. unfold Snapshot.List in HList.
  revert HList. io_unfold.
  destruct (getSnapshots f w) as [rl w1] eqn:Hget.
  pose proof (getSnapshots_frame _ _ _ _ _ _ Hget) as [Hfs Hfds].
  destruct rl as [e|l]; intros [= <- <-]; (split; [exact Hfs|]; split; [exact Hfds|]);
    [discriminate|].
  intros metas m [= <-] Hm.
  apply List_loop_elem in Hm as [Hm|Hm]; [inversion Hm|].
  apply list_elem_of_fmap in Hm as (fm & -> & Hfm).
  destruct (getSnapshots_sound _ _ _ _ Hget fm Hfm) as (name & sd & H1 & H2 & H3 & H4).
  exists name, sd, fm. auto.
Qed.

Lemma foldl_delete_lookup_ne (l : list fileSnapshotMeta) (fs : gmap string Os.node) k :
  (∀ fm, fm ∈ l → ID (SnapshotMeta_ fm) ≠ k) →
  foldl (λ m snap, delete (ID (SnapshotMeta_ snap)) m) fs l !! k = fs !! k.
Proof.
  revert fs. induction l as [|fm l IH]; intros fs Hl; [reflexivity|].
  cbn [foldl]. rewrite IH by (intros x Hx; apply Hl; right; exact Hx).
  apply lookup_delete_ne. apply Hl. left.
Qed.

(** X16: ReapSnapshots removes finalized snapshots and nothing else. In a
    directory whose finalized snapshots lie under their IDs, and with no I/O
    call failing, it ends well, opens no handle, adds no entry, and leaves
    every entry that is not a finalized snapshot (a plain file, a temporary
    directory, a directory whose meta.json is missing, unreadable or of an
    unsupported version) as it is; and when the finalized snapshots are no
    more than [retain] it changes nothing at all. *)
Theorem ReapSnapshots_spares (f : FileSnapshotStore) (w : Os.World) :
  Os.faults w = [] →
  0 ≤ retain f →
  names_consistent (Os.fs w) →
  let '(r, w') := ReapSnapshots f w in
  r = inr tt
  ∧ Os.fds w' = Os.fds w
  ∧ (∀ k, Os.fs w !! k = None → Os.fs w' !! k = None)
  ∧ (∀ k node, Os.fs w !! k = Some node → finalized_entry (k, node) = None →
               Os.fs w' !! k = Some node)
  ∧ (Z.of_nat (length (finalized (Os.fs w))) ≤ retain f → Os.fs w' = Os.fs w).
Proof.
  intros Hrel Hr Hc. rewrite (ReapSnapshots_reliable _ _ f w Hrel Hr).
  cbn [Os.fs Os.fds Os.set_fs]. unfold Spec.reaped.
  set (sorted := sort_Sort (sort_Reverse Less) (finalized (Os.fs w))).
  assert (Hsorted : ∀ fm, fm ∈ drop (Z.to_nat (retain f)) sorted → fm ∈ finalized (Os.fs w)).
  { intros fm Hfm. apply (subseteq_drop _ sorted) in Hfm. unfold sorted in Hfm.
    rewrite sort_Sort_perm in Hfm. exact Hfm. }
  split_and!; try reflexivity.
  - intros k Hk.
    generalize (drop (Z.to_nat (retain f)) sorted). intros l. revert Hk.
    generalize (Os.fs w). induction l as [|fm l IH]; intros fs Hk; [exact Hk|].
    cbn [foldl]. apply IH. apply lookup_delete_None. auto.
  - intros k node Hk Hnone. rewrite foldl_delete_lookup_ne; [exact Hk|].
    intros fm Hfm Heq. apply Hsorted in Hfm.
    apply list_elem_of_omap in Hfm as ([name node'] & He & Hfe).
    apply elem_of_map_to_list in He.
    pose proof (Hc name node' He) as Hname. cbn beta in Hname. rewrite Hfe in Hname.
    rewrite <- Hname, Heq in He, Hfe. rewrite Hk in He. injection He as <-. congruence.
  - intros Hlen. rewrite drop_ge; [reflexivity|].
    unfold sorted. rewrite sort_Sort_perm. lia.
Qed.

(** X17: what writeMeta has written, readMeta reads. A writeMeta that ends
    well has opened no handle that it has not closed and has changed no entry
    but that of the sink's directory; and a readMeta of that directory, when
    none of its I/O calls fails, returns the metadata of the sink. A
    readMeta, whatever it returns and whatever fails, changes nothing in the
    directory and leaves no handle open. *)
Theorem writeMeta_readMeta (s : FileSnapshotSink) (w w' : Os.World) :
  writeMeta s w = (inr tt, w') →
  Os.fds w' = Os.fds w
  ∧ (∀ k, k ≠ dir s → Os.fs w' !! k = Os.fs w !! k)
  ∧ (Os.faults w' = [] → readMeta (dir s) w' = (inr (meta s), w'))
  ∧ (∀ name x, let '(_, x') := readMeta name x in
               Os.fs x' = Os.fs x ∧ Os.fds x' = Os.fds x).
Proof.
  intros Hwm. pose proof (writeMeta_frame _ _ _ _ Hwm) as [Hfs Hfds].
  split_and!; [exact Hfds | exact Hfs | |].
  - intros Hrel. rewrite (readMeta_reliable _ _ Hrel). unfold readMeta_of.
    apply writeMeta_effect in Hwm as (sd & _ & -> & _).
    rewrite lookup_insert_eq. reflexivity.
  - intros name x. destruct (readMeta name x) as [r x'] eqn:Hrm.
    apply (readMeta_frame _ _ _ _ Hrm).
Qed.

End ReadOnly.

(** ** snapshotName *)

Lemma uint_all_digits d : all_digits (NilEmpty.string_of_uint d) = true.
Proof. induction d; cbn [NilEmpty.string_of_uint all_digits]; try rewrite IHd; reflexivity. Qed.

Lemma NilZero_uint_all_digits d :
  all_digits (NilZero.string_of_uint d) = true ∧ NilZero.string_of_uint d ≠ "".
Proof.
  destruct d; cbn [NilZero.string_of_uint NilEmpty.string_of_uint];
    (split; [|discriminate]); try reflexivity;
    cbn [all_digits]; rewrite uint_all_digits; reflexivity.
Qed.

(** [%d] of a number that is not negative gives digits, and one at least. *)
Lemma fmt_d_digits z : 0 ≤ z → all_digits (fmt_d z) = true ∧ fmt_d z ≠ "".
Proof.
  intros Hz. unfold fmt_d. destruct z as [|p|p]; [| |lia]; cbn [Z.to_int NilZero.string_of_int];
    apply NilZero_uint_all_digits.
Qed.

Lemma last_char_app a b : b ≠ "" → last_char (a +:+ b) = last_char b.
Proof.
  intros Hb. induction a as [|c a IH]; [reflexivity|].
  rewrite <- IH. change (String c a +:+ b) with (String c (a +:+ b)).
  destruct (a +:+ b) eqn:Hab; [|reflexivity].
  destruct a; [simpl in Hab; contradiction | discriminate].
Qed.

Lemma last_char_cons c s : s ≠ "" → last_char (String c s) = last_char s.
Proof. destruct s; [contradiction | reflexivity]. Qed.

Lemma last_char_digits s :
  all_digits s = true → s ≠ "" → ∃ c, last_char s = Some c ∧ is_digit c = true.
Proof.
  induction s as [|c s IH]; [contradiction|].
  cbn [all_digits]. intros [Hc Hs]%andb_true_iff _.
  destruct s as [|c' s']; [exists c; auto|].
  destruct (IH Hs ltac:(discriminate)) as (x & Hx & Hd). exists x. auto.
Qed.

(** [%d] of any number ends in a digit. *)
Lemma fmt_d_last z : ∃ c, last_char (fmt_d z) = Some c ∧ is_digit c = true.
Proof.
  unfold fmt_d. destruct (Z.to_int z) as [d|d]; cbn [NilZero.string_of_int].
  - destruct (NilZero_uint_all_digits d). apply last_char_digits; assumption.
  - destruct (NilZero_uint_all_digits d) as [Hd Hne].
    rewrite last_char_cons by exact Hne. apply last_char_digits; assumption.
Qed.

Lemma substring_split m s :
  (m ≤ String.length s)%nat →
  s = String.substring 0 m s +:+ String.substring m (String.length s - m) s.
Proof.
  revert m. induction s as [|c s IH]; intros [|m] Hm; simpl in *; try lia; try reflexivity.
  - rewrite substring_all. reflexivity.
  - change (String c (String.substring 0 m s) +:+ ?x) with (String c (String.substring 0 m s +:+ x)).
    f_equal. apply IH. lia.
Qed.

(** A string that has a suffix ends with it. *)
Lemma HasSuffix_inv s suffix : HasSuffix s suffix = true → ∃ pre, s = pre +:+ suffix.
Proof.
  unfold HasSuffix. intros [Hle Heq]%andb_true_iff.
  apply Nat.leb_le in Hle. apply String.eqb_eq in Heq.
  set (k := String.length suffix) in *. set (n := String.length s) in *.
  exists (String.substring 0 (n - k) s). rewrite <- Heq.
  replace (String.substring (n - k) k s)
    with (String.substring (n - k) (n - (n - k)) s) by (f_equal; lia).
  apply substring_split. lia.
Qed.

(** Two strings of digits that are each followed by a dash and by more are
    the same, and so is what follows, when the wholes are the same. *)
Lemma digits_dash_inj a a' r r' :
  all_digits a = true → all_digits a' = true →
  a +:+ "-" +:+ r = a' +:+ "-" +:+ r' → a = a' ∧ r = r'.
Proof.
  revert a'. induction a as [|c a IH]; intros [|c' a'] Ha Ha' H; cbn in H.
  - injection H as H. subst. auto.
  - injection H as H1 H2. subst c'. discriminate.
  - injection H as H1 H2. subst c. discriminate.
  - cbn [all_digits] in Ha, Ha'.
    apply andb_true_iff in Ha as [_ Ha]. apply andb_true_iff in Ha' as [_ Ha'].
    injection H as H1 H2. subst c'. destruct (IH a' Ha Ha' H2) as [-> ->]. auto.
Qed.

Lemma fmt_d_inj z z' : fmt_d z = fmt_d z' → z = z'.
Proof.
  unfold fmt_d. intros H. apply DecimalZ.to_int_inj.
  assert (Hn : ∀ x, Z.to_int x ≠ Decimal.Pos Decimal.Nil ∧ Z.to_int x ≠ Decimal.Neg Decimal.Nil).
  { intros [|p|p]; cbn [Z.to_int]; split; try discriminate.
    all: intros [= Hp]; apply (DecimalPos.Unsigned.to_uint_nonnil p Hp). }
  pose proof (NilZero.isi (Z.to_int z) (proj1 (Hn z)) (proj2 (Hn z))) as E.
  pose proof (NilZero.isi (Z.to_int z') (proj1 (Hn z')) (proj2 (Hn z'))) as E'.
  rewrite H in E. congruence.
Qed.

(** X2: the name that snapshotName gives a snapshot never ends in [.tmp], so
    that trimming [.tmp] off the temporary directory's name gives it back and
    the directory once in place is not taken for a temporary one; and it
    tells the term, the index and the millisecond: two calls give the same
    name only for the same term and index at the same millisecond. The call
    reads the clock and changes nothing. *)
Theorem snapshotName_identifies (term index : N) (w : Os.World) :
  ∃ name,
    snapshotName term index w = (inr name, w)
    ∧ HasSuffix name tmpSuffix = false
    ∧ TrimSuffix (name +:+ tmpSuffix) tmpSuffix = name
    ∧ ∀ term' index' w',
        snapshotName term' index' w' = (inr name, w') →
        term' = term ∧ index' = index
        ∧ Os.clock w' `quot` 1000000 = Os.clock w `quot` 1000000.
Proof.
  unfold snapshotName, Os.Now. io_unfold. eexists. split; [reflexivity|].
  split; [|split; [apply TrimSuffix_app|]].
  - destruct (HasSuffix _ tmpSuffix) eqn:Htmp; [|reflexivity]. exfalso.
    apply HasSuffix_inv in Htmp as [pre Hpre].
    apply (f_equal last_char) in Hpre.
    rewrite (last_char_app pre tmpSuffix) in Hpre by discriminate.
    rewrite last_char_app in Hpre by discriminate.
    rewrite (last_char_app "-") in Hpre.
    2:{ destruct (fmt_d_digits (Z.of_N index) ltac:(lia)) as [_ Hne].
        destruct (fmt_d (Z.of_N index)); [contradiction | discriminate]. }
    rewrite last_char_app in Hpre by discriminate.
    rewrite (last_char_app "-") in Hpre.
    2:{ destruct (fmt_d_last (Os.clock w `quot` 1000000)) as (c & Hc & _).
        destruct (fmt_d _); discriminate. }
    destruct (fmt_d_last (Os.clock w `quot` 1000000)) as (c & Hc & Hd).
    rewrite Hc in Hpre. cbn in Hpre. injection Hpre as ->. discriminate.
  - intros term' index' w' [= H].
    destruct (fmt_d_digits (Z.of_N term) ltac:(lia)) as [Ht _].
    destruct (fmt_d_digits (Z.of_N term') ltac:(lia)) as [Ht' _].
    destruct (fmt_d_digits (Z.of_N index) ltac:(lia)) as [Hi _].
    destruct (fmt_d_digits (Z.of_N index') ltac:(lia)) as [Hi' _].
    apply (digits_dash_inj _ _ _ _ Ht' Ht) in H as [H1 H].
    apply (digits_dash_inj _ _ _ _ Hi' Hi) in H as [H2 H3].
    apply fmt_d_inj in H1, H2, H3. split_and!; [lia | lia | exact H3].
Qed.

(** ** The order of the snapshots *)

(** X1: [Less] is a strict weak order, as sort.Sort asks of it: no metadata
    is less than itself, of two at most one is less than the other, the
    order is transitive, and two metadata neither of which is less than the
    other have the same term, the same index and the same ID. *)
Theorem Less_strict_weak_order :
  (∀ a, Less a a = false)
  ∧ (∀ a b, Less a b = true → Less b a = false)
  ∧ (∀ a b c, Less a b = true → Less b c = true → Less a c = true)
  ∧ (∀ a b, Less a b = false → Less b a = false →
            Term (SnapshotMeta_ a) = Term (SnapshotMeta_ b)
            ∧ Index (SnapshotMeta_ a) = Index (SnapshotMeta_ b)
            ∧ ID (SnapshotMeta_ a) = ID (SnapshotMeta_ b)).
Proof.
  split_and!.
  - intros a. destruct (Less a a) eqn:H; [|reflexivity].
    pose proof (Less_asym _ _ H). congruence.
  - exact Less_asym.
  - intros a b c Hab Hbc. destruct (Less_cotrans a c b Hab) as [?|Hcb]; [assumption|].
    pose proof (Less_asym _ _ Hbc). congruence.
  - intros a b. unfold Less.
    destruct (N.eqb_spec (Term (SnapshotMeta_ a)) (Term (SnapshotMeta_ b))) as [Ht|Ht];
      destruct (N.eqb_spec (Term (SnapshotMeta_ b)) (Term (SnapshotMeta_ a))) as [Ht'|Ht'];
      try congruence; cbn [negb].
    2:{ rewrite !N.ltb_ge. lia. }
    destruct (N.eqb_spec (Index (SnapshotMeta_ a)) (Index (SnapshotMeta_ b))) as [Hi|Hi];
      destruct (N.eqb_spec (Index (SnapshotMeta_ b)) (Index (SnapshotMeta_ a))) as [Hi'|Hi'];
      try congruence; cbn [negb].
    2:{ rewrite !N.ltb_ge. lia. }
    intros H1 H2. split_and!; try assumption. apply String_ltb_total; assumption.
Qed.

(** ** The constructors of the store *)


(** ** The listener of the TCP transport *)

Section TCPListener.

Import TCP.

Lemma newTCPTransport_outcome {T : Type} (bindAddr : string) (adv : option Addr)
    (transportCreator : TCPStreamLayer → T) (n : Net) :
  binds_and_checks bindAddr adv transportCreator n
    (newTCPTransport bindAddr adv transportCreator n).
Proof.
  unfold binds_and_checks, newTCPTransport, net_Listen.
  destruct (bind n bindAddr) as [a|] eqn:Hb; [|split_and!; auto].
  unfold TCPStreamLayer_Addr, TCPStreamLayer_Close, Listener_Close. cbn [advertise listener lfd laddr].
  assert (Hfresh : ({[fresh (listening n)]} ∪ listening n) ∖ {[fresh (listening n)]}
                   = listening n).
  { apply set_eq. intros x. rewrite elem_of_difference, elem_of_union, !elem_of_singleton.
    pose proof (is_fresh (listening n)). split; [intros [[?|?] ?]; congruence|].
    intros Hx. split; [auto|]. intros ->. contradiction. }
  destruct adv as [[addr|network str]|].
  - destruct (decide (IP_ addr = None)) as [Hnil|Hnil].
    { rewrite (bool_decide_eq_true_2 _ Hnil). cbn [orb listening bind].
      split_and!; auto. right. split; [eauto|]. right. split; [reflexivity|].
      exists addr. split_and!; [reflexivity | discriminate | left; exact Hnil]. }
    rewrite (bool_decide_eq_false_2 _ Hnil). cbn [orb].
    destruct (IsUnspecified (IP_ addr)) eqn:Hun; cbn [listening bind].
    + split_and!; auto. right. split; [eauto|]. right. split; [reflexivity|].
      exists addr. split_and!; [reflexivity | discriminate | right; exact Hun].
    + split; [reflexivity|]. exists a. split_and!; auto.
      exists addr. split; [reflexivity|]. intros [?|?]; congruence.
  - cbn [listening bind]. split_and!; auto. right. split; [eauto|]. left. eauto.
  - destruct (decide (IP_ a = None)) as [Hnil|Hnil].
    { rewrite (bool_decide_eq_true_2 _ Hnil). cbn [orb listening bind].
      split_and!; auto. right. split; [eauto|]. right. split; [reflexivity|].
      exists a. split_and!; [reflexivity | reflexivity | left; exact Hnil]. }
    rewrite (bool_decide_eq_false_2 _ Hnil). cbn [orb].
    destruct (IsUnspecified (IP_ a)) eqn:Hun; cbn [listening bind].
    + split_and!; auto. right. split; [eauto|]. right. split; [reflexivity|].
      exists a. split_and!; [reflexivity | reflexivity | right; exact Hun].
    + split; [reflexivity|]. exists a. split_and!; auto.
      exists a. split; [reflexivity|]. intros [?|?]; congruence.
Qed.

Section PublicConstructors.

Context {NetworkTransport NetworkTransportConfig Logger Writer : Type}.
Context (NewNetworkTransport : TCPStreamLayer → Z → Z → Writer → NetworkTransport).
Context (NewNetworkTransportWithLogger : TCPStreamLayer → Z → Z → Logger → NetworkTransport).
Context (NewNetworkTransportWithConfig : NetworkTransportConfig → NetworkTransport).
Context (setStream : TCPStreamLayer → NetworkTransportConfig → NetworkTransportConfig).

(** X18: newTCPTransport and the three constructors of the TCP transport
    that call it leak no listener and tell their errors apart. When one
    fails the listeners are those that were open before: the error is that of
    the bind, or [errNotTCP] when the advertise address is no TCP address, or
    [errNotAdvertisable] when the local address (the advertise address if
    there is one, whatever the bound address, and the bound address
    otherwise) has no IP or the unspecified one. When it returns a transport,
    that is the one its creator makes of the stream layer of the new
    listener (with the pool size, the timeout and the log output or logger
    given, or with the configuration given whose stream is set to that
    stream layer), the local address of the stream layer can be advertised,
    and closing the stream layer leaves the listeners that were open
    before. *)
Theorem TCP_constructors_bind_and_check {T : Type} (transportCreator : TCPStreamLayer → T)
    (bindAddr : string) (adv : option Addr)
    (maxPool timeout : Z) (logOutput : Writer) (logger : Logger)
    (config : NetworkTransportConfig) (n : Net) :
  binds_and_checks bindAddr adv transportCreator n
    (newTCPTransport bindAddr adv transportCreator n)
  ∧ binds_and_checks bindAddr adv
      (λ stream, NewNetworkTransport stream maxPool timeout logOutput) n
      (NewTCPTransport NewNetworkTransport bindAddr adv maxPool timeout logOutput n)
  ∧ binds_and_checks bindAddr adv
      (λ stream, NewNetworkTransportWithLogger stream maxPool timeout logger) n
      (NewTCPTransportWithLogger NewNetworkTransportWithLogger bindAddr adv maxPool timeout
         logger n)
  ∧ binds_and_checks bindAddr adv
      (λ stream, NewNetworkTransportWithConfig (setStream stream config)) n
      (NewTCPTransportWithConfig NewNetworkTransportWithConfig setStream bindAddr adv config n).
Proof.
  split_and!; apply newTCPTransport_outcome.
Qed.

End PublicConstructors.

End TCPListener.
(** ** The snapshot that its own Close reaps *)

Lemma Rename_onto old new w w' sd n :
  Os.Rename old new w = (inr tt, w') → old ≠ new →
  Os.fs w !! old = Some (Os.NDir sd) → Os.fs w !! new = Some n →
  ∃ d, n = Os.NDir d ∧ Os.is_emptyDir d = true.
Proof.
  unfold Os.Rename. io_unfold. unfold Os.io_fault.
  destruct (hd false (Os.faults w)); [discriminate|]. world_cbn.
  intros H Hne Hold Hnew. rewrite Hold, Hnew in H.
  rewrite bool_decide_eq_false_2 in H by exact Hne.
  destruct n as [|d]; [discriminate|].
  destruct (Os.is_emptyDir d) eqn:He; [|discriminate].
  exists d. auto.
Qed.

Lemma Open_missing f id w :
  Os.fs w !! id = None → (Open f id w).1 = inl (PathError "open").
Proof.
  intros Hid. unfold Open, readMeta. io_unfold. unfold Os.Open. io_unfold.
  unfold Os.io_fault. destruct (hd false (Os.faults w)); [reflexivity|].
  world_cbn. rewrite Hid. reflexivity.
Qed.

Lemma foldl_delete_lookup_elem (l : list fileSnapshotMeta) (fs : gmap string Os.node) x :
  x ∈ l → foldl (λ m snap, delete (ID (SnapshotMeta_ snap)) m) fs l !! ID (SnapshotMeta_ x) = None.
Proof.
  assert (Hgone : ∀ (l : list fileSnapshotMeta) (fs : gmap string Os.node) k,
            fs !! k = None →
            foldl (λ m snap, delete (ID (SnapshotMeta_ snap)) m) fs l !! k = None).
  { clear. intros l. induction l as [|y l IH]; intros fs k Hk; [exact Hk|].
    cbn [foldl]. apply IH. apply lookup_delete_None. auto. }
  revert fs. induction l as [|y l IH]; intros fs Hx; [inversion Hx|].
  cbn [foldl]. apply elem_of_cons in Hx as [->|Hx]; [|apply IH, Hx].
  apply Hgone, lookup_delete_eq.
Qed.

Lemma NoDup_omap_inj {A B} (f : A → option B) (l : list A) :
  NoDup l →
  (∀ a b x, a ∈ l → b ∈ l → f a = Some x → f b = Some x → a = b) →
  NoDup (omap f l).
Proof.
  induction 1 as [|a l Ha Hl IH]; intros Hinj; [constructor|].
  cbn [omap list_omap]. 
  assert (IH' : NoDup (omap f l)).
  { apply IH. intros a' b' x Ha' Hb'. apply Hinj; right; assumption. }
  destruct (f a) as [x|] eqn:Hfa; [|exact IH'].
  constructor; [|exact IH'].
  intros Hx. apply list_elem_of_omap in Hx as (b & Hb & Hfb).
  assert (a = b) by (eapply Hinj; [left | right; exact Hb | exact Hfa | exact Hfb]).
  subst b. contradiction.
Qed.

Lemma Less_irrefl a : Less a a = false.
Proof.
  destruct (Less a a) eqn:H; [|reflexivity].
  pose proof (Less_asym _ _ H). congruence.
Qed.

(** Of two metadata with different IDs one is less than the other. *)
Lemma Less_total a b :
  ID (SnapshotMeta_ a) ≠ ID (SnapshotMeta_ b) → Less a b = false → Less b a = true.
Proof.
  intros Hne. unfold Less.
  destruct (N.eqb_spec (Term (SnapshotMeta_ a)) (Term (SnapshotMeta_ b))) as [Ht|Ht];
    destruct (N.eqb_spec (Term (SnapshotMeta_ b)) (Term (SnapshotMeta_ a))) as [Ht'|Ht'];
    try congruence; cbn [negb].
  2:{ rewrite N.ltb_ge, N.ltb_lt. lia. }
  destruct (N.eqb_spec (Index (SnapshotMeta_ a)) (Index (SnapshotMeta_ b))) as [Hi|Hi];
    destruct (N.eqb_spec (Index (SnapshotMeta_ b)) (Index (SnapshotMeta_ a))) as [Hi'|Hi'];
    try congruence; cbn [negb].
  2:{ rewrite N.ltb_ge, N.ltb_lt. lia. }
  intros H1. destruct (String.ltb (ID (SnapshotMeta_ b)) (ID (SnapshotMeta_ a))) eqn:H2;
    [reflexivity|].
  exfalso. apply Hne. apply String_ltb_total; assumption.
Qed.

Section OwnReap.

Context (SnapshotVersionMin SnapshotVersionMax : Z).

Local Abbreviation Close := (Close SnapshotVersionMin SnapshotVersionMax).
Local Abbreviation finalized_entry := (Spec.finalized_entry SnapshotVersionMin SnapshotVersionMax).
Local Abbreviation finalized := (Spec.finalized SnapshotVersionMin SnapshotVersionMax).
Local Abbreviation names_consistent := (Spec.names_consistent SnapshotVersionMin SnapshotVersionMax).
Local Abbreviation reaped := (Spec.reaped SnapshotVersionMin SnapshotVersionMax).

(** A finalized snapshot of a directory whose snapshots lie under their IDs
    is the one of the entry that its ID names. *)
Lemma finalized_at fs x :
  names_consistent fs → x ∈ finalized fs →
  ∃ node, fs !! ID (SnapshotMeta_ x) = Some node
          ∧ finalized_entry (ID (SnapshotMeta_ x), node) = Some x.
Proof.
  intros Hc Hx. apply list_elem_of_omap in Hx as ([name node] & He & Hfe).
  apply elem_of_map_to_list in He.
  pose proof (Hc name node He) as Hname. cbn beta in Hname. rewrite Hfe in Hname.
  exists node. rewrite Hname. auto.
Qed.

Lemma NoDup_finalized fs : names_consistent fs → NoDup (finalized fs).
Proof.
  intros Hc. apply NoDup_omap_inj; [apply NoDup_map_to_list|].
  intros [k1 n1] [k2 n2] x H1 H2 Hf1 Hf2.
  apply elem_of_map_to_list in H1, H2.
  pose proof (Hc k1 n1 H1) as E1. pose proof (Hc k2 n2 H2) as E2.
  cbn beta in E1, E2. rewrite Hf1 in E1. rewrite Hf2 in E2.
  subst k1 k2. rewrite H1 in H2. congruence.
Qed.

Lemma finalized_delete_none d fs :
  (∀ n, fs !! d = Some n → finalized_entry (d, n) = None) →
  finalized (delete d fs) ≡ₚ finalized fs.
Proof.
  intros H. destruct (fs !! d) as [n|] eqn:Hd.
  - unfold Spec.finalized. rewrite <- (map_to_list_delete fs d n Hd).
    cbn [omap list_omap]. rewrite (H n eq_refl). reflexivity.
  - rewrite delete_id by exact Hd. reflexivity.
Qed.

Lemma finalized_insert k n fs :
  fs !! k = None →
  finalized (<[k := n]> fs) ≡ₚ option_list (finalized_entry (k, n)) ++ finalized fs.
Proof.
  intros Hk. unfold Spec.finalized. rewrite (map_to_list_insert fs k n Hk).
  cbn [omap list_omap]. destruct (finalized_entry (k, n)); reflexivity.
Qed.

(** What a Close that ends well has done when no I/O call fails. *)
Lemma Close_reliable_inv s w s' w' :
  Os.faults w = [] →
  dir s = ID_ s +:+ tmpSuffix →
  closed s = false →
  Close s w = (None, s', w') →
  ∃ (fs1 : gmap string Os.node) sd,
    strip <$> fs1 = strip <$> Os.fs w
    ∧ fs1 !! dir s = Some (Os.NDir sd)
    ∧ (∀ n, fs1 !! ID_ s = Some n → ∃ d, n = Os.NDir d ∧ Os.is_emptyDir d = true)
    ∧ ID_ s' = ID_ s
    ∧ store s' = store s
    ∧ 0 ≤ retain (store s)
    ∧ Os.fs w'
      = reaped (retain (store s))
          (<[ID_ s := Os.NDir (Os.set_meta (Os.Encoded (meta s')) sd)]> (delete (dir s) fs1))
    ∧ Os.faults w' = [].
Proof.
  intros Hrel Hname Hclosed HClose.
  apply Close_ok_inv in HClose as (w1 & w2 & w3 & Hfin & Hmeta & Hren & Hreap);
    [|exact Hclosed].
  apply finalize_effect in Hfin as [Hsame [Hstrip Hrel1]].
  destruct Hsame as (Hdir & Hstore & _ & _ & _ & HID). cbn in Hdir, Hstore, HID.
  specialize (Hrel1 Hrel).
  apply writeMeta_effect in Hmeta as (sd & Hsd & Hfs2 & _ & Hrel2).
  specialize (Hrel2 Hrel1).
  pose proof Hren as Honto.
  apply Rename_effect in Hren as (n & Hn & Hfs3 & _ & Hrel3).
  specialize (Hrel3 Hrel2).
  apply Close_sync_reap_reliable in Hreap as [Hr ->]; [|exact Hrel3].
  rewrite Hdir, Hname, TrimSuffix_app in Hfs3, Honto.
  rewrite Hdir, Hname in Hsd, Hfs2, Hn.
  rewrite Hfs2, lookup_insert_eq in Hn. injection Hn as <-.
  rewrite Hfs2, delete_insert_eq in Hfs3.
  rewrite Hstore in Hr.
  exists (Os.fs w1), sd. rewrite Hname.
  split; [exact Hstrip|]. split; [exact Hsd|]. split.
  { intros n Hn.
    eapply (Rename_onto _ _ _ _ _ n Honto).
    - apply app_tmpSuffix_neq.
    - rewrite Hfs2. apply lookup_insert_eq.
    - rewrite Hfs2, lookup_insert_ne by apply app_tmpSuffix_neq. exact Hn. }
  split; [exact HID|]. split; [exact Hstore|]. split; [exact Hr|].
  split; [|exact Hrel3].
  cbn [Os.fs Os.set_fs]. rewrite Hfs3, Hstore. reflexivity.
Qed.

(** X19: whether the Close of a snapshot reaps the snapshot itself is
    decided by how many finalized snapshots are newer. For the first Close of
    a sink made by Create, when that Close ends well, in a directory whose
    finalized snapshots lie under their IDs and with no I/O call failing
    during Close, let [newer] be the finalized snapshots that were on disk
    before Close and that the new metadata is [Less] than. When they are
    fewer than [retain], the new snapshot is on disk after Close, under its
    ID and with its metadata. When they are [retain] or more, and the version
    of the snapshot is a supported one and its ID does not end in [.tmp], its
    directory is gone after Close, and Open on its ID returns the error of
    os.Open as long as the directory is as Close has left it, whatever I/O
    call fails. *)
Theorem Close_reaps_own_snapshot (s : FileSnapshotSink) (w : Os.World)
    (s' : FileSnapshotSink) (w' : Os.World) :
  Os.faults w = [] →
  names_consistent (Os.fs w) →
  dir s = ID_ s +:+ tmpSuffix →
  closed s = false →
  Close s w = (None, s', w') →
  let newer := filter (λ x, Less (meta s') x = true) (finalized (Os.fs w)) in
  let r := retain (store s) in
  (Z.of_nat (length newer) < r →
     ∃ d, Os.fs w' !! ID_ s = Some (Os.NDir d)
          ∧ Os.meta_json d = Some (Os.Encoded (meta s')))
  ∧ (r ≤ Z.of_nat (length newer) →
     SnapshotVersionMin ≤ Version (SnapshotMeta_ (meta s')) ≤ SnapshotVersionMax →
     HasSuffix (ID_ s) tmpSuffix = false →
     Os.fs w' !! ID_ s = None
     ∧ ∀ f w'', Os.fs w'' = Os.fs w' → (Open f (ID_ s) w'').1 = inl (PathError "open")).
Proof.
  intros Hrel Hcons Hname Hclosed HClose newer r.
  destruct (Close_reliable_inv _ _ _ _ Hrel Hname Hclosed HClose)
    as (fs1 & sd & Hstrip & Hsd & Hempty & HID & _ & Hr & Hfs' & _).
  fold r in Hr, Hfs'.
  set (m := meta s') in *.
  set (n' := Os.NDir (Os.set_meta (Os.Encoded m) sd)) in *.
  set (installed := <[ID_ s := n']> (delete (dir s) fs1)) in *.
  assert (HIDm : ID (SnapshotMeta_ m) = ID_ s) by exact HID.
  assert (Hne : ID_ s ≠ dir s) by (rewrite Hname; symmetry; apply app_tmpSuffix_neq).
  assert (Hat : installed !! ID_ s = Some n') by apply lookup_insert_eq.
  assert (Hentry : ∀ y, finalized_entry (ID_ s, n') = Some y → y = m).
  { intros y. unfold Spec.finalized_entry, n'. cbn.
    destruct (HasSuffix _ _); [discriminate|]. destruct (_ || _); [discriminate|].
    congruence. }
  assert (Hcons1 : names_consistent fs1)
    by (eapply names_consistent_same; [exact Hstrip | exact Hcons]).
  assert (Hcons3 : names_consistent installed).
  { intros name node Hnode. unfold installed in Hnode.
    apply lookup_insert_Some in Hnode as [[<- <-]|[_ Hnode]].
    - cbn beta. destruct (finalized_entry (ID_ s, n')) as [y|] eqn:Hy; [|exact I].
      rewrite (Hentry y eq_refl). exact HIDm.
    - apply lookup_delete_Some in Hnode as [_ Hnode]. exact (Hcons1 name node Hnode). }
  (* the finalized snapshots once the new one is in place *)
  assert (Hfin : finalized installed
                   ≡ₚ option_list (finalized_entry (ID_ s, n')) ++ finalized (Os.fs w)).
  { unfold installed. rewrite <- insert_delete_eq.
    rewrite finalized_insert by apply lookup_delete_eq.
    apply Permutation_app_head.
    rewrite finalized_delete_none.
    2:{ intros n Hn. apply lookup_delete_Some in Hn as [_ Hn].
        destruct (Hempty n Hn) as (d & -> & Hd).
        unfold Spec.finalized_entry. cbn. destruct d as [[c|] st]; [discriminate|reflexivity]. }
    rewrite finalized_delete_none.
    2:{ intros n _. unfold Spec.finalized_entry. cbn [fst snd].
        rewrite Hname, HasSuffix_app. destruct n as [|[[[|?]|] ?]]; reflexivity. }
    apply finalized_same, Hstrip. }
  set (sorted := sort_Sort (sort_Reverse Less) (finalized installed)) in *.
  assert (Hperm : sorted ≡ₚ finalized installed) by apply sort_Sort_perm.
  assert (Hnodup : NoDup sorted) by (rewrite Hperm; apply NoDup_finalized, Hcons3).
  pose proof (sort_Sort_sorted (sort_Reverse Less)
                (λ a b, Less_asym b a)
                (λ a b c H, match Less_cotrans c b a H with
                            | or_introl H1 => or_intror H1
                            | or_intror H2 => or_introl H2
                            end)
                (finalized installed)) as Hsorted.
  fold sorted in Hsorted.
  assert (Hcount : length (filter (λ x, Less m x = true) sorted) = length newer).
  { rewrite Hperm, Hfin, filter_app, length_app.
    replace (filter (λ x, Less m x = true) (option_list (finalized_entry (ID_ s, n'))))
      with (@nil fileSnapshotMeta); [reflexivity|].
    destruct (finalized_entry (ID_ s, n')) as [y|] eqn:Hy; [|reflexivity].
    change (option_list (Some y)) with [y]. rewrite (Hentry y eq_refl).
    rewrite filter_cons_False, filter_nil; [reflexivity|].
    rewrite Less_irrefl. discriminate. }
  assert (Hsame_entry : ∀ y, y ∈ sorted → ID (SnapshotMeta_ y) = ID_ s → y = m).
  { intros y Hy Heq. rewrite Hperm in Hy.
    destruct (finalized_at _ _ Hcons3 Hy) as (node & Hnode & Hfe).
    rewrite Heq, Hat in Hnode. injection Hnode as <-. rewrite Heq in Hfe.
    exact (Hentry y Hfe). }
  rewrite Hfs'. unfold Spec.reaped. fold sorted.
  split.
  - (* fewer than [retain] are newer: the snapshot is kept *)
    intros Hfew. exists (Os.set_meta (Os.Encoded m) sd). split; [|reflexivity].
    rewrite foldl_delete_lookup_ne; [exact Hat|].
    intros y Hy Heq.
    assert (Hym : y = m)
      by (apply Hsame_entry; [eapply subseteq_drop, Hy | exact Heq]).
    subst y.
    assert (Hlen : (Z.to_nat r < length sorted)%nat).
    { destruct (decide (Z.to_nat r < length sorted)%nat) as [?|Hge]; [assumption|].
      rewrite drop_ge in Hy by lia. inversion Hy. }
    assert (Hsub : take (Z.to_nat r) sorted ⊆+ filter (λ x, Less m x = true) sorted).
    { apply NoDup_submseteq.
      - rewrite <- (take_drop (Z.to_nat r) sorted) in Hnodup.
        apply NoDup_app in Hnodup as [Hnd _]. exact Hnd.
      - intros x Hx. apply list_elem_of_filter. split; [|eapply subseteq_take, Hx].
        assert (Hxm : Less x m = false).
        { rewrite <- (take_drop (Z.to_nat r) sorted) in Hsorted.
          exact (StronglySorted_app_1_elem_of _ _ _ x m Hsorted Hx Hy). }
        apply Less_total; [|exact Hxm].
        intros Hxid. rewrite HIDm in Hxid.
        assert (x = m) by (apply Hsame_entry; [eapply subseteq_take, Hx | exact Hxid]).
        subst x.
        rewrite <- (take_drop (Z.to_nat r) sorted) in Hnodup.
        apply NoDup_app in Hnodup as (_ & Hdisj & _). exact (Hdisj m Hx Hy). }
    apply submseteq_length in Hsub. rewrite length_take, Hcount in Hsub. lia.
  - (* [retain] or more are newer: the snapshot is reaped *)
    intros Hmany Hversion Hnotmp.
    assert (Hmfin : finalized_entry (ID_ s, n') = Some m).
    { unfold Spec.finalized_entry, n'. cbn. rewrite Hnotmp.
      destruct (Z.ltb_spec (Version (SnapshotMeta_ m)) SnapshotVersionMin) as [?|_]; [lia|].
      destruct (Z.ltb_spec SnapshotVersionMax (Version (SnapshotMeta_ m))) as [?|_]; [lia|].
      reflexivity. }
    assert (Hm : m ∈ sorted).
    { rewrite Hperm, Hfin, Hmfin. change (option_list (Some m)) with [m]. left. }
    assert (Hbeyond : m ∈ drop (Z.to_nat r) sorted).
    { rewrite <- (take_drop (Z.to_nat r) sorted) in Hm.
      apply elem_of_app in Hm as [Hm|Hm]; [exfalso|exact Hm].
      apply list_elem_of_split in Hm as (pre & post & Hsplit).
      assert (Hall : sorted = pre ++ m :: (post ++ drop (Z.to_nat r) sorted)).
      { rewrite <- (take_drop (Z.to_nat r) sorted) at 1. rewrite Hsplit, <- !app_assoc.
        reflexivity. }
      assert (Hsub : filter (λ x, Less m x = true) sorted ⊆+ pre).
      { apply NoDup_submseteq; [apply NoDup_filter, Hnodup|].
        intros x [Hlt Hx]%list_elem_of_filter.
        rewrite Hall in Hx. apply elem_of_app in Hx as [Hx|Hx]; [exact Hx|exfalso].
        apply elem_of_cons in Hx as [->|Hx]; [rewrite Less_irrefl in Hlt; discriminate|].
        rewrite Hall in Hsorted. apply StronglySorted_app_1_r in Hsorted.
        apply StronglySorted_inv in Hsorted as [_ Hafter].
        rewrite Forall_forall in Hafter. specialize (Hafter x Hx).
        unfold in_order, sort_Reverse in Hafter. congruence. }
      apply submseteq_length in Hsub. rewrite Hcount in Hsub.
      apply (f_equal length) in Hsplit.
      rewrite length_take, length_app in Hsplit. cbn [length] in Hsplit. lia. }
    assert (Hgone : foldl (λ fs snap, delete (ID (SnapshotMeta_ snap)) fs) installed
                      (drop (Z.to_nat r) sorted) !! ID_ s = None).
    { rewrite <- HIDm. apply foldl_delete_lookup_elem, Hbeyond. }
    split; [exact Hgone|].
    intros f w'' Hw''. apply Open_missing. rewrite Hw''. exact Hgone.
Qed.

End OwnReap.

(* ===================================================================== *)
(** * The theorems at work on concrete directories                        *)
(* ===================================================================== *)

Import Examples.

(** With [retain] 0 no store is made. *)
Lemma retain_below_one_rejected_witness :
  NewFileSnapshotStoreWithLogger "base" 0 emptyWorld
    = (inl (Errorf "must retain at least one snapshot"), emptyWorld)
  ∧ NewFileSnapshotStore "base" 0 emptyWorld
    = (inl (Errorf "must retain at least one snapshot"), emptyWorld)
  ∧ (∀ base' r' w0 f w1,
       NewFileSnapshotStoreWithLogger base' r' w0 = (inr f, w1) → 1 ≤ retain f).
Proof. apply (retain_below_one_rejected "base" 0 emptyWorld). lia. Defined.

(** The snapshot "abcd" of the store, the third byte of whose state file is
    overwritten, is not opened. *)
Lemma Open_crc_mismatch_witness :
  let w := overwrite "7-30-1700000000123" (bytes "abXd") (afterNew store2) in
  let r : error + SnapshotMeta * bufferedFile := inl (Errorf "CRC mismatch") in
  Open store2 "7-30-1700000000123" w = (r, w)
  ∧ (∃ e, r = inl e)
  ∧ Os.fs w = Os.fs w
  ∧ Os.fds w = Os.fds w
  ∧ (Os.faults w = [] → r = inl (Errorf "CRC mismatch") ∧ w = w).
Proof.
  intros w r.
  assert (HOpen : Open store2 "7-30-1700000000123" w = (r, w)) by (vm_compute; reflexivity).
  split; [exact HOpen|].
  eapply (Open_crc_mismatch store2 "7-30-1700000000123"); [| |exact HOpen].
  - vm_compute. reflexivity.
  - right. exists (bytes "abcd"). split; [vm_compute; reflexivity|].
    exists (bytes "ab"), "c"%byte, "X"%byte, (bytes "d").
    split_and!; [discriminate | reflexivity | reflexivity].
Defined.

(** The two snapshots of a store that retains two are both listed, the one
    of term 7 before the one of term 5. *)
Lemma List_newest_first_witness :
  ∃ metas,
    List 0 1 store2 (afterNew store2) = (inr metas, afterNew store2)
    ∧ map Term metas = [7%N; 5%N]
    ∧ Z.of_nat (length metas) ≤ retain store2
    ∧ StronglySorted newest_first metas.
Proof.
  eexists. split; [vm_compute; reflexivity|]. split; [reflexivity|].
  match goal with
  | |- context [StronglySorted newest_first ?metas] =>
      pose proof (List_newest_first 0 1 store2 (afterNew store2) metas (afterNew store2)) as H
  end.
  destruct H as (Hlen & Hsorted & _); [vm_compute; discriminate | vm_compute; reflexivity |].
  split; [exact Hlen | exact Hsorted].
Defined.

(** In a store that retains two, the snapshot "abcd" written after the
    snapshot "old" is opened and read back. *)
Lemma written_snapshot_opens_witness :
  ∃ (r : bufferedFile) (w2 w3 : Os.World),
    Open store2 "7-30-1700000000123" (afterNew store2)
      = (inr (SnapshotMeta_ (snapshot store2 7 30 [bytes "ab"; bytes "cd"] (afterOld store2)).1.2.(meta), r), w2)
    ∧ bufferedFile_ReadAll r w2 = (inr (bytes "abcd"), w3).
Proof.
  destruct (written_snapshot_opens 0 1 noPeers store2 30 7 [] 0 tt [bytes "ab"; bytes "cd"]
              (afterOld store2)
              (created store2 7 30 (afterOld store2)).1
              (created store2 7 30 (afterOld store2)).2
              (pending store2 7 30 [bytes "ab"; bytes "cd"] (afterOld store2)).1
              (pending store2 7 30 [bytes "ab"; bytes "cd"] (afterOld store2)).2
              (snapshot store2 7 30 [bytes "ab"; bytes "cd"] (afterOld store2)).1.2
              (afterNew store2))
    as (r & w2 & w3 & HOpen & _ & _ & HRead).
  - vm_compute. reflexivity.
  - vm_compute. reflexivity.
  - vm_compute. reflexivity.
  - vm_compute. eexists. reflexivity.
  - vm_compute. reflexivity.
  - exists r, w2, w3. split; [exact HOpen | exact HRead].
Defined.

(** In a store that retains one and holds a snapshot of term 5, a snapshot
    written at term 3 is closed well, and reaped by that very Close: Open does
    not find it. *)
Lemma written_snapshot_reaped_at_once :
  ∃ s0 w1 s w s' w',
    Create noPeers store1 1 10 3 [] 0%N tt (afterOld store1) = (inr s0, w1)
    ∧ WriteAll s0 [bytes "abcd"] w1 = (s, w)
    ∧ Close 0 1 s w = (None, s', w')
    ∧ Os.faults w' = []
    ∧ Open store1 (ID_ s') w' = (inl (PathError "open"), w').
Proof.
  eexists _, _, _, _, _, _.
  split; [vm_compute; reflexivity|].
  split; [vm_compute; reflexivity|].
  split; [vm_compute; reflexivity|].
  split; vm_compute; reflexivity.
Qed.

(** In a store that retains one and holds a snapshot of term 5, closing a
    snapshot of term 7 leaves that one alone. *)
Lemma Close_retention_witness :
  map (λ m, Term (SnapshotMeta_ m)) (finalized 0 1 (Os.fs (afterNew store1))) = [7%N]
  ∧ Z.of_nat (length (finalized 0 1 (Os.fs (afterNew store1)))) ≤ retain store1.
Proof.
  split; [vm_compute; reflexivity|].
  destruct (Close_retention 0 1
              (pending store1 7 30 [bytes "ab"; bytes "cd"] (afterOld store1)).1
              (pending store1 7 30 [bytes "ab"; bytes "cd"] (afterOld store1)).2
              (snapshot store1 7 30 [bytes "ab"; bytes "cd"] (afterOld store1)).1.2
              (afterNew store1))
    as (installed & _ & _ & _ & _ & _ & Hlen & _).
  - vm_compute. reflexivity.
  - apply (@bool_decide_unpack _ (names_consistent_dec 0 1 _)). vm_compute. exact I.
  - vm_compute. reflexivity.
  - vm_compute. reflexivity.
  - vm_compute. reflexivity.
  - exact Hlen.
Defined.

(** C4 as stated does not hold: in a store that retains one, a Close that
    ends well can leave two finalized snapshots on disk. First with no I/O
    call failing, when the directory of the snapshot of term 5 does not bear
    the ID that its meta.json records: the reap removes the directory named
    by that ID, which is not there, and RemoveAll of a missing path returns
    nil. Then in a directory whose snapshots lie under their IDs, when the
    open of the first meta.json that the reap reads fails: getSnapshots skips
    that snapshot, whichever of the two it is, and the reap, which finds one
    snapshot only, removes nothing. *)
Lemma Close_retention_exceeded :
  retain store1 = 1
  ∧ (∃ s0 w1 s w s' w',
       Os.faults movedAside = []
       ∧ Create noPeers store1 1 30 7 [] 0%N tt movedAside = (inr s0, w1)
       ∧ WriteAll s0 [bytes "abcd"] w1 = (s, w)
       ∧ Close 0 1 s w = (None, s', w')
       ∧ map (λ m, (Term (SnapshotMeta_ m), Index (SnapshotMeta_ m)))
           (sort_Sort (sort_Reverse Less) (finalized 0 1 (Os.fs w')))
         = [(7%N, 30%N); (5%N, 20%N)])
  ∧ (∃ s0 w1 s w s' w',
       names_consistent 0 1 (Os.fs readFailsInReap)
       ∧ Create noPeers store1 1 30 7 [] 0%N tt readFailsInReap = (inr s0, w1)
       ∧ WriteAll s0 [bytes "abcd"] w1 = (s, w)
       ∧ Close 0 1 s w = (None, s', w')
       ∧ map (λ m, (Term (SnapshotMeta_ m), Index (SnapshotMeta_ m)))
           (sort_Sort (sort_Reverse Less) (finalized 0 1 (Os.fs w')))
         = [(7%N, 30%N); (5%N, 20%N)]).
Proof.
  split; [reflexivity|]. split.
  - eexists _, _, _, _, _, _.
    split; [vm_compute; reflexivity|].
    split; [vm_compute; reflexivity|].
    split; [vm_compute; reflexivity|].
    split; vm_compute; reflexivity.
  - eexists _, _, _, _, _, _.
    split; [apply (@bool_decide_unpack _ (names_consistent_dec 0 1 _)); vm_compute; exact I|].
    split; [vm_compute; reflexivity|].
    split; [vm_compute; reflexivity|].
    split; vm_compute; reflexivity.
Qed.

(** The write of the flush fails and the deletion goes well: Close returns
    the error of the write and the temporary directory is gone. *)
Lemma Close_finalize_fails_witness :
  (∀ k, Os.fs (doomed []).2 !! k = None → Os.fs (doomedFinalized []).2 !! k = None)
  ∧ match Os.RemoveAll (dir (doomed []).1) (doomedFinalized []).2 with
    | (inr _, w2) =>
        Close 0 1 (doomed []).1 (doomed []).2
          = (Some (PathError "write"), (doomedFinalized []).1.2, w2)
        ∧ Os.fs w2 = delete (dir (doomed []).1) (Os.fs (doomedFinalized []).2)
    | (inl delErr, w2) =>
        Close 0 1 (doomed []).1 (doomed []).2
          = (Some delErr, (doomedFinalized []).1.2, w2)
        ∧ Os.fs w2 = Os.fs (doomedFinalized []).2
    end.
Proof.
  apply (Close_finalize_fails 0 1 (doomed []).1 (doomed []).2 (PathError "write")
           (doomedFinalized []).1.2 (doomedFinalized []).2).
  - vm_compute. reflexivity.
  - vm_compute. reflexivity.
Defined.

(** The write of the flush fails and so does the deletion: Close returns the
    error of the deletion and the temporary directory is still there. *)
Lemma Close_finalize_fails_dir_stays :
  ∃ e s1 w1 s' w',
    finalize (set_closed true (doomed [true]).1) (doomed [true]).2 = (Some e, s1, w1)
    ∧ Close 0 1 (doomed [true]).1 (doomed [true]).2 = (Some (PathError "unlinkat"), s', w')
    ∧ is_Some (Os.fs w' !! dir (doomed [true]).1).
Proof.
  eexists _, _, _, _, _.
  split; [vm_compute; reflexivity|].
  split; [vm_compute; reflexivity|].
  vm_compute. eexists. reflexivity.
Qed.

(** ** The pipeline *)

Lemma pipeline_order_witness :
  Pipeline.reachable echo 1 oneAnswered
  ∧ (Pipeline.emitted oneAnswered).*1
    = take (length (Pipeline.emitted oneAnswered)) (Pipeline.queued oneAnswered)
  ∧ (∀ i req o,
       Pipeline.emitted oneAnswered !! i = Some (req, o) →
       Pipeline.queued oneAnswered !! i = Some req
       ∧ (o = Pipeline.Done (echo i req)
          ∨ (o = Pipeline.Failed Pipeline.EOF ∧ Pipeline.closed oneAnswered = true
             ∧ ∀ j req' o', (i ≤ j)%nat →
                 Pipeline.emitted oneAnswered !! j = Some (req', o') →
                 o' = Pipeline.Failed Pipeline.EOF))).
Proof.
  assert (Hreach : Pipeline.reachable echo 1 oneAnswered).
  { unfold Pipeline.reachable.
    eapply rtc_l; [left; apply (Pipeline.send_write 1 _ 7%nat); reflexivity|]; cbn.
    eapply rtc_l; [left; apply (Pipeline.send_push 1 _ 7%nat); [reflexivity|cbn; lia]|]; cbn.
    eapply rtc_l; [left; apply (Pipeline.recv_take 1 _ 7%nat []); reflexivity|]; cbn.
    eapply rtc_l; [right; apply (Pipeline.peer_handle echo _ 7%nat []); reflexivity|]; cbn.
    eapply rtc_l; [left; apply (Pipeline.recv_decode 1 _ 7%nat (echo 0 7) []); reflexivity|]; cbn.
    eapply rtc_l; [left; apply (Pipeline.recv_emit 1 _ 7%nat (Pipeline.Done (echo 0 7)));
                   reflexivity|]; cbn.
    eapply rtc_l; [left; apply (Pipeline.send_write 1 _ 9%nat); reflexivity|]; cbn.
    eapply rtc_l; [left; apply (Pipeline.send_push 1 _ 9%nat); [reflexivity|cbn; lia]|]; cbn.
    apply rtc_refl. }
  split; [exact Hreach|].
  exact (pipeline_order echo 1 oneAnswered Hreach).
Defined.

(** With the capacity that the documentation gives the in-flight channel,
    the send that brings the requests in flight to the limit returns while
    nothing is answered. *)
Lemma spec_capacity_second_send_returns :
  Pipeline.unanswered (Pipeline.inflightCapacity 0) twoReturned
  ∧ length (Pipeline.queued twoReturned) = Z.to_nat (Pipeline.maxInFlight 0).
Proof.
  split; [|reflexivity].
  unfold Pipeline.unanswered. change (Pipeline.inflightCapacity 0) with 2%nat.
  eapply rtc_l; [apply (Pipeline.send_write _ _ 1%nat); reflexivity|]; cbn.
  eapply rtc_l; [apply (Pipeline.send_push _ _ 1%nat); [reflexivity|cbn; lia]|]; cbn.
  eapply rtc_l; [apply (Pipeline.send_write _ _ 2%nat); reflexivity|]; cbn.
  eapply rtc_l; [apply (Pipeline.send_push _ _ 2%nat); [reflexivity|cbn; lia]|]; cbn.
  apply rtc_refl.
Qed.

Lemma pipeline_limit_witness :
  (0 = 0 ∨ 2 ≤ 0)
  ∧ Pipeline.AppendEntriesPipeline Pipeline.observedCapacity 1
    = inl Pipeline.ErrPipelineReplicationNotSupported
  ∧ Pipeline.maxInFlight 0 = 2
  ∧ ∃ cap,
      Pipeline.AppendEntriesPipeline Pipeline.observedCapacity 0 = inr cap
      ∧ (∀ s : @Pipeline.state nat nat, Pipeline.unanswered cap s →
           (length (Pipeline.queued s) < Z.to_nat (Pipeline.maxInFlight 0))%nat)
      ∧ (∀ (s : @Pipeline.state nat nat) (r : nat), Pipeline.unanswered cap s →
           (S (length (Pipeline.queued s)) < Z.to_nat (Pipeline.maxInFlight 0))%nat →
           ∃ s', rtc (Pipeline.local_step cap) s s'
                 ∧ Pipeline.queued s' = Pipeline.queued s ++ [default r (Pipeline.sender s)]).
Proof.
  split; [left; reflexivity|].
  apply (pipeline_limit (Req:=nat) (Resp:=nat) 0). left. reflexivity.
Defined.

Import Cases.

(** ** The further theorems at work *)

(** A Write of "abcd" to a sink just created stays in the buffer. *)
Lemma Write_touches_sink_only_witness :
  let '(_, s', w') := Write newSink.1 (bytes "abcd") newSink.2 in
  (∀ k, k ≠ dir newSink.1 → Os.fs w' !! k = Os.fs newSink.2 !! k)
  ∧ strip <$> Os.fs w' = strip <$> Os.fs newSink.2
  ∧ (∀ fd, fd ≠ stateFile newSink.1 → Os.fds w' !! fd = Os.fds newSink.2 !! fd)
  ∧ handle_inv s' w'
  ∧ dir s' = dir newSink.1 ∧ ID_ s' = ID_ newSink.1
  ∧ stateFile s' = stateFile newSink.1 ∧ closed s' = closed newSink.1.
Proof.
  apply (Write_touches_sink_only newSink.1 (bytes "abcd") newSink.2).
  eexists. vm_compute. reflexivity.
Defined.

(** While a third snapshot is written, List gives the two that are there. *)
Lemma pending_snapshot_not_listed_witness :
  ∃ l, l ≡ₚ finalized 0 1 (Os.fs (afterNew store2))
       ∧ List 0 1 store2 sinkBeside.2
         = (inr (map SnapshotMeta_
                   (take (Z.to_nat (retain store2)) (sort_Sort (sort_Reverse Less) l))),
            sinkBeside.2).
Proof.
  apply (pending_snapshot_not_listed 0 1 noPeers store2 40 9 [] 0 tt [bytes "xy"]
           (afterNew store2)
           (created store2 9 40 (afterNew store2)).1
           (created store2 9 40 (afterNew store2)).2
           sinkBeside.1 sinkBeside.2).
  - vm_compute. reflexivity.
  - vm_compute. reflexivity.
  - vm_compute. reflexivity.
  - vm_compute. discriminate.
Defined.

(** Cancel of the sink that holds "abcd" leaves the empty directory. *)
Lemma Cancel_undoes_Create_witness :
  let '(r, s', w') := Cancel sinkABCD.1 sinkABCD.2 in
  closed s' = true
  ∧ (∀ k, k ≠ dir newSink.1 → Os.fs w' !! k = Os.fs emptyWorld !! k)
  ∧ match r with
    | None =>
        Os.fs w' = delete (dir newSink.1) (Os.fs emptyWorld)
        ∧ (Os.fs emptyWorld !! dir newSink.1 = None → Os.fs w' = Os.fs emptyWorld)
        ∧ Os.fds w' = Os.fds emptyWorld
    | Some _ => is_Some (Os.fs w' !! dir newSink.1)
    end.
Proof.
  apply (Cancel_undoes_Create noPeers store1 10 3 [] 0 tt [bytes "abcd"]
           emptyWorld newSink.1 newSink.2 sinkABCD.1 sinkABCD.2).
  - vm_compute. reflexivity.
  - vm_compute. reflexivity.
Defined.

(** The flush of "abcd" fails: finalize leaves the state file open. *)
Lemma finalize_leaves_file_open_witness :
  let '(r, _, w') := finalize (doomed []).1 (doomed []).2 in
  (∀ k, k ≠ dir (doomed []).1 → Os.fs w' !! k = Os.fs (doomed []).2 !! k)
  ∧ match bufio_Flush (doomed []).1 (doomed []).2 with
    | (Some e, _, _) => r = Some e ∧ is_Some (Os.fds w' !! stateFile (doomed []).1)
    | (None, _, w1) =>
        match (if negb (sinkNoSync (doomed []).1)
               then Os.Sync (stateFile (doomed []).1) w1 else (inr tt, w1)) with
        | (inl e, _) => r = Some e ∧ is_Some (Os.fds w' !! stateFile (doomed []).1)
        | (inr _, _) => Os.fds w' = delete (stateFile (doomed []).1) (Os.fds (doomed []).2)
        end
    end.
Proof.
  apply (finalize_leaves_file_open (doomed []).1 (doomed []).2).
  eexists. vm_compute. reflexivity.
Defined.

(** A Write of more than the buffer holds fails: Close installs nothing. *)
Lemma failed_Write_never_installed_witness :
  WriteAll failedWrite.1.2 [bytes "more"] failedWrite.2 = (failedWrite.1.2, failedWrite.2)
  ∧ let '(r, _, w') := Close 0 1 failedWrite.1.2 failedWrite.2 in
    r ≠ None
    ∧ (∀ k, Os.fs failedWrite.2 !! k = None → Os.fs w' !! k = None)
    ∧ is_Some (Os.fds w' !! stateFile sinkFailing.1).
Proof.
  apply (failed_Write_never_installed 0 1 sinkFailing.1 tooLong sinkFailing.2
           failedWrite.1.1.1 (PathError "write") failedWrite.1.2 failedWrite.2
           [bytes "more"]).
  - eexists. vm_compute. reflexivity.
  - vm_compute. reflexivity.
  - vm_compute. reflexivity.
Defined.

(** The snapshot "abcd" written to its end in an empty directory. *)
Lemma Close_leaves_no_handle_witness :
  Os.fds (Close 0 1 sinkABCD.1 sinkABCD.2).2 = Os.fds emptyWorld
  ∧ Os.fs (Close 0 1 sinkABCD.1 sinkABCD.2).2 !! dir newSink.1 = None.
Proof.
  destruct (Close_leaves_no_handle 0 1 noPeers store1 10 3 [] 0 tt [bytes "abcd"]
              emptyWorld newSink.1 newSink.2 sinkABCD.1 sinkABCD.2
              (Close 0 1 sinkABCD.1 sinkABCD.2).1.2 (Close 0 1 sinkABCD.1 sinkABCD.2).2)
    as (Hfds & Hfs & _).
  - vm_compute. reflexivity.
  - vm_compute. reflexivity.
  - vm_compute. reflexivity.
  - split; [exact Hfds | exact Hfs].
Defined.

(** The parent directory cannot be opened: Close returns the error and the
    snapshot is in place. *)
Lemma Close_fails_after_install_witness :
  Close 0 1 sinkLate.1 sinkLate.2 = (Some (PathError "open"), lateFinalized.1.2, lateTail.2)
  ∧ (∃ sd, Os.fs lateRenamed.2 !! ID_ sinkLate.1 = Some (Os.NDir sd)
           ∧ Os.meta_json sd = Some (Os.Encoded (meta lateFinalized.1.2)))
  ∧ Os.fs lateRenamed.2 !! dir sinkLate.1 = None
  ∧ (∀ k, Os.fs lateTail.2 !! k = Os.fs lateRenamed.2 !! k ∨ Os.fs lateTail.2 !! k = None).
Proof.
  apply (Close_fails_after_install 0 1 sinkLate.1 sinkLate.2 lateFinalized.1.2
           lateFinalized.2 lateMeta.2 lateRenamed.2 (PathError "open") lateTail.2).
  - vm_compute. reflexivity.
  - vm_compute. reflexivity.
  - vm_compute. reflexivity.
  - vm_compute. reflexivity.
  - vm_compute. reflexivity.
  - vm_compute. reflexivity.
Defined.

(** The reader of the snapshot "abcd": closing it leaves the handles as
    they were. *)
Lemma reader_reads_and_closes_witness :
  Open store2 "7-30-1700000000123" (afterNew store2) = (inr (metaNew, readerNew), openedNew.2)
  ∧ bufferedFile_ReadAll readerNew openedNew.2 = (inr (bytes "abcd"), (bufferedFile_ReadAll readerNew openedNew.2).2)
  ∧ Os.fds (bufferedFile_Close readerNew openedNew.2).2 = Os.fds (afterNew store2).
Proof.
  assert (HOpen : Open store2 "7-30-1700000000123" (afterNew store2)
                  = (inr (metaNew, readerNew), openedNew.2)) by (vm_compute; reflexivity).
  split; [exact HOpen|]. split; [vm_compute; reflexivity|].
  pose proof (reader_reads_and_closes store2 "7-30-1700000000123" (afterNew store2)
                metaNew readerNew openedNew.2 HOpen) as [Hclose _].
  destruct (bufferedFile_Close readerNew openedNew.2) as [rc w2].
  exact (proj1 Hclose).
Defined.

(** A store that retains one reaps the older of the two snapshots and
    spares the temporary directory beside them. *)
Lemma ReapSnapshots_spares_witness :
  let '(r, w') := ReapSnapshots 0 1 store1 sinkBeside.2 in
  r = inr tt
  ∧ Os.fds w' = Os.fds sinkBeside.2
  ∧ (∀ k, Os.fs sinkBeside.2 !! k = None → Os.fs w' !! k = None)
  ∧ (∀ k node, Os.fs sinkBeside.2 !! k = Some node →
               finalized_entry 0 1 (k, node) = None → Os.fs w' !! k = Some node)
  ∧ (Z.of_nat (length (finalized 0 1 (Os.fs sinkBeside.2))) ≤ retain store1 →
     Os.fs w' = Os.fs sinkBeside.2).
Proof.
  apply (ReapSnapshots_spares 0 1 store1 sinkBeside.2).
  - vm_compute. reflexivity.
  - vm_compute. discriminate.
  - apply (@bool_decide_unpack _ (names_consistent_dec 0 1 _)). vm_compute. exact I.
Defined.

(** The metadata written for a sink just created is read back. *)
Lemma writeMeta_readMeta_witness :
  Os.fds (writeMeta newSink.1 newSink.2).2 = Os.fds newSink.2
  ∧ (∀ k, k ≠ dir newSink.1 →
          Os.fs (writeMeta newSink.1 newSink.2).2 !! k = Os.fs newSink.2 !! k)
  ∧ (Os.faults (writeMeta newSink.1 newSink.2).2 = [] →
     readMeta (dir newSink.1) (writeMeta newSink.1 newSink.2).2
       = (inr (meta newSink.1), (writeMeta newSink.1 newSink.2).2))
  ∧ (∀ name x, let '(_, x') := readMeta name x in
               Os.fs x' = Os.fs x ∧ Os.fds x' = Os.fds x).
Proof.
  apply (writeMeta_readMeta newSink.1 newSink.2 (writeMeta newSink.1 newSink.2).2).
  vm_compute. reflexivity.
Defined.

(** In a store that retains one and holds a snapshot of term 5, the Close of
    a snapshot of term 3 removes that very snapshot, and Open does not find
    it; the Close of a snapshot of term 7 leaves it on disk. *)
Lemma Close_reaps_own_snapshot_witness :
  (Os.fs closedOutranked.2 !! ID_ sinkOutranked.1 = None
   ∧ ∀ f w'', Os.fs w'' = Os.fs closedOutranked.2 →
              (Open f (ID_ sinkOutranked.1) w'').1 = inl (PathError "open"))
  ∧ ∃ d, Os.fs closedNewest.2 !! ID_ sinkNewest.1 = Some (Os.NDir d)
         ∧ Os.meta_json d = Some (Os.Encoded (meta closedNewest.1.2)).
Proof.
  split.
  - destruct (Close_reaps_own_snapshot 0 1 sinkOutranked.1 sinkOutranked.2
                closedOutranked.1.2 closedOutranked.2) as [_ H].
    + vm_compute. reflexivity.
    + apply (@bool_decide_unpack _ (names_consistent_dec 0 1 _)). vm_compute. exact I.
    + vm_compute. reflexivity.
    + vm_compute. reflexivity.
    + vm_compute. reflexivity.
    + apply H.
      * vm_compute. discriminate.
      * split; vm_compute; discriminate.
      * vm_compute. reflexivity.
  - destruct (Close_reaps_own_snapshot 0 1 sinkNewest.1 sinkNewest.2
                closedNewest.1.2 closedNewest.2) as [H _].
    + vm_compute. reflexivity.
    + apply (@bool_decide_unpack _ (names_consistent_dec 0 1 _)). vm_compute. exact I.
    + vm_compute. reflexivity.
    + vm_compute. reflexivity.
    + vm_compute. reflexivity.
    + apply H. vm_compute. reflexivity.
Defined.
